(** * Signal-denoising filters of digital_processing: a shallow embedding

    The C++ sources under [src/] are embedded function by function.

    Numeric model.  A sample is modelled as an exact canonical rational
    ([Qc]): every sample has one representation, the order is total and
    arithmetic does not round.  A parameter that a caller passes to a
    constructor is a [double], which can also be an infinity or NaN.
    Where rounding decides a statement, the module [Double] runs the
    Savitzky-Golay computation on IEEE doubles.  A read past the end of a
    vector returns no value.  [size_t] values are [nat] (the guarded
    subtractions of the source coincide with truncated subtraction) and
    [int] values are [Z]: sizes stay below [2^31], so that no conversion
    between the two wraps.  Vectors are lists, read with [nth] and
    updated in place with stdpp's [<[i:=v]>]. *)

From Stdlib Require Import QArith Qcanon Qcabs ZArith List Lia Sorting Permutation.
From Stdlib Require Import Lqa.
From Stdlib Require Floats.
From stdpp Require Import base decidable numbers list.
Import ListNotations.

Local Open Scope Qc_scope.

(** ** Numeric helpers *)

Abbreviation Signal := (list Qc) (only parsing).

(** A [double] literal that is an integer. *)
Definition qz (z : Z) : Qc := Qc_of_Z z.

(** A [double] literal [n / d]. *)
Definition qfrac (n : Z) (d : positive) : Qc := Q2Qc (n # d).

(** A [size_t] or [int] converted to [double]. *)
Definition of_nat (n : nat) : Qc := Qc_of_Z (Z.of_nat n).

Definition ltb (x y : Qc) : bool := bool_decide (x < y).
Definition leb (x y : Qc) : bool := bool_decide (x ≤ y).
Definition eqb (x y : Qc) : bool := bool_decide (x = y).

(** [std::min(a, b)] is [(b < a) ? b : a]; [std::max(a, b)] is
    [(a < b) ? b : a]. *)
Definition std_min (a b : Qc) : Qc := if ltb b a then b else a.
Definition std_max (a b : Qc) : Qc := if ltb a b then b else a.

(** A [double] that a caller passes: a finite value, an infinity or NaN.
    The comparisons are those of IEEE 754: each of them is false as soon
    as one side is NaN. *)
Inductive double : Type := Finite (q : Qc) | PosInf | NegInf | NaN.

Coercion Finite : Qc >-> double.

Definition double_lt (x y : double) : bool :=
  match x, y with
  | NaN, _ | _, NaN => false
  | Finite a, Finite b => ltb a b
  | NegInf, NegInf => false
  | NegInf, _ => true
  | Finite _, PosInf => true
  | Finite _, NegInf => false
  | PosInf, _ => false
  end.

Definition double_le (x y : double) : bool :=
  match x, y with
  | NaN, _ | _, NaN => false
  | Finite a, Finite b => leb a b
  | NegInf, _ => true
  | Finite _, PosInf => true
  | Finite _, NegInf => false
  | PosInf, PosInf => true
  | PosInf, _ => false
  end.

(** [std::numeric_limits<double>::max()]: the largest finite double,
    [(2 - 2^-52) * 2^1023]; [lowest()] is its negation. *)
Definition DBL_MAX : Qc := qz (2 ^ 1024 - 2 ^ 971).
Definition DBL_LOWEST : Qc := - DBL_MAX.

(** ** Loops

    [for_each idxs body s] runs [body] for the indices of [idxs] in
    order, threading the loop state [s]. *)
Definition for_each {S : Type} (idxs : list nat) (body : nat -> S -> S) (s : S) : S :=
  fold_left (fun acc i => body i acc) idxs s.

(** [for (size_t i = lo; i < hi; ++i) body]. *)
Definition for_loop {S : Type} (lo hi : nat) (body : nat -> S -> S) (s : S) : S :=
  for_each (seq lo (hi - lo)) body s.

(** The indices [hi - 1, hi - 2, ..., lo], for the loops that count
    down. *)
Definition for_rev {S : Type} (lo hi : nat) (body : nat -> S -> S) (s : S) : S :=
  for_each (rev (seq lo (hi - lo))) body s.

(** [for (int k = lo; k <= hi; ++k) body]. *)
Definition zrange (lo hi : Z) : list Z :=
  map (fun t => (lo + Z.of_nat t)%Z) (seq 0 (Z.to_nat (hi - lo + 1))).

Definition for_int {S : Type} (lo hi : Z) (body : Z -> S -> S) (s : S) : S :=
  fold_left (fun acc k => body k acc) (zrange lo hi) s.

(** ** Exceptions and what the model does not follow

    [std::invalid_argument] is the configuration error and
    [std::runtime_error] the numerical one; a function that can throw
    returns a [Result].  Two more outcomes end a call in the model:
    [NonFinite] is a normal return whose value holds a NaN or an infinity,
    which the rational samples of the model cannot hold, and [OutOfBounds]
    is a read past the end of a vector, which is undefined behaviour in
    the source. *)
Inductive Result (A : Type) : Type :=
| Ok (a : A)
| InvalidConfiguration
| NumericalError
| NonFinite
| OutOfBounds.
Arguments Ok {A} a.
Arguments InvalidConfiguration {A}.
Arguments NumericalError {A}.
Arguments NonFinite {A}.
Arguments OutOfBounds {A}.

Definition bind {A B : Type} (r : Result A) (k : A -> Result B) : Result B :=
  match r with
  | Ok a => k a
  | InvalidConfiguration => InvalidConfiguration
  | NumericalError => NumericalError
  | NonFinite => NonFinite
  | OutOfBounds => OutOfBounds
  end.

(** ** The C library

    [std::sqrt], [std::log10] and [rand] are external: the embedding takes
    them as an interface.  [rand] reads and advances a process-wide
    generator state. *)
Class CLib : Type := {
  sqrt : Qc -> Qc;
  log10 : Qc -> Qc;
  rng : Type;
  rand : rng -> Z * rng;
  RAND_MAX : Z
}.

(** ** signal_processor.cpp: helpers of the base class *)

(** [std::sort] on doubles: insertion into an ascending list. *)
Fixpoint insert_sorted (x : Qc) (l : list Qc) : list Qc :=
  match l with
  | [] => [x]
  | y :: l' => if leb x y then x :: l else y :: insert_sorted x l'
  end.

Definition std_sort (l : list Qc) : list Qc := fold_right insert_sorted [] l.

Definition median (values : list Qc) : Qc :=
  match values with
  | [] => 0
  | _ =>
    let values := std_sort values in
    let size := length values in
    if Nat.eqb (size mod 2) 0
    then (nth (size / 2 - 1) values 0 + nth (size / 2) values 0) / qz 2
    else nth (size / 2) values 0
  end.

Definition mad (values : list Qc) (med : Qc) : Qc :=
  let deviations :=
    fold_left (fun dev value => dev ++ [Qcabs (value - med)]) values [] in
  median deviations.

Definition linearInterpolate (x1 y1 x2 y2 x : Qc) : Qc :=
  if ltb (Qcabs (x2 - x1)) (qfrac 1 10000000000) then y1
  else y1 + (y2 - y1) * (x - x1) / (x2 - x1).

(** [std::accumulate(begin, end, 0.0)]. *)
Definition accumulate (l : list Qc) : Qc := fold_left Qcplus l 0.

(** ** signal_processor.cpp: quality metrics *)

Definition calculateSNR `{CLib} (clean noisy : Signal) : Qc :=
  if negb (Nat.eqb (length clean) (length noisy)) || Nat.eqb (length clean) 0
  then 0
  else
    let '(signal_power, noise_power) :=
      for_loop 0 (length clean)
        (fun i '(sp, np) =>
           let sp := sp + nth i clean 0 * nth i clean 0 in
           let noise := nth i noisy 0 - nth i clean 0 in
           (sp, np + noise * noise))
        (0, 0) in
    let signal_power := signal_power / of_nat (length clean) in
    let noise_power := noise_power / of_nat (length clean) in
    if ltb noise_power (qfrac 1 10000000000) then qz 100
    else qz 10 * log10 (signal_power / noise_power).

Definition calculateMSE (original processed : Signal) : Qc :=
  if negb (Nat.eqb (length original) (length processed)) || Nat.eqb (length original) 0
  then 0
  else
    let mse :=
      for_loop 0 (length original)
        (fun i mse =>
           let diff := nth i original 0 - nth i processed 0 in
           mse + diff * diff)
        0 in
    mse / of_nat (length original).

Definition calculateCorrelation `{CLib} (signal1 signal2 : Signal) : Qc :=
  if negb (Nat.eqb (length signal1) (length signal2)) || Nat.eqb (length signal1) 0
  then 0
  else
    let mean1 := accumulate signal1 / of_nat (length signal1) in
    let mean2 := accumulate signal2 / of_nat (length signal2) in
    let '(numerator, sum_sq1, sum_sq2) :=
      for_loop 0 (length signal1)
        (fun i '(num, s1, s2) =>
           let diff1 := nth i signal1 0 - mean1 in
           let diff2 := nth i signal2 0 - mean2 in
           (num + diff1 * diff2, s1 + diff1 * diff1, s2 + diff2 * diff2))
        (0, 0, 0) in
    let denominator := sqrt (sum_sq1 * sum_sq2) in
    if ltb denominator (qfrac 1 10000000000) then 0
    else numerator / denominator.

(** ** median_filter.cpp *)

Module MedianFilter.

Record t : Type := { windowSize_ : nat }.

Definition IsValidWindowSize (windowSize : nat) : bool :=
  negb (Nat.eqb windowSize 0) && negb (Nat.eqb (windowSize mod 2) 0).

Definition setWindowSize (windowSize : nat) : Result t :=
  if negb (IsValidWindowSize windowSize) then InvalidConfiguration
  else Ok {| windowSize_ := windowSize |}.

(** The constructor only calls [setWindowSize]. *)
Definition new (windowSize : nat) : Result t := setWindowSize windowSize.

(** The local [window] of [computeWindowMedian] when it reaches
    [median]: the clipped window, then the padding at either end. *)
Definition paddedWindow (f : t) (input : Signal) (index : nat) : list Qc :=
  let halfWindow := (windowSize_ f / 2)%nat in
  let startIdx := if Nat.leb halfWindow index then (index - halfWindow)%nat else 0%nat in
  let endIdx := Nat.min (index + halfWindow + 1) (length input) in
  let window := for_loop startIdx endIdx (fun i w => w ++ [nth i input 0]) [] in
  let window :=
    if Nat.ltb index halfWindow
    then for_loop 0 (halfWindow - index) (fun _ w => nth 0 input 0 :: w) window
    else window in
  if Nat.leb (length input) (index + halfWindow)
  then for_loop 0 (index + halfWindow + 1 - length input)
                (fun _ w => w ++ [List.last input 0]) window
  else window.

Definition computeWindowMedian (f : t) (input : Signal) (index : nat) : Qc :=
  median (paddedWindow f input index).

Definition process (f : t) (input : Signal) : Signal :=
  match input with
  | [] => []
  | _ => for_loop 0 (length input)
           (fun i output => output ++ [computeWindowMedian f input i]) []
  end.

End MedianFilter.

(** ** wiener_filter.cpp: the adaptive predictive filter *)

Module WienerFilter.

Record t : Type := {
  filterOrder_ : nat;
  mu_ : Qc;
  lambda_ : Qc;
  weights_ : list Qc
}.

(** [weights_.assign(filterOrder_, 0.0)], then one [rand()] per weight. *)
Definition reset `{CLib} (f : t) (g : rng) : t * rng :=
  let weights := repeat (0 : Qc) (filterOrder_ f) in
  let '(weights, g) :=
    for_loop 0 (filterOrder_ f)
      (fun i '(w, g) =>
         let '(r, g) := rand g in
         (<[i := qfrac 1 1000 * (Qc_of_Z r / Qc_of_Z RAND_MAX - qfrac 1 2)]> w, g))
      (weights, g) in
  ({| filterOrder_ := filterOrder_ f; mu_ := mu_ f; lambda_ := lambda_ f;
      weights_ := weights |}, g).

(** The three checks that the constructor and [setParameters] share, as
    the source compares: [mu <= 0.0 || mu >= 1.0] and
    [lambda <= 0.0 || lambda > 1.0]; [true] when one of them throws. *)
Definition rejects (filterOrder : nat) (mu lambda : double) : bool :=
  Nat.eqb filterOrder 0
  || (double_le mu 0 || double_le 1 mu)
  || (double_le lambda 0 || double_lt 1 lambda).

(** A call that passes the checks stores the parameters and resets the
    weights; with a parameter that is not a finite number the object is
    one that the model cannot hold. *)
Definition new `{CLib} (filterOrder : nat) (mu lambda : double) (g : rng)
  : Result (t * rng) :=
  if rejects filterOrder mu lambda then InvalidConfiguration
  else match mu, lambda with
       | Finite mu, Finite lambda =>
         Ok (reset {| filterOrder_ := filterOrder; mu_ := mu; lambda_ := lambda;
                      weights_ := [] |} g)
       | _, _ => NonFinite
       end.

Definition setParameters `{CLib} (f : t) (filterOrder : nat) (mu lambda : double)
    (g : rng) : Result (t * rng) :=
  if rejects filterOrder mu lambda then InvalidConfiguration
  else match mu, lambda with
       | Finite mu, Finite lambda =>
         Ok (reset {| filterOrder_ := filterOrder; mu_ := mu; lambda_ := lambda;
                      weights_ := weights_ f |} g)
       | _, _ => NonFinite
       end.

(** The buffer shift at the top of the sample loop:
    [for (i = filterOrder_ - 1; i > 0; --i) d[i] = d[i-1]; d[0] = x]
    (the order is positive: the constructor checks it). *)
Definition shiftIn (filterOrder : nat) (delayBuffer : list Qc) (x : Qc) : list Qc :=
  let d := for_rev 1 filterOrder (fun i d => <[i := nth (i - 1) d 0]> d) delayBuffer in
  <[0%nat := x]> d.

(** [y]: the filter output, accumulated over the taps. *)
Definition output_of (filterOrder : nat) (weights delayBuffer : list Qc) : Qc :=
  for_loop 0 filterOrder (fun i y => y + nth i weights 0 * nth i delayBuffer 0) 0.

(** [desired]: the target the error is formed against. *)
Definition desired (input : Signal) (n : nat) : Qc :=
  if Nat.ltb 0 n
  then qfrac 1 2 * (nth (n - 1) input 0
                    + (if Nat.ltb n (length input - 1) then nth (n + 1) input 0
                       else nth n input 0))
  else nth n input 0.

Definition updateWeights (filterOrder : nat) (mu error : Qc)
    (weights delayBuffer : list Qc) : list Qc :=
  for_loop 0 filterOrder
    (fun i w => <[i := nth i w 0 + mu * error * nth i delayBuffer 0]> w) weights.

(** One iteration of the sample loop of [processLMS]; the state is the
    weights, the delay buffer and the output so far. *)
Definition lmsStep (f : t) (input : Signal) (n : nat)
    (st : list Qc * list Qc * Signal) : list Qc * list Qc * Signal :=
  let '(weights, delayBuffer, output) := st in
  let delayBuffer := shiftIn (filterOrder_ f) delayBuffer (nth n input 0) in
  let y := output_of (filterOrder_ f) weights delayBuffer in
  let error := desired input n - y in
  let weights := updateWeights (filterOrder_ f) (mu_ f) error weights delayBuffer in
  (weights, delayBuffer, output ++ [y]).

(** The loop of [processLMS] over the samples [0 .. upto - 1]. *)
Definition lmsRun (f : t) (input : Signal) (upto : nat) : list Qc * list Qc * Signal :=
  for_loop 0 upto (lmsStep f input)
    (weights_ f, repeat (0 : Qc) (filterOrder_ f), []).

Definition processLMS (f : t) (input : Signal) : t * Signal :=
  let '(weights, _, output) := lmsRun f input (length input) in
  ({| filterOrder_ := filterOrder_ f; mu_ := mu_ f; lambda_ := lambda_ f;
      weights_ := weights |}, output).

Definition process (f : t) (input : Signal) : t * Signal :=
  match input with
  | [] => (f, [])
  | _ => processLMS f input
  end.

Definition getDelayVector (f : t) (input : Signal) (index : nat) : list Qc :=
  for_loop 0 (filterOrder_ f)
    (fun i d => if Nat.leb i index then <[i := nth (index - i) input 0]> d
                else <[i := 0]> d)
    (repeat (0 : Qc) (filterOrder_ f)).

(** [processRLS] is private and no function calls it: it is not
    embedded. *)

End WienerFilter.

(** ** morphological_filter.cpp *)

Module MorphologicalFilter.

Inductive Operation : Type := OPENING | CLOSING | EROSION | DILATION.

Record t : Type := {
  operation_ : Operation;
  structuringElement_ : list Qc
}.

Definition createFlatElement (size : nat) : Result (list Qc) :=
  if Nat.eqb size 0 then InvalidConfiguration
  else Ok (repeat (0 : Qc) size).

(** [MorphologicalFilter(Operation, size_t elementSize)]. *)
Definition new_flat (operation : Operation) (elementSize : nat) : Result t :=
  bind (createFlatElement elementSize) (fun e =>
  Ok {| operation_ := operation; structuringElement_ := e |}).

(** [MorphologicalFilter(Operation, const std::vector<double>&)]. *)
Definition new (operation : Operation) (structuringElement : list Qc) : Result t :=
  match structuringElement with
  | [] => InvalidConfiguration
  | _ => Ok {| operation_ := operation; structuringElement_ := structuringElement |}
  end.

Definition setOperation (f : t) (operation : Operation) : t :=
  {| operation_ := operation; structuringElement_ := structuringElement_ f |}.

Definition setStructuringElement (f : t) (structuringElement : list Qc) : Result t :=
  match structuringElement with
  | [] => InvalidConfiguration
  | _ => Ok {| operation_ := operation_ f; structuringElement_ := structuringElement |}
  end.

(** [signalIndex] of the inner loops, an [int]. *)
Definition signalIndex (i halfSize j : nat) : Z :=
  (Z.of_nat i - Z.of_nat halfSize + Z.of_nat j)%Z.

Definition inSignal (input : Signal) (idx : Z) : bool :=
  (0 <=? idx)%Z && (idx <? Z.of_nat (length input))%Z.

(** The body of the loop over [i] in [erosion]. *)
Definition erodeAt (f : t) (input : Signal) (i : nat) : Qc :=
  let halfSize := (length (structuringElement_ f) / 2)%nat in
  let minVal :=
    for_loop 0 (length (structuringElement_ f))
      (fun j minVal =>
         let idx := signalIndex i halfSize j in
         if inSignal input idx
         then std_min minVal (nth (Z.to_nat idx) input 0 - nth j (structuringElement_ f) 0)
         else minVal)
      DBL_MAX in
  if eqb minVal DBL_MAX then nth i input 0 else minVal.

Definition erosion (f : t) (input : Signal) : Signal :=
  for_loop 0 (length input) (fun i result => result ++ [erodeAt f input i]) [].

(** The body of the loop over [i] in [dilation]. *)
Definition dilateAt (f : t) (input : Signal) (i : nat) : Qc :=
  let halfSize := (length (structuringElement_ f) / 2)%nat in
  let maxVal :=
    for_loop 0 (length (structuringElement_ f))
      (fun j maxVal =>
         let idx := signalIndex i halfSize j in
         if inSignal input idx
         then std_max maxVal (nth (Z.to_nat idx) input 0 + nth j (structuringElement_ f) 0)
         else maxVal)
      DBL_LOWEST in
  if eqb maxVal DBL_LOWEST then nth i input 0 else maxVal.

Definition dilation (f : t) (input : Signal) : Signal :=
  for_loop 0 (length input) (fun i result => result ++ [dilateAt f input i]) [].

(** The second pass runs on a temporary filter built from the same
    element; its constructor validates the element again. *)
Definition opening (f : t) (input : Signal) : Result Signal :=
  let eroded := erosion f input in
  bind (new DILATION (structuringElement_ f)) (fun dilationFilter =>
  Ok (dilation dilationFilter eroded)).

Definition closing (f : t) (input : Signal) : Result Signal :=
  let dilated := dilation f input in
  bind (new EROSION (structuringElement_ f)) (fun erosionFilter =>
  Ok (erosion erosionFilter dilated)).

Definition process (f : t) (input : Signal) : Result Signal :=
  match input with
  | [] => Ok []
  | _ =>
    match operation_ f with
    | EROSION => Ok (erosion f input)
    | DILATION => Ok (dilation f input)
    | OPENING => opening f input
    | CLOSING => closing f input
    end
  end.

End MorphologicalFilter.

(** ** outlier_detection.cpp *)

Module OutlierDetection.

Inductive DetectionMethod : Type := MAD_BASED | STATISTICAL | ADAPTIVE_THRESHOLD.
Inductive InterpolationMethod : Type := LINEAR | SPLINE | MEDIAN_BASED | AUTOREGRESSIVE.

Record t : Type := {
  detectionMethod_ : DetectionMethod;
  interpolationMethod_ : InterpolationMethod;
  threshold_ : Qc;
  windowSize_ : nat;
  arOrder_ : nat
}.

(** [true] when the checks of the constructor and of [setParameters]
    throw; the source compares [threshold <= 0.0]. *)
Definition rejects (threshold : double) (windowSize : nat) : bool :=
  double_le threshold 0 || (Nat.eqb windowSize 0 || Nat.eqb (windowSize mod 2) 0).

(** A threshold that passes the check and is not a finite number (NaN or
    the positive infinity) gives an object that the model cannot hold. *)
Definition new (detectionMethod : DetectionMethod)
    (interpolationMethod : InterpolationMethod)
    (threshold : double) (windowSize : nat) : Result t :=
  if rejects threshold windowSize then InvalidConfiguration
  else match threshold with
       | Finite threshold =>
         Ok {| detectionMethod_ := detectionMethod;
               interpolationMethod_ := interpolationMethod;
               threshold_ := threshold; windowSize_ := windowSize; arOrder_ := 5 |}
       | _ => NonFinite
       end.

Definition setParameters (f : t) (detectionMethod : DetectionMethod)
    (interpolationMethod : InterpolationMethod)
    (threshold : double) (windowSize : nat) : Result t :=
  if rejects threshold windowSize then InvalidConfiguration
  else match threshold with
       | Finite threshold =>
         Ok {| detectionMethod_ := detectionMethod;
               interpolationMethod_ := interpolationMethod;
               threshold_ := threshold; windowSize_ := windowSize;
               arOrder_ := arOrder_ f |}
       | _ => NonFinite
       end.

(** The window bounds that the detectors share. *)
Definition startIdx (halfWindow i : nat) : nat :=
  if Nat.leb halfWindow i then (i - halfWindow)%nat else 0%nat.
Definition endIdx (halfWindow i size : nat) : nat :=
  Nat.min (i + halfWindow + 1) size.

(** The local [window] of [detectMADBased]: the samples around [i],
    clipped to the signal. *)
Definition windowAround (halfWindow : nat) (input : Signal) (i : nat) : list Qc :=
  for_loop (startIdx halfWindow i) (endIdx halfWindow i (length input))
    (fun j w => w ++ [nth j input 0]) [].

Definition detectMADBased (f : t) (input : Signal) : list bool :=
  let halfWindow := (windowSize_ f / 2)%nat in
  for_loop 0 (length input)
    (fun i outliers =>
       let window := windowAround halfWindow input i in
       if Nat.ltb (length window) 3 then outliers
       else
         let med := median window in
         let madValue := mad window med in
         if ltb 0 madValue
         then
           let deviation := Qcabs (nth i input 0 - med) in
           if ltb (threshold_ f * madValue) deviation
           then <[i := true]> outliers
           else outliers
         else outliers)
    (repeat false (length input)).

Definition detectStatistical `{CLib} (f : t) (input : Signal) : list bool :=
  let outliers := repeat false (length input) in
  let mean := accumulate input / of_nat (length input) in
  let variance :=
    fold_left (fun v value => v + (value - mean) * (value - mean)) input 0 in
  let variance := variance / of_nat (length input) in
  let stddev := sqrt variance in
  if eqb stddev 0 then outliers
  else
    for_loop 0 (length input)
      (fun i outliers =>
         let zscore := Qcabs (nth i input 0 - mean) / stddev in
         if ltb (threshold_ f) zscore then <[i := true]> outliers else outliers)
      outliers.

Definition detectAdaptiveThreshold `{CLib} (f : t) (input : Signal) : list bool :=
  let halfWindow := (windowSize_ f / 2)%nat in
  for_loop 0 (length input)
    (fun i outliers =>
       let lo := startIdx halfWindow i in
       let hi := endIdx halfWindow i (length input) in
       let '(localSum, count) :=
         for_loop lo hi
           (fun j '(s, c) =>
              if negb (Nat.eqb j i) then (s + nth j input 0, S c) else (s, c))
           (0, 0%nat) in
       if Nat.eqb count 0 then outliers
       else
         let localMean := localSum / of_nat count in
         let localVariance :=
           for_loop lo hi
             (fun j v =>
                if negb (Nat.eqb j i)
                then let diff := nth j input 0 - localMean in v + diff * diff
                else v)
             0 in
         let localVariance := localVariance / of_nat count in
         let localStddev := sqrt localVariance in
         let adaptiveThreshold :=
           if eqb localStddev 0 then threshold_ f else threshold_ f * localStddev in
         if ltb adaptiveThreshold (Qcabs (nth i input 0 - localMean))
         then <[i := true]> outliers
         else outliers)
    (repeat false (length input)).

Definition detectOutliers `{CLib} (f : t) (input : Signal) : list bool :=
  match detectionMethod_ f with
  | MAD_BASED => detectMADBased f input
  | STATISTICAL => detectStatistical f input
  | ADAPTIVE_THRESHOLD => detectAdaptiveThreshold f input
  end.

(** The left search of [findNearestNormalPoints]: the indices
    [i - 1, ..., 0], stopping at the first that is not flagged. *)
Fixpoint searchLeft (outliers : list bool) (i : nat) : Z :=
  match i with
  | O => (-1)%Z
  | S i' => if negb (nth i' outliers false) then Z.of_nat i'
            else searchLeft outliers i'
  end.

(** The right search: the indices [i, i + 1, ...] below the size;
    [todo] is the number of indices left. *)
Fixpoint searchRight (outliers : list bool) (i todo : nat) : Z :=
  match todo with
  | O => (-1)%Z
  | S todo' => if negb (nth i outliers false) then Z.of_nat i
               else searchRight outliers (S i) todo'
  end.

Definition findNearestNormalPoints (outliers : list bool) (index : nat) : Z * Z :=
  (searchLeft outliers index,
   searchRight outliers (index + 1) (length outliers - (index + 1))).

Definition interpolateLinear (input : Signal) (outliers : list bool) : Signal :=
  for_loop 0 (length outliers)
    (fun i result =>
       if nth i outliers false
       then
         let '(leftIdx, rightIdx) := findNearestNormalPoints outliers i in
         if (0 <=? leftIdx)%Z && (0 <=? rightIdx)%Z
         then <[i := linearInterpolate
                       (Qc_of_Z leftIdx) (nth (Z.to_nat leftIdx) input 0)
                       (Qc_of_Z rightIdx) (nth (Z.to_nat rightIdx) input 0)
                       (of_nat i)]> result
         else if (0 <=? leftIdx)%Z
         then <[i := nth (Z.to_nat leftIdx) input 0]> result
         else if (0 <=? rightIdx)%Z
         then <[i := nth (Z.to_nat rightIdx) input 0]> result
         else result
       else result)
    input.

Definition interpolateMedian (f : t) (input : Signal) (outliers : list bool) : Signal :=
  let halfWindow := Nat.min (windowSize_ f / 2) 5 in
  for_loop 0 (length outliers)
    (fun i result =>
       if nth i outliers false
       then
         let neighbors :=
           for_loop (startIdx halfWindow i) (endIdx halfWindow i (length input))
             (fun j nb =>
                if negb (Nat.eqb j i) && negb (nth j outliers false)
                then nb ++ [nth j input 0] else nb)
             [] in
         match neighbors with
         | [] => result
         | _ => <[i := median neighbors]> result
         end
       else result)
    input.

Definition interpolateAutoregressive (f : t) (input : Signal) (outliers : list bool)
  : Signal :=
  for_loop 0 (length outliers)
    (fun i result =>
       if nth i outliers false
       then
         let '(sum, weightSum, usedPoints) :=
           for_loop 1 (Nat.min (arOrder_ f) i + 1)
             (fun j '(s, ws, used) =>
                let idx := (i - j)%nat in
                if negb (nth idx outliers false)
                then
                  let weight := 1 / of_nat j in
                  (s + weight * nth idx result 0, ws + weight, S used)
                else (s, ws, used))
             (0, 0, 0%nat) in
         if ltb 0 weightSum
         then <[i := sum / weightSum]> result
         else
           let interpolated := interpolateLinear input outliers in
           <[i := nth i interpolated 0]> result
       else result)
    input.

Definition process `{CLib} (f : t) (input : Signal) : Signal :=
  match input with
  | [] => []
  | _ =>
    let outliers := detectOutliers f input in
    match interpolationMethod_ f with
    | LINEAR => interpolateLinear input outliers
    | MEDIAN_BASED => interpolateMedian f input outliers
    | AUTOREGRESSIVE => interpolateAutoregressive f input outliers
    | SPLINE => interpolateLinear input outliers
    end
  end.

End OutlierDetection.

(** ** savgol_filter.cpp *)

Module SavgolFilter.

Record t : Type := {
  windowSize_ : nat;
  polyOrder_ : nat;
  coefficients_ : list Qc
}.

Abbreviation Matrix := (list (list Qc)) (only parsing).

(** [m[r][c]] and [m[r][c] = v]. *)
Definition mget (m : Matrix) (r c : nat) : Qc := nth c (nth r m []) 0.
Definition mset (m : Matrix) (r c : nat) (v : Qc) : Matrix :=
  <[r := <[c := v]> (nth r m [])]> m.

(** [std::swap(v[a], v[b])]. *)
Definition swap {A : Type} (d : A) (v : list A) (a b : nat) : list A :=
  <[b := nth a v d]> (<[a := nth b v d]> v).

(** The row with the largest magnitude in column [i], from row [i] on. *)
Definition findMaxRow (n : nat) (matrix : Matrix) (i : nat) : nat :=
  for_loop (i + 1) n
    (fun k maxRow =>
       if ltb (Qcabs (mget matrix maxRow i)) (Qcabs (mget matrix k i)) then k
       else maxRow)
    i.

(** The elimination of column [i] below the pivot row. *)
Definition eliminate (n : nat) (i : nat) (st : Matrix * list Qc) : Matrix * list Qc :=
  for_loop (i + 1) n
    (fun k '(matrix, rhs) =>
       let factor := mget matrix k i / mget matrix i i in
       let matrix :=
         for_loop i n
           (fun j m => mset m k j (mget m k j - factor * mget m i j)) matrix in
       (matrix, <[k := nth k rhs 0 - factor * nth i rhs 0]> rhs))
    st.

(** One iteration of the forward pass; it throws on a small pivot. *)
Definition forwardStep (n : nat) (i : nat) (st : Matrix * list Qc)
  : Result (Matrix * list Qc) :=
  let '(matrix, rhs) := st in
  let maxRow := findMaxRow n matrix i in
  let '(matrix, rhs) :=
    if negb (Nat.eqb maxRow i)
    then (swap [] matrix i maxRow, swap 0 rhs i maxRow)
    else (matrix, rhs) in
  if ltb (Qcabs (mget matrix i i)) (qfrac 1 1000000000000) then NumericalError
  else Ok (eliminate n i (matrix, rhs)).

Definition forwardPass (n : nat) (st : Matrix * list Qc) : Result (Matrix * list Qc) :=
  for_loop 0 n (fun i r => bind r (forwardStep n i)) (Ok st).

Definition backSubstitute (n : nat) (matrix : Matrix) (rhs : list Qc) : list Qc :=
  for_rev 0 n
    (fun i solution =>
       let solution := <[i := nth i rhs 0]> solution in
       let solution :=
         for_loop (i + 1) n
           (fun j s => <[i := nth i s 0 - mget matrix i j * nth j s 0]> s) solution in
       <[i := nth i solution 0 / mget matrix i i]> solution)
    (repeat (0 : Qc) n).

Definition gaussElimination (matrix : Matrix) (rhs : list Qc) : Result (list Qc) :=
  let n := length matrix in
  bind (forwardPass n (matrix, rhs)) (fun '(matrix, rhs) =>
  Ok (backSubstitute n matrix rhs)).

(** [std::pow(k, e)] for an [int] base and a [size_t] exponent. *)
Definition pow (k : Z) (e : nat) : Qc := qz k ^ e.

(** The normal-equations matrix: entry [(i, j)] sums [k^(i+j)] over the
    window offsets. *)
Definition normalMatrix (halfWindow polyOrder : nat) : Matrix :=
  for_loop 0 (polyOrder + 1)
    (fun i m =>
       for_loop 0 (polyOrder + 1)
         (fun j m =>
            let sum :=
              for_int (- Z.of_nat halfWindow) (Z.of_nat halfWindow)
                (fun k sum => sum + pow k (i + j)) 0 in
            mset m i j sum)
         m)
    (repeat (repeat (0 : Qc) (polyOrder + 1)) (polyOrder + 1)).

Definition rightHandSide (polyOrder : nat) : list Qc :=
  let rhs := <[0%nat := 1]> (repeat (0 : Qc) (polyOrder + 1)) in
  for_loop 1 (polyOrder + 1) (fun i rhs => <[i := 0]> rhs) rhs.

(** The taps: the fitted polynomial evaluated at each window offset. *)
Definition taps (windowSize halfWindow polyOrder : nat) (polyCoeffs : list Qc)
  : list Qc :=
  for_loop 0 windowSize
    (fun i coefficients =>
       let k := (Z.of_nat i - Z.of_nat halfWindow)%Z in
       let coeff :=
         for_loop 0 (polyOrder + 1)
           (fun j coeff => coeff + nth j polyCoeffs 0 * pow k j) 0 in
       <[i := coeff]> coefficients)
    (repeat (0 : Qc) windowSize).

Definition calculateCoefficients (windowSize polyOrder : nat) : Result (list Qc) :=
  let halfWindow := (windowSize / 2)%nat in
  bind (gaussElimination (normalMatrix halfWindow polyOrder) (rightHandSide polyOrder))
    (fun polyCoeffs => Ok (taps windowSize halfWindow polyOrder polyCoeffs)).

(** [true] when the checks of the constructor and of [setParameters]
    throw. *)
Definition rejects (windowSize polyOrder : nat) : bool :=
  (Nat.eqb windowSize 0 || Nat.eqb (windowSize mod 2) 0)
  || Nat.leb windowSize polyOrder.

Definition new (windowSize polyOrder : nat) : Result t :=
  if rejects windowSize polyOrder then InvalidConfiguration
  else bind (calculateCoefficients windowSize polyOrder) (fun c =>
       Ok {| windowSize_ := windowSize; polyOrder_ := polyOrder; coefficients_ := c |}).

(** The fields are assigned before [calculateCoefficients] runs; the
    model keeps no object when that call throws. *)
Definition setParameters (f : t) (windowSize polyOrder : nat) : Result t :=
  if rejects windowSize polyOrder then InvalidConfiguration
  else bind (calculateCoefficients windowSize polyOrder) (fun c =>
       Ok {| windowSize_ := windowSize; polyOrder_ := polyOrder; coefficients_ := c |}).

(** The subscript that [getReflectedValue] applies to [input]. *)
Definition reflectedIndex (size : nat) (index : Z) : Z :=
  if (index <? 0)%Z then (- index)%Z
  else if (Z.of_nat size <=? index)%Z
  then
    let reflectedIndex := (2 * Z.of_nat size - 2 - index)%Z in
    if (reflectedIndex <? 0)%Z then 0%Z else reflectedIndex
  else index.

(** The read [input[...]] of [getReflectedValue]: no branch yields a
    negative subscript, and a subscript at or past the size is a read past
    the end of the vector. *)
Definition getReflectedValue (input : Signal) (index : Z) : Result Qc :=
  let subscript := reflectedIndex (length input) index in
  if (subscript <? Z.of_nat (length input))%Z
  then Ok (nth (Z.to_nat subscript) input 0)
  else OutOfBounds.

Definition applyFilter (f : t) (input : Signal) (centerIndex : nat) : Result Qc :=
  let halfWindow := (windowSize_ f / 2)%nat in
  for_loop 0 (windowSize_ f)
    (fun i r =>
       bind r (fun result =>
       let signalIndex := (Z.of_nat centerIndex - Z.of_nat halfWindow + Z.of_nat i)%Z in
       bind (getReflectedValue input signalIndex) (fun value =>
       Ok (result + nth i (coefficients_ f) 0 * value))))
    (Ok 0).

(** The subscripts of [input] that [applyFilter] reads at [centerIndex]. *)
Definition readIndices (f : t) (size centerIndex : nat) : list Z :=
  let halfWindow := (windowSize_ f / 2)%nat in
  map (fun i => reflectedIndex size
                  (Z.of_nat centerIndex - Z.of_nat halfWindow + Z.of_nat i)%Z)
      (seq 0 (windowSize_ f)).

Definition process (f : t) (input : Signal) : Result Signal :=
  match input with
  | [] => Ok []
  | _ => for_loop 0 (length input)
           (fun i r =>
              bind r (fun output =>
              bind (applyFilter f input i) (fun value => Ok (output ++ [value]))))
           (Ok [])
  end.

End SavgolFilter.

(** ** signal_processor.h: the abstract base class

    [SignalProcessor::process] is virtual; a filter object is one of the
    five derived classes and the call dispatches on it.  The call returns
    the object after the call (only the adaptive filter changes) and the
    output signal, or the exception it throws. *)

Module SignalProcessor.

Inductive t : Type :=
| Median (f : MedianFilter.t)
| Wiener (f : WienerFilter.t)
| Morphological (f : MorphologicalFilter.t)
| Outlier (f : OutlierDetection.t)
| Savgol (f : SavgolFilter.t).

Definition process `{CLib} (p : t) (input : Signal) : Result (t * Signal) :=
  match p with
  | Median f => Ok (p, MedianFilter.process f input)
  | Wiener f =>
    let '(f', output) := WienerFilter.process f input in Ok (Wiener f', output)
  | Morphological f =>
    bind (MorphologicalFilter.process f input) (fun output => Ok (p, output))
  | Outlier f => Ok (p, OutlierDetection.process f input)
  | Savgol f => bind (SavgolFilter.process f input) (fun output => Ok (p, output))
  end.

(** The objects that a constructor can have built: the structuring
    element of a morphological filter is never empty. *)
Definition constructed (p : t) : Prop :=
  match p with
  | Morphological f => MorphologicalFilter.structuringElement_ f <> []
  | _ => True
  end.

End SignalProcessor.

(** ** signal_generator.cpp: the pulses that call no library function

    The other pulses and the periodic signals go through [exp], [sin],
    [cos] and [fmod], and the noise through the random engine: they are
    not embedded. *)

Module SignalGenerator.

Definition generateRectangularPulse (length : nat) (amplitude : Qc) : Signal :=
  repeat amplitude length.

(** The rising half, then the falling half. *)
Definition generateTriangularPulse (length : nat) (amplitude : Qc) : Signal :=
  let halfLength := (length / 2)%nat in
  let pulse :=
    for_loop 0 halfLength
      (fun i pulse => pulse ++ [amplitude * of_nat i / of_nat halfLength]) [] in
  for_loop halfLength length
    (fun i pulse =>
       pulse ++ [amplitude * of_nat (length - 1 - i) / of_nat (length - halfLength)])
    pulse.

End SignalGenerator.

(** ** savgol_filter.cpp on IEEE doubles

    The Savitzky-Golay computation once more, on the binary64 numbers of
    the machine: every operation rounds to nearest, as the source's do.
    [std::pow] of an integer base and exponent is taken as the correctly
    rounded power, and an integer converts to the nearest double. *)

Module Double.

Import Floats.PrimFloat Floats.SpecFloat Floats.FloatOps.
Local Open Scope float_scope.

Record t : Type := {
  windowSize_ : nat;
  polyOrder_ : nat;
  coefficients_ : list float
}.

(** The double nearest to an integer. *)
Definition of_Z (z : Z) : float :=
  SF2Prim (binary_normalize prec emax z 0 false).

(** The literal [1e-12]. *)
Definition pivot_epsilon : float := of_Z 1 / of_Z (10 ^ 12).

Definition mget (m : list (list float)) (r c : nat) : float := nth c (nth r m []) 0.
Definition mset (m : list (list float)) (r c : nat) (v : float) : list (list float) :=
  <[r := <[c := v]> (nth r m [])]> m.

Definition findMaxRow (n : nat) (matrix : list (list float)) (i : nat) : nat :=
  for_loop (i + 1) n
    (fun k maxRow =>
       if abs (mget matrix maxRow i) <? abs (mget matrix k i) then k else maxRow)
    i.

Definition eliminate (n : nat) (i : nat) (st : list (list float) * list float)
  : list (list float) * list float :=
  for_loop (i + 1) n
    (fun k '(matrix, rhs) =>
       let factor := mget matrix k i / mget matrix i i in
       let matrix :=
         for_loop i n
           (fun j m => mset m k j (mget m k j - factor * mget m i j)) matrix in
       (matrix, <[k := nth k rhs 0 - factor * nth i rhs 0]> rhs))
    st.

Definition forwardStep (n : nat) (i : nat) (st : list (list float) * list float)
  : Result (list (list float) * list float) :=
  let '(matrix, rhs) := st in
  let maxRow := findMaxRow n matrix i in
  let '(matrix, rhs) :=
    if negb (Nat.eqb maxRow i)
    then (SavgolFilter.swap [] matrix i maxRow, SavgolFilter.swap 0 rhs i maxRow)
    else (matrix, rhs) in
  if abs (mget matrix i i) <? pivot_epsilon then NumericalError
  else Ok (eliminate n i (matrix, rhs)).

Definition forwardPass (n : nat) (st : list (list float) * list float)
  : Result (list (list float) * list float) :=
  for_loop 0 n (fun i r => bind r (forwardStep n i)) (Ok st).

Definition backSubstitute (n : nat) (matrix : list (list float)) (rhs : list float)
  : list float :=
  for_rev 0 n
    (fun i solution =>
       let solution := <[i := nth i rhs 0]> solution in
       let solution :=
         for_loop (i + 1) n
           (fun j s => <[i := nth i s 0 - mget matrix i j * nth j s 0]> s) solution in
       <[i := nth i solution 0 / mget matrix i i]> solution)
    (repeat 0 n).

Definition gaussElimination (matrix : list (list float)) (rhs : list float)
  : Result (list float) :=
  let n := length matrix in
  bind (forwardPass n (matrix, rhs)) (fun '(matrix, rhs) =>
  Ok (backSubstitute n matrix rhs)).

Definition pow (k : Z) (e : nat) : float := of_Z (k ^ Z.of_nat e).

Definition normalMatrix (halfWindow polyOrder : nat) : list (list float) :=
  for_loop 0 (polyOrder + 1)
    (fun i m =>
       for_loop 0 (polyOrder + 1)
         (fun j m =>
            let sum :=
              for_int (- Z.of_nat halfWindow) (Z.of_nat halfWindow)
                (fun k sum => sum + pow k (i + j)) 0 in
            mset m i j sum)
         m)
    (repeat (repeat 0 (polyOrder + 1)) (polyOrder + 1)).

Definition rightHandSide (polyOrder : nat) : list float :=
  let rhs := <[0%nat := 1]> (repeat 0 (polyOrder + 1)) in
  for_loop 1 (polyOrder + 1) (fun i rhs => <[i := 0]> rhs) rhs.

Definition taps (windowSize halfWindow polyOrder : nat) (polyCoeffs : list float)
  : list float :=
  for_loop 0 windowSize
    (fun i coefficients =>
       let k := (Z.of_nat i - Z.of_nat halfWindow)%Z in
       let coeff :=
         for_loop 0 (polyOrder + 1)
           (fun j coeff => coeff + nth j polyCoeffs 0 * pow k j) 0 in
       <[i := coeff]> coefficients)
    (repeat 0 windowSize).

Definition calculateCoefficients (windowSize polyOrder : nat) : Result (list float) :=
  let halfWindow := (windowSize / 2)%nat in
  bind (gaussElimination (normalMatrix halfWindow polyOrder) (rightHandSide polyOrder))
    (fun polyCoeffs => Ok (taps windowSize halfWindow polyOrder polyCoeffs)).

Definition new (windowSize polyOrder : nat) : Result t :=
  if SavgolFilter.rejects windowSize polyOrder then InvalidConfiguration
  else bind (calculateCoefficients windowSize polyOrder) (fun c =>
       Ok {| windowSize_ := windowSize; polyOrder_ := polyOrder; coefficients_ := c |}).

Definition getReflectedValue (input : list float) (index : Z) : Result float :=
  let subscript := SavgolFilter.reflectedIndex (length input) index in
  if (subscript <? Z.of_nat (length input))%Z
  then Ok (nth (Z.to_nat subscript) input 0)
  else OutOfBounds.

Definition applyFilter (f : t) (input : list float) (centerIndex : nat) : Result float :=
  let halfWindow := (windowSize_ f / 2)%nat in
  for_loop 0 (windowSize_ f)
    (fun i r =>
       bind r (fun result =>
       let signalIndex := (Z.of_nat centerIndex - Z.of_nat halfWindow + Z.of_nat i)%Z in
       bind (getReflectedValue input signalIndex) (fun value =>
       Ok (result + nth i (coefficients_ f) 0 * value))))
    (Ok 0).

Definition process (f : t) (input : list float) : Result (list float) :=
  match input with
  | [] => Ok []
  | _ => for_loop 0 (length input)
           (fun i r =>
              bind r (fun output =>
              bind (applyFilter f input i) (fun value => Ok (output ++ [value]))))
           (Ok [])
  end.

End Double.

(** * Vocabulary of the statements *)

(** ** Signals and objects to run the code on *)

(** An instance of the C library to run the code on: the generator is a
    linear congruential one, the square root is exact to six decimals and
    the logarithm is a coarse one (the integer binary logarithm, scaled). *)
#[local] Instance lcg : CLib := {|
  sqrt := fun x =>
    Q2Qc (Z.sqrt (Qnum (this x) * 1000000000000 / Z.pos (Qden (this x))) # 1000000);
  log10 := fun x =>
    Q2Qc ((Z.log2 (Qnum (this x) * 1048576 / Z.pos (Qden (this x))) - 20) * 30103
          # 100000);
  rng := Z;
  rand := fun s => let s' := ((s * 1103515245 + 12345) mod 2147483648)%Z in (s', s');
  RAND_MAX := 2147483647
|}.

(** The signals and the objects of the examples. *)
Definition spike5 : Signal := map qz [1; 2; 100; 2; 1]%Z.

Definition spike7 : Signal := map qz [0; 0; 0; 10; 0; 0; 0]%Z.

Definition ramp3 : Signal := map qz [1; 3; 2]%Z.

Definition parabola : Signal := map (fun t => of_nat (t * t + 1)) (seq 0 8).

Definition detector35 : OutlierDetection.t :=
  {| OutlierDetection.detectionMethod_ := OutlierDetection.MAD_BASED;
     OutlierDetection.interpolationMethod_ := OutlierDetection.LINEAR;
     OutlierDetection.threshold_ := qz 3;
     OutlierDetection.windowSize_ := 5;
     OutlierDetection.arOrder_ := 5 |}.

Definition wiener2 : WienerFilter.t :=
  {| WienerFilter.filterOrder_ := 2;
     WienerFilter.mu_ := qfrac 1 100;
     WienerFilter.lambda_ := qfrac 99 100;
     WienerFilter.weights_ := [qfrac 1 10; qfrac (-1) 20] |}.

Definition opening3 : MorphologicalFilter.t :=
  {| MorphologicalFilter.operation_ := MorphologicalFilter.OPENING;
     MorphologicalFilter.structuringElement_ := repeat (0 : Qc) 3 |}.

(** ** Finite samples and windows *)

(** The samples are finite doubles. *)
Definition finite (x : Signal) : Prop :=
  forall k, (k < length x)%nat -> DBL_LOWEST ≤ nth k x 0 /\ nth k x 0 ≤ DBL_MAX.

Definition finiteb (x : Signal) : bool :=
  forallb (fun v => leb DBL_LOWEST v && leb v DBL_MAX) x.

(** [k] is one of the positions that the element of size [m], centred on
    [i], covers in a signal of [n] samples. *)
Definition covers (m n i k : nat) : Prop :=
  (k < n)%nat /\ (i <= k + m / 2)%nat /\ (k + m / 2 < i + m)%nat.

(** ** Sums, systems of equations and polynomials *)

(** [g 0 + g 1 + ... + g (n - 1)], in the order in which the loops of
    the source accumulate. *)
Fixpoint sum_upto (n : nat) (g : nat -> Qc) : Qc :=
  match n with
  | O => 0
  | S k => sum_upto k g + g k
  end.

(** [n] rows of [n] entries. *)
Definition square (n : nat) (m : SavgolFilter.Matrix) : Prop :=
  length m = n /\ forall r, (r < n)%nat -> length (nth r m []) = n.

(** Row [r] of [m] times the vector [s]. *)
Definition row_dot (n : nat) (m : SavgolFilter.Matrix) (r : nat) (s : list Qc) : Qc :=
  sum_upto n (fun c => SavgolFilter.mget m r c * nth c s 0).

(** [s] solves the system [m s = rhs]. *)
Definition solves (n : nat) (m : SavgolFilter.Matrix) (rhs s : list Qc) : Prop :=
  forall r, (r < n)%nat -> row_dot n m r s = nth r rhs 0.

(** The entries left of column [i] and below the diagonal are zero. *)
Definition zeros_below (n i : nat) (m : SavgolFilter.Matrix) : Prop :=
  forall r c, (r < n)%nat -> (c < i)%nat -> (c < r)%nat -> SavgolFilter.mget m r c = 0.

(** The first [i] diagonal entries are not zero. *)
Definition pivots (i : nat) (m : SavgolFilter.Matrix) : Prop :=
  forall r, (r < i)%nat -> SavgolFilter.mget m r r <> 0.

(** What the forward pass keeps before it treats column [i]: the system
    at hand is square, every solution of it solves the system [a s = b]
    it started from, the columns left of [i] are cleared below the
    diagonal and the pivots met so far are not zero. *)
Definition forward_inv (n : nat) (a : SavgolFilter.Matrix) (b : list Qc) (i : nat)
    (st : list (list Qc) * list Qc) : Prop :=
  square n (fst st) /\ length (snd st) = n
  /\ (forall s, solves n (fst st) (snd st) s -> solves n a b s)
  /\ zeros_below n i (fst st) /\ pivots i (fst st).

(** The sum of the powers [k^e] over the offsets of the window. *)
Definition moment (halfWindow e : nat) : Qc :=
  sum_upto (2 * halfWindow + 1)
    (fun w => SavgolFilter.pow (Z.of_nat w - Z.of_nat halfWindow) e).

(** The value at [t] of the polynomial with the coefficients [a], lowest
    degree first. *)
Definition polyEval (a : list Qc) (t : Qc) : Qc :=
  sum_upto (length a) (fun e => nth e a 0 * t ^ e).

(** ** Ranges, counts, searches and further examples *)

(** The convolution that [applyFilter] accumulates at [centerIndex] when
    every read is inside the signal. *)
Definition convolution (f : SavgolFilter.t) (input : Signal) (centerIndex : nat) : Qc :=
  sum_upto (SavgolFilter.windowSize_ f)
    (fun w => nth w (SavgolFilter.coefficients_ f) 0
              * nth (Z.to_nat
                       (SavgolFilter.reflectedIndex (length input)
                          (Z.of_nat centerIndex
                           - Z.of_nat (SavgolFilter.windowSize_ f / 2) + Z.of_nat w)%Z))
                    input 0).

(** The inputs on which every read of the virtual call is inside the
    signal: for the Savitzky-Golay filter, the empty signal and the
    signals longer than half the window. *)
Definition reads_inside (p : SignalProcessor.t) (input : Signal) : Prop :=
  match p with
  | SignalProcessor.Savgol f =>
    input = [] \/ (SavgolFilter.windowSize_ f / 2 < length input)%nat
  | _ => True
  end.

(** The ranges that the messages of the constructors name, read on the
    doubles: a NaN is in no range, and positive infinity is positive. *)
Definition in_open_unit (x : double) : Prop :=
  match x with Finite q => 0 < q /\ q < 1 | _ => False end.

Definition in_half_open_unit (x : double) : Prop :=
  match x with Finite q => 0 < q /\ q ≤ 1 | _ => False end.

Definition is_positive (x : double) : Prop :=
  match x with Finite q => 0 < q | PosInf => True | _ => False end.

(** The call does not end in an exception. *)
Definition no_throw {A : Type} (r : Result A) : Prop :=
  r <> InvalidConfiguration /\ r <> NumericalError.

(** Every sample of [x] lies in [[lo, hi]]. *)
Definition within (lo hi : Qc) (x : Signal) : Prop :=
  forall v, In v x -> lo ≤ v /\ v ≤ hi.

(** The samples of [x] do not decrease. *)
Definition ascending (x : Signal) : Prop :=
  forall i j, (i <= j)%nat -> (j < length x)%nat -> nth i x 0 ≤ nth j x 0.

(** The number of samples of [x] that equal [c]. *)
Definition count (c : Qc) (x : Signal) : nat :=
  length (List.filter (fun v => eqb v c) x).

(** [leftIdx] is what a search to the left of [index] has to return:
    the nearest index that is not flagged, or [-1] when all are. *)
Definition nearest_left (outliers : list bool) (index : nat) (leftIdx : Z) : Prop :=
  (leftIdx = (-1)%Z /\ forall k, (k < index)%nat -> nth k outliers false = true)
  \/ exists k,
       leftIdx = Z.of_nat k /\ (k < index)%nat /\ nth k outliers false = false
       /\ forall m, (k < m < index)%nat -> nth m outliers false = true.

(** The same to the right of [index], below the size of the mask. *)
Definition nearest_right (outliers : list bool) (index : nat) (rightIdx : Z) : Prop :=
  (rightIdx = (-1)%Z
   /\ forall k, (index < k < length outliers)%nat -> nth k outliers false = true)
  \/ exists k,
       rightIdx = Z.of_nat k /\ (index < k < length outliers)%nat
       /\ nth k outliers false = false
       /\ forall m, (index < m < k)%nat -> nth m outliers false = true.

(** The samples of [x], read by position, lie in [[lo, hi]]. *)
Definition bounded (lo hi : Qc) (x : Signal) : Prop :=
  forall j, (j < length x)%nat -> lo ≤ nth j x 0 /\ nth j x 0 ≤ hi.

(** A ramp with one spike, which the MAD-based detector flags. *)
Definition ramp_spike : Signal := map qz [0; 1; 2; 30; 4; 5; 6]%Z.

(** The filter of window 3 and order 1: the average of three samples. *)
Definition average3 : SavgolFilter.t :=
  {| SavgolFilter.windowSize_ := 3; SavgolFilter.polyOrder_ := 1;
     SavgolFilter.coefficients_ := [qfrac 1 3; qfrac 1 3; qfrac 1 3] |}.

(** Two equations in two unknowns and their solution. *)
Definition system2 : SavgolFilter.Matrix := [[qz 2; qz 1]; [qz 1; qz 3]].
Definition rhs2 : list Qc := [qz 3; qz 5].
Definition solution2 : list Qc := [qfrac 4 5; qfrac 7 5].

(** The smallest positive normal double. *)
Definition DBL_MIN : Qc := qfrac 1 (2 ^ 1022).

(** The samples whose double is a finite double as well: the sum of two
    of them does not overflow. *)
Definition half_range (c : Qc) : Prop :=
  - DBL_MAX / qz 2 ≤ c /\ c ≤ DBL_MAX / qz 2.

(** Two signals whose samples are, place by place, equal or far enough
    apart for the square of their difference not to underflow. *)
Definition apart (x y : Signal) : Prop :=
  forall i, (i < length x)%nat ->
    nth i x 0 = nth i y 0 \/ qfrac 1 (2 ^ 500) ≤ Qcabs (nth i x 0 - nth i y 0).

(** The mean of the samples and the sum of the squared distances from
    it, as [calculateCorrelation] accumulates them. *)
Definition mean (x : Signal) : Qc := accumulate x / of_nat (length x).

Definition spread (x : Signal) : Qc :=
  sum_upto (length x) (fun i => (nth i x 0 - mean x) * (nth i x 0 - mean x)).

(** A constant background with one spike. *)
Definition flat_spike : Signal := map qz [1; 1; 50; 1; 1]%Z.

(** * Properties *)

(** ** Loops *)

Lemma for_loop_empty {S : Type} (lo hi : nat) (body : nat -> S -> S) (s : S) :
  (hi <= lo)%nat -> for_loop lo hi body s = s.
Proof.
  intros Hle. unfold for_loop, for_each.
  replace (hi - lo)%nat with 0%nat by lia. reflexivity.
Qed.

Lemma for_loop_last {S : Type} (lo hi : nat) (body : nat -> S -> S) (s : S) :
  (lo <= hi)%nat ->
  for_loop lo (Datatypes.S hi) body s = body hi (for_loop lo hi body s).
Proof.
  intros Hle. unfold for_loop, for_each.
  replace (Datatypes.S hi - lo)%nat with (Datatypes.S (hi - lo)) by lia.
  rewrite seq_S, fold_left_app. simpl.
  replace (lo + (hi - lo))%nat with hi by lia. reflexivity.
Qed.

(** The invariant rule: [P] holds before the loop and every iteration
    carries it from [i] to [i + 1]. *)
Lemma for_loop_inv {S : Type} (P : nat -> S -> Prop) (lo hi : nat)
    (body : nat -> S -> S) (s : S) :
  (lo <= hi)%nat ->
  P lo s ->
  (forall i acc, (lo <= i < hi)%nat -> P i acc -> P (Datatypes.S i) (body i acc)) ->
  P hi (for_loop lo hi body s).
Proof.
  intros Hle H0 Hstep. induction hi as [|hi IH].
  - assert (lo = 0%nat) by lia. subst. rewrite for_loop_empty by lia. exact H0.
  - destruct (decide (lo = Datatypes.S hi)) as [->|Hne].
    + rewrite for_loop_empty by lia. exact H0.
    + rewrite for_loop_last by lia. apply Hstep; [lia|].
      apply IH; [lia|]. intros i acc Hi. apply Hstep. lia.
Qed.

(** A loop that only pushes one value per index builds the list of these
    values. *)
Lemma for_loop_push {A : Type} (lo hi : nat) (g : nat -> A) (acc : list A) :
  for_loop lo hi (fun i out => out ++ [g i]) acc = acc ++ map g (seq lo (hi - lo)).
Proof.
  unfold for_loop, for_each. generalize (hi - lo)%nat as k. intros k.
  revert lo acc. induction k as [|k IH]; intros lo acc; simpl.
  - symmetry. apply app_nil_r.
  - rewrite IH, <- app_assoc. reflexivity.
Qed.

Lemma for_loop_push_length {A : Type} (lo hi : nat) (g : nat -> A) (acc : list A) :
  length (for_loop lo hi (fun i out => out ++ [g i]) acc)
  = (length acc + (hi - lo))%nat.
Proof. rewrite for_loop_push, length_app, length_map, length_seq. reflexivity. Qed.

Lemma for_loop_push_nth {A : Type} (hi : nat) (g : nat -> A) (d : A) (i : nat) :
  (i < hi)%nat ->
  nth i (for_loop 0 hi (fun i out => out ++ [g i]) []) d = g i.
Proof.
  intros Hi. rewrite for_loop_push. simpl. rewrite Nat.sub_0_r.
  rewrite (nth_indep _ d (g 0%nat)) by (rewrite length_map, length_seq; lia).
  rewrite map_nth, seq_nth by lia. reflexivity.
Qed.

(** A loop whose iterations keep the length of a list keeps it. *)
Lemma for_loop_length {A : Type} (lo hi : nat) (body : nat -> list A -> list A)
    (l : list A) :
  (forall i acc, length (body i acc) = length acc) ->
  length (for_loop lo hi body l) = length l.
Proof.
  intros Hbody. unfold for_loop, for_each.
  generalize (seq lo (hi - lo)) as idxs. intros idxs. revert l.
  induction idxs as [|i idxs IH]; intros l; simpl; [reflexivity|].
  rewrite IH. apply Hbody.
Qed.

Lemma for_rev_first {S : Type} (lo hi : nat) (body : nat -> S -> S) (s : S) :
  (lo <= hi)%nat ->
  for_rev lo (Datatypes.S hi) body s = for_rev lo hi body (body hi s).
Proof.
  intros Hle. unfold for_rev, for_each.
  replace (Datatypes.S hi - lo)%nat with (Datatypes.S (hi - lo)) by lia.
  rewrite seq_S, rev_app_distr. simpl.
  replace (lo + (hi - lo))%nat with hi by lia. reflexivity.
Qed.

Lemma for_rev_empty {S : Type} (lo hi : nat) (body : nat -> S -> S) (s : S) :
  (hi <= lo)%nat -> for_rev lo hi body s = s.
Proof.
  intros Hle. unfold for_rev, for_each.
  replace (hi - lo)%nat with 0%nat by lia. reflexivity.
Qed.

(** The invariant rule for a loop that counts down: [P] holds at [hi]
    and every iteration carries it from [i + 1] to [i]. *)
Lemma for_rev_inv {S : Type} (P : nat -> S -> Prop) (lo hi : nat)
    (body : nat -> S -> S) (s : S) :
  (lo <= hi)%nat ->
  P hi s ->
  (forall i acc, (lo <= i < hi)%nat -> P (Datatypes.S i) acc -> P i (body i acc)) ->
  P lo (for_rev lo hi body s).
Proof.
  intros Hle. revert s. induction hi as [|hi IH]; intros s H0 Hstep.
  - assert (lo = 0%nat) by lia. subst. rewrite for_rev_empty by lia. exact H0.
  - destruct (decide (lo = Datatypes.S hi)) as [->|Hne].
    + rewrite for_rev_empty by lia. exact H0.
    + rewrite for_rev_first by lia. apply IH; [lia| |].
      * apply Hstep; [lia|exact H0].
      * intros i acc Hi. apply Hstep. lia.
Qed.

(** A loop whose iteration [i] rewrites entry [i] alone, as a function
    of the entry it finds there. *)
Lemma for_loop_pointwise {A : Type} (d : A) (n : nat)
    (body : nat -> list A -> list A) (h : nat -> A -> A) (l0 : list A) :
  (forall i l, length (body i l) = length l) ->
  (forall i l j, j <> i -> nth j (body i l) d = nth j l d) ->
  (forall i l, (i < length l)%nat -> nth i (body i l) d = h i (nth i l d)) ->
  (n <= length l0)%nat ->
  forall j, (j < n)%nat -> nth j (for_loop 0 n body l0) d = h j (nth j l0 d).
Proof.
  intros Hlen Hother Hself Hn.
  assert (Hinv : length (for_loop 0 n body l0) = length l0
                 /\ forall j, nth j (for_loop 0 n body l0) d
                              = if (j <? n)%nat then h j (nth j l0 d) else nth j l0 d).
  { apply (for_loop_inv
             (fun k l => length l = length l0
                         /\ forall j, nth j l d
                                      = if (j <? k)%nat then h j (nth j l0 d)
                                        else nth j l0 d)); [lia| |].
    - split; [reflexivity|]. intros j. reflexivity.
    - intros i acc Hi [Hl Hnth]. split; [rewrite Hlen; exact Hl|].
      intros j. destruct (decide (j = i)) as [->|Hne].
      + rewrite Hself by lia. rewrite Hnth.
        destruct (Nat.ltb_spec i i); [lia|].
        destruct (Nat.ltb_spec i (Datatypes.S i)); [reflexivity|lia].
      + rewrite Hother by exact Hne. rewrite Hnth.
        destruct (Nat.ltb_spec j i), (Nat.ltb_spec j (Datatypes.S i));
          try reflexivity; lia. }
  intros j Hj. destruct Hinv as [_ Hnth]. rewrite Hnth.
  destruct (Nat.ltb_spec j n); [reflexivity|lia].
Qed.

(** Reading a list after one entry was stored. *)
Lemma nth_insert {A : Type} (d : A) (l : list A) (i j : nat) (x : A) :
  nth j (<[i := x]> l) d
  = if decide (j = i /\ (i < length l)%nat) then x else nth j l d.
Proof.
  rewrite !nth_lookup, list_lookup_insert.
  destruct (decide (i = j /\ (i < length l)%nat)) as [[H1 H2]|Hn].
  - subst j. destruct (decide (i = i /\ (i < length l)%nat)) as [_|Hn]; [reflexivity|].
    exfalso. apply Hn. split; [reflexivity|assumption].
  - destruct (decide (j = i /\ (i < length l)%nat)) as [[H3 H4]|_]; [|reflexivity].
    exfalso. apply Hn. subst j. split; [reflexivity|assumption].
Qed.

Lemma nth_insert_eq {A : Type} (d : A) (l : list A) (i : nat) (x : A) :
  (i < length l)%nat -> nth i (<[i := x]> l) d = x.
Proof.
  intros Hi. rewrite nth_insert.
  destruct (decide (i = i /\ (i < length l)%nat)) as [_|Hn]; [reflexivity|].
  exfalso. apply Hn. split; [reflexivity|exact Hi].
Qed.

Lemma nth_insert_ne {A : Type} (d : A) (l : list A) (i j : nat) (x : A) :
  j <> i -> nth j (<[i := x]> l) d = nth j l d.
Proof.
  intros Hne. rewrite nth_insert.
  destruct (decide (j = i /\ (i < length l)%nat)) as [[Heq _]|_]; [contradiction|reflexivity].
Qed.

(** ** Finite sums *)

Lemma for_loop_sum_from (lo hi : nat) (g : nat -> Qc) (acc : Qc) :
  for_loop lo hi (fun i acc => acc + g i) acc
  = acc + sum_upto (hi - lo) (fun t => g (lo + t)%nat).
Proof.
  destruct (Nat.le_gt_cases lo hi) as [Hle|Hgt].
  - induction hi as [|hi IH].
    + rewrite for_loop_empty by lia. simpl. ring.
    + destruct (decide (lo = S hi)) as [->|Hne].
      * rewrite for_loop_empty by lia. rewrite Nat.sub_diag. simpl. ring.
      * rewrite for_loop_last by lia. rewrite IH by lia.
        replace (S hi - lo)%nat with (S (hi - lo)) by lia. simpl.
        replace (lo + (hi - lo))%nat with hi by lia. ring.
  - rewrite for_loop_empty by lia. replace (hi - lo)%nat with 0%nat by lia. simpl. ring.
Qed.

Lemma for_loop_sum (n : nat) (g : nat -> Qc) :
  for_loop 0 n (fun i acc => acc + g i) 0 = sum_upto n g.
Proof.
  rewrite for_loop_sum_from, Nat.sub_0_r. simpl.
  rewrite Qcplus_0_l. reflexivity.
Qed.

Lemma sum_upto_ext (n : nat) (g h : nat -> Qc) :
  (forall i, (i < n)%nat -> g i = h i) -> sum_upto n g = sum_upto n h.
Proof.
  induction n as [|n IH]; intros Hext; simpl; [reflexivity|].
  rewrite IH by (intros i Hi; apply Hext; lia). rewrite Hext by lia. reflexivity.
Qed.

Lemma sum_upto_zero (n : nat) (g : nat -> Qc) :
  (forall i, (i < n)%nat -> g i = 0) -> sum_upto n g = 0.
Proof.
  induction n as [|n IH]; intros Hz; simpl; [reflexivity|].
  rewrite IH by (intros i Hi; apply Hz; lia). rewrite Hz by lia. ring.
Qed.

Lemma sum_upto_plus (n : nat) (g h : nat -> Qc) :
  sum_upto n (fun i => g i + h i) = sum_upto n g + sum_upto n h.
Proof. induction n as [|n IH]; simpl; [ring|]. rewrite IH. ring. Qed.

Lemma sum_upto_scale (n : nat) (c : Qc) (g : nat -> Qc) :
  sum_upto n (fun i => c * g i) = c * sum_upto n g.
Proof. induction n as [|n IH]; simpl; [ring|]. rewrite IH. ring. Qed.

Lemma sum_upto_sub_scale (n : nat) (k : Qc) (g h : nat -> Qc) :
  sum_upto n (fun i => g i - k * h i) = sum_upto n g - k * sum_upto n h.
Proof. induction n as [|n IH]; simpl; [ring|]. rewrite IH. ring. Qed.

Lemma sum_upto_swap (n m : nat) (g : nat -> nat -> Qc) :
  sum_upto n (fun i => sum_upto m (fun j => g i j))
  = sum_upto m (fun j => sum_upto n (fun i => g i j)).
Proof.
  induction n as [|n IH]; simpl.
  - symmetry. apply sum_upto_zero. reflexivity.
  - rewrite IH, <- sum_upto_plus. reflexivity.
Qed.

Lemma sum_upto_split (n k : nat) (g : nat -> Qc) :
  (k <= n)%nat ->
  sum_upto n g = sum_upto k g + sum_upto (n - k) (fun t => g (k + t)%nat).
Proof.
  intros Hk. induction n as [|n IH].
  - replace k with 0%nat by lia. simpl. ring.
  - destruct (decide (k = S n)) as [->|Hne].
    + rewrite Nat.sub_diag. simpl. ring.
    + replace (S n - k)%nat with (S (n - k)) by lia. simpl.
      rewrite IH by lia. replace (k + (n - k))%nat with n by lia. ring.
Qed.

Lemma sum_upto_single (n k : nat) (g : nat -> Qc) :
  (k < n)%nat -> (forall i, (i < n)%nat -> i <> k -> g i = 0) -> sum_upto n g = g k.
Proof.
  intros Hk Hz. rewrite (sum_upto_split n k) by lia.
  replace (n - k)%nat with (S (n - k - 1)) by lia.
  rewrite (sum_upto_zero k) by (intros i Hi; apply Hz; lia).
  rewrite (sum_upto_split (S (n - k - 1)) 1) by lia. simpl.
  rewrite (sum_upto_zero (n - k - 1 - 0)) by (intros i Hi; apply Hz; lia).
  replace (k + 0)%nat with k by lia. ring.
Qed.

(** ** The reflected subscripts *)

Lemma reflectedIndex_inside (size : nat) (index : Z) :
  (0 <= index < Z.of_nat size)%Z -> SavgolFilter.reflectedIndex size index = index.
Proof.
  intros Hidx. unfold SavgolFilter.reflectedIndex.
  destruct (Z.ltb_spec index 0); [lia|].
  destruct (Z.leb_spec (Z.of_nat size) index); [lia|reflexivity].
Qed.

(** The reflection at the right end stays inside the signal. *)
Lemma reflectedIndex_right (size : nat) (index : Z) :
  (0 < size)%nat -> (Z.of_nat size <= index)%Z ->
  (0 <= SavgolFilter.reflectedIndex size index < Z.of_nat size)%Z.
Proof.
  intros Hsize Hidx. unfold SavgolFilter.reflectedIndex.
  destruct (Z.ltb_spec index 0); [lia|].
  destruct (Z.leb_spec (Z.of_nat size) index); [|lia].
  destruct (Z.ltb_spec (2 * Z.of_nat size - 2 - index) 0); lia.
Qed.

(** The reflection at the left end is the negated subscript, whatever
    the size. *)
Lemma reflectedIndex_left (size : nat) (index : Z) :
  (index < 0)%Z -> SavgolFilter.reflectedIndex size index = (- index)%Z.
Proof.
  intros Hidx. unfold SavgolFilter.reflectedIndex.
  destruct (Z.ltb_spec index 0); [reflexivity|lia].
Qed.

Lemma reflectedIndex_in_bounds (size : nat) (index : Z) :
  (0 < size)%nat -> (- Z.of_nat size < index)%Z ->
  (0 <= SavgolFilter.reflectedIndex size index < Z.of_nat size)%Z.
Proof.
  intros Hsize Hidx.
  destruct (Z.lt_ge_cases index 0) as [Hneg|Hpos].
  - rewrite reflectedIndex_left by exact Hneg. lia.
  - destruct (Z.lt_ge_cases index (Z.of_nat size)) as [Hin|Hout].
    + rewrite reflectedIndex_inside by lia. lia.
    + apply reflectedIndex_right; lia.
Qed.

(** ** Sorting

    [std_sort] returns the ascending arrangement of its argument; on a
    total order with one representation per value there is only one. *)

Lemma insert_sorted_perm (x : Qc) (l : list Qc) : Permutation (x :: l) (insert_sorted x l).
Proof.
  induction l as [|y l IH]; simpl; [reflexivity|].
  destruct (leb x y); [reflexivity|].
  rewrite perm_swap. apply perm_skip. exact IH.
Qed.

Lemma std_sort_perm (l : list Qc) : Permutation l (std_sort l).
Proof.
  induction l as [|x l IH]; simpl; [reflexivity|].
  rewrite <- insert_sorted_perm. apply perm_skip. exact IH.
Qed.

Lemma insert_sorted_sorted (x : Qc) (l : list Qc) :
  Sorted Qcle l -> Sorted Qcle (insert_sorted x l).
Proof.
  induction l as [|y l IH]; intros Hs; simpl; [repeat constructor|].
  destruct (leb x y) eqn:Hxy.
  - constructor; [exact Hs|]. constructor. apply bool_decide_eq_true in Hxy. exact Hxy.
  - apply bool_decide_eq_false in Hxy. apply Qclt_nge in Hxy.
    inversion Hs as [|? ? Hs' Hhd]; subst.
    constructor; [apply IH; exact Hs'|].
    destruct l as [|z l]; simpl.
    + constructor. apply Qclt_le_weak. exact Hxy.
    + destruct (leb x z); constructor.
      * apply Qclt_le_weak. exact Hxy.
      * inversion Hhd; assumption.
Qed.

Lemma std_sort_sorted (l : list Qc) : Sorted Qcle (std_sort l).
Proof.
  induction l as [|x l IH]; simpl; [constructor|].
  apply insert_sorted_sorted. exact IH.
Qed.

(** ** Output lengths *)

Lemma MedianFilter_process_length (f : MedianFilter.t) (input : Signal) :
  length (MedianFilter.process f input) = length input.
Proof.
  unfold MedianFilter.process. destruct input as [|x input]; [reflexivity|].
  rewrite for_loop_push_length. simpl. lia.
Qed.

Lemma lmsRun_output_length (f : WienerFilter.t) (input : Signal) (n : nat) :
  length (snd (WienerFilter.lmsRun f input n)) = n.
Proof.
  unfold WienerFilter.lmsRun.
  apply (for_loop_inv (fun k st => length (snd st) = k)); [lia|reflexivity|].
  intros i [[w d] out] _ Hout. simpl in *.
  rewrite length_app. simpl. lia.
Qed.

Lemma WienerFilter_process_length (f : WienerFilter.t) (input : Signal) :
  length (snd (WienerFilter.process f input)) = length input.
Proof.
  unfold WienerFilter.process. destruct input as [|x input]; [reflexivity|].
  unfold WienerFilter.processLMS.
  pose proof (lmsRun_output_length f (x :: input) (length (x :: input))) as Hlen.
  destruct (WienerFilter.lmsRun f (x :: input) (length (x :: input))) as [[w d] out].
  exact Hlen.
Qed.

Lemma erosion_length (f : MorphologicalFilter.t) (input : Signal) :
  length (MorphologicalFilter.erosion f input) = length input.
Proof. unfold MorphologicalFilter.erosion. rewrite for_loop_push_length. simpl. lia. Qed.

Lemma dilation_length (f : MorphologicalFilter.t) (input : Signal) :
  length (MorphologicalFilter.dilation f input) = length input.
Proof. unfold MorphologicalFilter.dilation. rewrite for_loop_push_length. simpl. lia. Qed.

Lemma MorphologicalFilter_new_ok (op : MorphologicalFilter.Operation) (se : list Qc) :
  se <> [] ->
  MorphologicalFilter.new op se
  = Ok {| MorphologicalFilter.operation_ := op;
          MorphologicalFilter.structuringElement_ := se |}.
Proof. destruct se; [congruence|reflexivity]. Qed.

Lemma MorphologicalFilter_process_ok (f : MorphologicalFilter.t) (input : Signal) :
  MorphologicalFilter.structuringElement_ f <> [] ->
  exists output,
    MorphologicalFilter.process f input = Ok output
    /\ length output = length input.
Proof.
  intros Hse. unfold MorphologicalFilter.process.
  destruct input as [|x input]; [exists []; split; reflexivity|].
  destruct (MorphologicalFilter.operation_ f).
  - unfold MorphologicalFilter.opening.
    rewrite MorphologicalFilter_new_ok by exact Hse. simpl.
    eexists. split; [reflexivity|]. rewrite dilation_length, erosion_length. reflexivity.
  - unfold MorphologicalFilter.closing.
    rewrite MorphologicalFilter_new_ok by exact Hse. simpl.
    eexists. split; [reflexivity|]. rewrite erosion_length, dilation_length. reflexivity.
  - eexists. split; [reflexivity|]. apply erosion_length.
  - eexists. split; [reflexivity|]. apply dilation_length.
Qed.

Lemma interpolateLinear_length (input : Signal) (outliers : list bool) :
  length (OutlierDetection.interpolateLinear input outliers) = length input.
Proof.
  unfold OutlierDetection.interpolateLinear. apply for_loop_length.
  intros i acc. destruct (nth i outliers false); [|reflexivity].
  destruct (OutlierDetection.findNearestNormalPoints outliers i) as [l r].
  repeat match goal with
         | |- context [if ?b then _ else _] => destruct b
         end; rewrite ?length_insert; reflexivity.
Qed.

Lemma interpolateMedian_length (f : OutlierDetection.t) (input : Signal)
    (outliers : list bool) :
  length (OutlierDetection.interpolateMedian f input outliers) = length input.
Proof.
  unfold OutlierDetection.interpolateMedian. apply for_loop_length.
  intros i acc. destruct (nth i outliers false); [|reflexivity].
  match goal with
  | |- context [match ?l with [] => _ | _ => _ end] => destruct l
  end; rewrite ?length_insert; reflexivity.
Qed.

Lemma interpolateAutoregressive_length (f : OutlierDetection.t) (input : Signal)
    (outliers : list bool) :
  length (OutlierDetection.interpolateAutoregressive f input outliers) = length input.
Proof.
  unfold OutlierDetection.interpolateAutoregressive. apply for_loop_length.
  intros i acc. destruct (nth i outliers false); [|reflexivity].
  match goal with
  | |- context [for_loop ?a ?b ?c ?d] => destruct (for_loop a b c d) as [[s ws] used]
  end.
  destruct (ltb 0 ws); rewrite length_insert; reflexivity.
Qed.

Lemma OutlierDetection_process_length `{CLib} (f : OutlierDetection.t) (input : Signal) :
  length (OutlierDetection.process f input) = length input.
Proof.
  unfold OutlierDetection.process. destruct input as [|x input]; [reflexivity|].
  destruct (OutlierDetection.interpolationMethod_ f);
    auto using interpolateLinear_length, interpolateMedian_length,
               interpolateAutoregressive_length.
Qed.

Lemma for_loop_first {S : Type} (lo hi : nat) (body : nat -> S -> S) (s : S) :
  (lo < hi)%nat -> for_loop lo hi body s = for_loop (Datatypes.S lo) hi body (body lo s).
Proof.
  intros Hlt. unfold for_loop, for_each.
  replace (hi - lo)%nat with (Datatypes.S (hi - Datatypes.S lo)) by lia. reflexivity.
Qed.

(** A loop that threads a [Result] stays at the first outcome that is
    not [Ok]. *)
Lemma for_loop_bind_stuck {A : Type} (lo hi : nat) (k : nat -> A -> Result A)
    (e : Result A) :
  (forall a, e <> Ok a) -> for_loop lo hi (fun i r => bind r (k i)) e = e.
Proof.
  intros He. destruct (Nat.le_gt_cases lo hi) as [Hle|Hgt];
    [|apply for_loop_empty; lia].
  apply (for_loop_inv (fun _ r => r = e)); [exact Hle|reflexivity|].
  intros i acc _ ->. destruct e; try reflexivity. exfalso. apply (He a). reflexivity.
Qed.

Lemma getReflectedValue_inside (input : Signal) (index : Z) :
  (0 < length input)%nat -> (- Z.of_nat (length input) < index)%Z ->
  SavgolFilter.getReflectedValue input index
  = Ok (nth (Z.to_nat (SavgolFilter.reflectedIndex (length input) index)) input 0).
Proof.
  intros Hlen Hidx. unfold SavgolFilter.getReflectedValue. cbv zeta.
  pose proof (reflectedIndex_in_bounds (length input) index Hlen Hidx) as Hb.
  destruct (Z.ltb_spec (SavgolFilter.reflectedIndex (length input) index)
              (Z.of_nat (length input))); [reflexivity|lia].
Qed.

(** When the signal is longer than half the window every read of
    [applyFilter] is inside it and the call returns the convolution. *)
Lemma applyFilter_inside (f : SavgolFilter.t) (input : Signal) (centerIndex : nat) :
  (SavgolFilter.windowSize_ f / 2 < length input)%nat ->
  (centerIndex < length input)%nat ->
  SavgolFilter.applyFilter f input centerIndex = Ok (convolution f input centerIndex).
Proof.
  intros Hhalf Hc. unfold SavgolFilter.applyFilter, convolution. cbv zeta.
  apply (for_loop_inv
           (fun k r =>
              r = Ok (sum_upto k
                        (fun w => nth w (SavgolFilter.coefficients_ f) 0
                                  * nth (Z.to_nat
                                           (SavgolFilter.reflectedIndex (length input)
                                              (Z.of_nat centerIndex
                                               - Z.of_nat (SavgolFilter.windowSize_ f / 2)
                                               + Z.of_nat w)%Z))
                                        input 0))));
    [lia|reflexivity|].
  intros i acc Hi ->. cbn [bind].
  rewrite getReflectedValue_inside by lia. reflexivity.
Qed.

Lemma nth_map_seq0 {A : Type} (g : nat -> A) (n i : nat) (d : A) :
  (i < n)%nat -> nth i (map g (seq 0 n)) d = g i.
Proof.
  intros Hi. rewrite (nth_indep _ d (g 0%nat)) by (rewrite length_map, length_seq; exact Hi).
  rewrite (map_nth g). rewrite seq_nth by exact Hi. reflexivity.
Qed.

Lemma SavgolFilter_process_inside (f : SavgolFilter.t) (input : Signal) :
  (SavgolFilter.windowSize_ f / 2 < length input)%nat ->
  SavgolFilter.process f input
  = Ok (map (convolution f input) (seq 0 (length input))).
Proof.
  intros Hhalf. unfold SavgolFilter.process.
  destruct input as [|x0 xs] eqn:Hinput; [simpl in Hhalf; lia|]. rewrite <- Hinput in *.
  apply (for_loop_inv (fun k r => r = Ok (map (convolution f input) (seq 0 k))));
    [lia|reflexivity|].
  intros i acc Hi ->. cbn [bind]. rewrite applyFilter_inside by lia. cbn [bind].
  rewrite seq_S, map_app. reflexivity.
Qed.

(** On a signal that is not empty and not longer than half the window
    the first read of the first sample is past the end. *)
Lemma SavgolFilter_process_outside (f : SavgolFilter.t) (input : Signal) :
  input <> [] -> (length input <= SavgolFilter.windowSize_ f / 2)%nat ->
  SavgolFilter.process f input = OutOfBounds.
Proof.
  intros Hne Hshort.
  assert (Hlen : (0 < length input)%nat) by (destruct input; [congruence|simpl; lia]).
  assert (HW : (0 < SavgolFilter.windowSize_ f)%nat).
  { destruct (SavgolFilter.windowSize_ f) as [|w]; [simpl in Hshort; lia|lia]. }
  assert (Hfirst : SavgolFilter.applyFilter f input 0 = OutOfBounds).
  { unfold SavgolFilter.applyFilter. cbv zeta. rewrite for_loop_first by exact HW.
    assert (Hread : SavgolFilter.getReflectedValue input
                      (Z.of_nat 0 - Z.of_nat (SavgolFilter.windowSize_ f / 2)
                       + Z.of_nat 0)%Z = OutOfBounds).
    { unfold SavgolFilter.getReflectedValue. cbv zeta.
      rewrite reflectedIndex_left by lia.
      destruct (Z.ltb_spec
                  (- (Z.of_nat 0 - Z.of_nat (SavgolFilter.windowSize_ f / 2)
                      + Z.of_nat 0))%Z (Z.of_nat (length input))); [lia|reflexivity]. }
    cbn [bind]. rewrite Hread. cbn [bind].
    apply for_loop_bind_stuck. discriminate. }
  unfold SavgolFilter.process. destruct input as [|x0 xs] eqn:Hinput; [congruence|].
  rewrite <- Hinput in *. rewrite for_loop_first by exact Hlen.
  cbn [bind]. rewrite Hfirst. cbn [bind].
  apply for_loop_bind_stuck. discriminate.
Qed.

Lemma applyFilter_no_throw (f : SavgolFilter.t) (input : Signal) (centerIndex : nat) :
  no_throw (SavgolFilter.applyFilter f input centerIndex).
Proof.
  unfold SavgolFilter.applyFilter. cbv zeta.
  destruct (Nat.le_gt_cases 0 (SavgolFilter.windowSize_ f)) as [Hle|Hgt]; [|lia].
  apply (for_loop_inv (fun _ r => no_throw r)); [exact Hle|split; discriminate|].
  intros i acc _ Hacc. destruct acc as [result| | | |]; cbn [bind]; try exact Hacc.
  unfold SavgolFilter.getReflectedValue. cbv zeta.
  destruct (_ <? _)%Z; cbn [bind]; split; discriminate.
Qed.

Lemma SavgolFilter_process_no_throw (f : SavgolFilter.t) (input : Signal) :
  no_throw (SavgolFilter.process f input).
Proof.
  unfold SavgolFilter.process. destruct input as [|x0 xs]; [split; discriminate|].
  apply (for_loop_inv (fun _ r => no_throw r)); [lia|split; discriminate|].
  intros i acc _ Hacc. destruct acc as [output| | | |]; cbn [bind]; try exact Hacc.
  pose proof (applyFilter_no_throw f (x0 :: xs) i) as Happ.
  destruct (SavgolFilter.applyFilter f (x0 :: xs) i); cbn [bind];
    try (split; discriminate); exfalso; destruct Happ as [Ha Hb]; congruence.
Qed.

Lemma SavgolFilter_process_length (f : SavgolFilter.t) (input output : Signal) :
  SavgolFilter.process f input = Ok output -> length output = length input.
Proof.
  unfold SavgolFilter.process. destruct input as [|x0 xs].
  { intros Hout. injection Hout as <-. reflexivity. }
  revert output.
  apply (for_loop_inv (fun k r => forall output, r = Ok output -> length output = k));
    [lia|intros output Hout; injection Hout as <-; reflexivity|].
  intros i acc _ Hacc output Hout.
  destruct acc as [out| | | |]; simpl in Hout; try discriminate Hout.
  destruct (SavgolFilter.applyFilter f (x0 :: xs) i); simpl in Hout;
    try discriminate Hout.
  injection Hout as <-. rewrite length_app, (Hacc out eq_refl). simpl. lia.
Qed.

(** The virtual call on an object that a constructor built, on an input
    whose reads are inside the signal, returns a signal as long as its
    input. *)
Lemma SignalProcessor_process_ok `{CLib} (p : SignalProcessor.t) (input : Signal) :
  SignalProcessor.constructed p -> reads_inside p input ->
  exists p' output,
    SignalProcessor.process p input = Ok (p', output)
    /\ length output = length input.
Proof.
  intros Hp Hin. destruct p as [f|f|f|f|f]; simpl.
  - eexists _, _. split; [reflexivity|]. apply MedianFilter_process_length.
  - pose proof (WienerFilter_process_length f input) as Hlen.
    destruct (WienerFilter.process f input) as [f' output].
    eexists _, _. split; [reflexivity|]. exact Hlen.
  - destruct (MorphologicalFilter_process_ok f input Hp) as (output & -> & Hlen).
    simpl. eexists _, _. split; [reflexivity|]. exact Hlen.
  - eexists _, _. split; [reflexivity|]. apply OutlierDetection_process_length.
  - simpl in Hin. destruct Hin as [->|Hhalf].
    + eexists _, _. split; reflexivity.
    + rewrite SavgolFilter_process_inside by exact Hhalf. simpl.
      eexists _, _. split; [reflexivity|]. rewrite length_map, length_seq. reflexivity.
Qed.

(** The virtual call on an object that a constructor built does not end
    in an exception. *)
Lemma SignalProcessor_process_no_throw `{CLib} (p : SignalProcessor.t) (input : Signal) :
  SignalProcessor.constructed p -> no_throw (SignalProcessor.process p input).
Proof.
  intros Hp. destruct p as [f|f|f|f|f]; simpl; try (split; discriminate).
  - destruct (WienerFilter.process f input). split; discriminate.
  - destruct (MorphologicalFilter_process_ok f input Hp) as (output & -> & _).
    simpl. split; discriminate.
  - pose proof (SavgolFilter_process_no_throw f input) as Hsg.
    destruct (SavgolFilter.process f input); cbn [bind];
      try (split; discriminate); exfalso; destruct Hsg as [Ha Hb]; congruence.
Qed.

(** C1. For each of the five filters, on an object that a constructor
    built, [process] returns a signal as long as its input whenever every
    read is inside the signal (always, but for the Savitzky-Golay filter
    on a signal that is not empty and not longer than half the window),
    and on the empty signal it returns the empty signal and leaves the
    object as it was.  On the other inputs the Savitzky-Golay filter
    reads past the end of the signal and returns no signal at all. *)
Theorem C1_process_preserves_length `{CLib} (p : SignalProcessor.t) (input : Signal) :
  SignalProcessor.constructed p ->
  (reads_inside p input ->
   exists p' output,
     SignalProcessor.process p input = Ok (p', output)
     /\ length output = length input)
  /\ SignalProcessor.process p [] = Ok (p, [])
  /\ (~ reads_inside p input -> SignalProcessor.process p input = OutOfBounds)
  /\ (forall p' output,
        SignalProcessor.process p input = Ok (p', output) ->
        length output = length input).
Proof.
  intros Hp. split; [apply SignalProcessor_process_ok; exact Hp|].
  split; [destruct p as [f|f|f|f|f]; reflexivity|]. split.
  - intros Hout. destruct p as [f|f|f|f|f]; simpl in Hout; try (exfalso; exact (Hout I)).
    simpl. rewrite SavgolFilter_process_outside; [reflexivity| |].
    + intros ->. apply Hout. left. reflexivity.
    + destruct (Nat.le_gt_cases (length input) (SavgolFilter.windowSize_ f / 2))
        as [Hle|Hgt]; [exact Hle|]. exfalso. apply Hout. right. exact Hgt.
  - intros p' output Hproc. destruct p as [f|f|f|f|f]; simpl in Hproc.
    + injection Hproc as _ <-. apply MedianFilter_process_length.
    + pose proof (WienerFilter_process_length f input) as Hlen.
      destruct (WienerFilter.process f input) as [f' out]. injection Hproc as _ <-.
      exact Hlen.
    + destruct (MorphologicalFilter_process_ok f input Hp) as (out & Hout & Hlen).
      rewrite Hout in Hproc. simpl in Hproc. injection Hproc as _ <-. exact Hlen.
    + injection Hproc as _ <-. apply OutlierDetection_process_length.
    + destruct (SavgolFilter.process f input) as [out| | | |] eqn:Hsg;
        simpl in Hproc; try discriminate Hproc.
      injection Hproc as _ <-. apply (SavgolFilter_process_length f). exact Hsg.
Qed.

(** ** Evaluation

    Two rationals in canonical form are equal when their fractions are;
    a closed equation between samples or signals is decided by
    evaluating both sides down to the fractions. *)

Lemma Qc_list_decomp (l1 l2 : list Qc) : map this l1 = map this l2 -> l1 = l2.
Proof.
  revert l2. induction l1 as [|x l1 IH]; intros [|y l2] Heq; try discriminate.
  - reflexivity.
  - simpl in Heq. injection Heq as Hx Hl. f_equal; [apply Qc_decomp, Hx|apply IH, Hl].
Qed.

Ltac qc_eval :=
  first [ apply Qc_list_decomp | apply Qc_decomp | idtac ]; vm_compute; reflexivity.

(** ** The median filter on a spike *)

Lemma for_loop_cons_length {A : Type} (n : nat) (x : A) (l : list A) :
  length (for_loop 0 n (fun _ w => x :: w) l) = (n + length l)%nat.
Proof.
  apply (for_loop_inv (fun k w => length w = (k + length l)%nat)); [lia|reflexivity|].
  intros i acc _ Hacc. simpl. lia.
Qed.

(** For an odd window and an index inside the signal the padded window
    has as many entries as the window size. *)
Lemma paddedWindow_length (f : MedianFilter.t) (input : Signal) (index : nat) :
  Nat.Odd (MedianFilter.windowSize_ f) -> (index < length input)%nat ->
  length (MedianFilter.paddedWindow f input index) = MedianFilter.windowSize_ f.
Proof.
  intros [h Hodd] Hidx. unfold MedianFilter.paddedWindow. rewrite Hodd.
  replace ((2 * h + 1) / 2)%nat with h by (apply (Nat.div_unique _ 2 h 1); lia).
  set (clipped := for_loop _ _ _ []).
  assert (Hclipped : length clipped
                     = (Nat.min (index + h + 1) (length input)
                        - (if (h <=? index)%nat then index - h else 0))%nat)
    by (unfold clipped; rewrite for_loop_push_length; reflexivity).
  destruct (Nat.ltb_spec index h), (Nat.leb_spec (length input) (index + h)),
    (Nat.leb_spec h index);
    rewrite ?for_loop_push_length, ?for_loop_cons_length, ?Hclipped; lia.
Qed.

(** C7. The median filter with window 3 maps [1,2,100,2,1] to
    [1,2,2,2,1]; its windows have three entries each; the window at
    either end is the clipped window padded with the boundary sample, and
    the inner windows are not padded. *)
Theorem C7_median_window3_on_spike :
  exists f,
    MedianFilter.new 3 = Ok f
    /\ MedianFilter.process f spike5 = map qz [1; 2; 2; 2; 1]%Z
    /\ MedianFilter.paddedWindow f spike5 0 = map qz [1; 1; 2]%Z
    /\ MedianFilter.paddedWindow f spike5 1 = map qz [1; 2; 100]%Z
    /\ MedianFilter.paddedWindow f spike5 2 = map qz [2; 100; 2]%Z
    /\ MedianFilter.paddedWindow f spike5 3 = map qz [100; 2; 1]%Z
    /\ MedianFilter.paddedWindow f spike5 4 = map qz [2; 1; 1]%Z
    /\ forall input index,
         (index < length input)%nat ->
         length (MedianFilter.paddedWindow f input index) = 3%nat.
Proof.
  eexists. split; [reflexivity|]. do 6 (split; [qc_eval|]).
  intros input index Hidx.
  apply (paddedWindow_length {| MedianFilter.windowSize_ := 3 |} input index);
    [|exact Hidx].
  exists 1%nat. reflexivity.
Qed.

(** ** The MAD-based detector on one spike *)

(** C2, counterexample. The detector does not flag index 3 of
    [0,0,0,10,0,0,0]: the mask is not the one with index 3 alone, whatever
    the interpolation then does. *)
Lemma C2_spike_is_not_flagged :
  ~ (OutlierDetection.detectMADBased detector35 spike7
     = [false; false; false; true; false; false; false]
     /\ nth 3 (OutlierDetection.interpolateLinear spike7
                 (OutlierDetection.detectMADBased detector35 spike7)) 0 = 0).
Proof. intros [Hmask _]. vm_compute in Hmask. discriminate Hmask. Qed.

(** The flagging rule of [detectMADBased]: index [i] is flagged when its
    window has at least three samples, the MAD of the window is positive
    and the sample is further from the window median than the threshold
    times the MAD. *)
Lemma detectMADBased_rule (f : OutlierDetection.t) (input : Signal) (i : nat) :
  (i < length input)%nat ->
  let window :=
    OutlierDetection.windowAround (OutlierDetection.windowSize_ f / 2) input i in
  nth i (OutlierDetection.detectMADBased f input) false
  = negb (Nat.ltb (length window) 3)
    && ltb 0 (mad window (median window))
    && ltb (OutlierDetection.threshold_ f * mad window (median window))
           (Qcabs (nth i input 0 - median window)).
Proof.
  intros Hi window. unfold OutlierDetection.detectMADBased.
  rewrite (for_loop_pointwise false (length input) _
             (fun i v =>
                let w := OutlierDetection.windowAround
                           (OutlierDetection.windowSize_ f / 2) input i in
                if Nat.ltb (length w) 3 then v
                else if ltb 0 (mad w (median w))
                     then if ltb (OutlierDetection.threshold_ f * mad w (median w))
                                 (Qcabs (nth i input 0 - median w))
                          then true else v
                     else v)).
  - rewrite nth_repeat_lt by exact Hi. fold window. cbv zeta.
    destruct (Nat.ltb (length window) 3); [reflexivity|].
    destruct (ltb 0 (mad window (median window))); [|reflexivity].
    destruct (ltb _ _); reflexivity.
  - intros k l. cbv zeta.
    repeat match goal with
           | |- context [if ?b then _ else _] => destruct b
           end; rewrite ?length_insert; reflexivity.
  - intros k l j Hj. cbv zeta.
    repeat match goal with
           | |- context [if ?b then _ else _] => destruct b
           end; rewrite ?nth_insert_ne by exact Hj; reflexivity.
  - intros k l Hk. cbv zeta.
    repeat match goal with
           | |- context [if ?b then _ else _] => destruct b
           end; rewrite ?nth_insert_eq by exact Hk; reflexivity.
  - rewrite repeat_length. lia.
  - exact Hi.
Qed.

(** C2, amended. The detector flags an index when its window has at
    least three samples, a positive MAD, and the sample is further from
    the window median than the threshold times that MAD.  With threshold
    3.0 and window 5 it flags no index of [0,0,0,10,0,0,0]: the window
    around the spike is [0,0,10,0,0], its median and its MAD are both
    zero, and a zero MAD skips the flagging.  Linear interpolation then
    changes nothing and index 3 keeps the value 10. *)
Theorem C2_mad_detector_on_spike `{CLib} :
  OutlierDetection.new OutlierDetection.MAD_BASED OutlierDetection.LINEAR (qz 3) 5
  = Ok detector35
  /\ (forall f input i,
        (i < length input)%nat ->
        let window :=
          OutlierDetection.windowAround (OutlierDetection.windowSize_ f / 2) input i in
        nth i (OutlierDetection.detectMADBased f input) false
        = negb (Nat.ltb (length window) 3)
          && ltb 0 (mad window (median window))
          && ltb (OutlierDetection.threshold_ f * mad window (median window))
                 (Qcabs (nth i input 0 - median window)))
  /\ OutlierDetection.detectMADBased detector35 spike7 = repeat false 7
  /\ OutlierDetection.windowAround 2 spike7 3 = map qz [0; 0; 10; 0; 0]%Z
  /\ median (map qz [0; 0; 10; 0; 0]%Z) = 0
  /\ mad (map qz [0; 0; 10; 0; 0]%Z) 0 = 0
  /\ OutlierDetection.interpolateLinear spike7
       (OutlierDetection.detectMADBased detector35 spike7) = spike7
  /\ OutlierDetection.process detector35 spike7 = spike7
  /\ nth 3 (OutlierDetection.process detector35 spike7) 0 = qz 10.
Proof.
  assert (Hproc : OutlierDetection.process detector35 spike7
                  = OutlierDetection.interpolateLinear spike7
                      (OutlierDetection.detectMADBased detector35 spike7))
    by reflexivity.
  rewrite Hproc. split; [reflexivity|]. split; [exact detectMADBased_rule|].
  repeat split; qc_eval.
Qed.

(** ** Quality metrics on mismatched signals *)

(** C4, counterexample. On signals of lengths 1 and 0, [calculateSNR]
    returns 0.0, not 100.0. *)
Lemma C4_snr_mismatch_is_zero :
  calculateSNR [qz 1] [] = 0 /\ calculateSNR [qz 1] [] <> qz 100.
Proof.
  split; [reflexivity|]. intros Heq. apply (f_equal this) in Heq.
  vm_compute in Heq. discriminate Heq.
Qed.

(** C4, amended. When the two signals differ in length or one of them is
    empty, the three metrics return a neutral value rather than failing,
    and the value is 0.0 for all three: for [calculateSNR] too. *)
Theorem C4_metrics_on_mismatch `{CLib} (a b : Signal) :
  length a <> length b \/ a = [] \/ b = [] ->
  calculateSNR a b = 0 /\ calculateMSE a b = 0 /\ calculateCorrelation a b = 0.
Proof.
  intros Hbad.
  assert (Hguard : negb (Nat.eqb (length a) (length b)) || Nat.eqb (length a) 0 = true).
  { destruct (Nat.eqb_spec (length a) (length b)) as [Heq|Hne]; simpl; [|reflexivity].
    apply Nat.eqb_eq. destruct Hbad as [Hne|[->| ->]]; [contradiction|reflexivity|].
    exact Heq. }
  unfold calculateSNR, calculateMSE, calculateCorrelation.
  rewrite Hguard. repeat split; reflexivity.
Qed.

(** C4 at the signals [1, 2] and [1]. *)
Lemma C4_metrics_on_mismatch_witness :
  calculateSNR [qz 1; qz 2] [qz 1] = 0
  /\ calculateMSE [qz 1; qz 2] [qz 1] = 0
  /\ calculateCorrelation [qz 1; qz 2] [qz 1] = 0.
Proof. apply C4_metrics_on_mismatch. left. simpl. lia. Defined.

(** ** The LMS pass of the adaptive filter *)

Section LMS.

Variable f : WienerFilter.t.
Variable input : Signal.

Let order := WienerFilter.filterOrder_ f.

(** After the shift the buffer holds the new sample at the front and
    every older sample one place further. *)
Lemma shiftIn_spec (d : list Qc) (x : Qc) :
  length d = order -> order <> 0%nat ->
  length (WienerFilter.shiftIn order d x) = order
  /\ forall j, (j < order)%nat ->
       nth j (WienerFilter.shiftIn order d x) 0
       = if Nat.eqb j 0 then x else nth (j - 1) d 0.
Proof.
  intros Hd Hpos. unfold WienerFilter.shiftIn.
  set (body := fun (i : nat) (d : list Qc) => <[i := nth (i - 1) d 0]> d).
  assert (Hinv : length (for_rev 1 order body d) = order
                 /\ forall j, nth j (for_rev 1 order body d) 0
                      = if (1 <=? j)%nat && (j <? order)%nat then nth (j - 1) d 0
                        else nth j d 0).
  { apply (for_rev_inv
             (fun k l => length l = order
                /\ forall j, nth j l 0
                     = if (k <=? j)%nat && (j <? order)%nat then nth (j - 1) d 0
                       else nth j d 0)); [lia| |].
    - split; [exact Hd|]. intros j.
      destruct (Nat.leb_spec order j), (Nat.ltb_spec j order); simpl;
        try reflexivity; lia.
    - intros i acc Hi [Hl Hnth]. unfold body. split; [rewrite length_insert; exact Hl|].
      intros j. rewrite nth_insert.
      destruct (decide (j = i /\ (i < length acc)%nat)) as [[-> _]|Hn].
      + rewrite Hnth.
        destruct (Nat.leb_spec (S i) (i - 1)); [lia|]. simpl.
        destruct (Nat.leb_spec i i), (Nat.ltb_spec i order); simpl;
          try reflexivity; lia.
      + rewrite Hnth.
        assert (j <> i) by (intros ->; apply Hn; split; [reflexivity|lia]).
        destruct (Nat.leb_spec (S i) j), (Nat.leb_spec i j), (Nat.ltb_spec j order);
          simpl; try reflexivity; lia. }
  destruct Hinv as [Hl Hnth]. split; [rewrite length_insert; exact Hl|].
  intros j Hj. rewrite nth_insert.
  destruct (decide (j = 0%nat /\ (0 < length (for_rev 1 order body d))%nat))
    as [[-> _]|Hn]; [reflexivity|].
  assert (j <> 0%nat) by (intros ->; apply Hn; split; [reflexivity|lia]).
  rewrite Hnth.
  destruct (Nat.eqb_spec j 0); [contradiction|].
  destruct (Nat.leb_spec 1 j), (Nat.ltb_spec j order); simpl; try reflexivity; lia.
Qed.

Lemma getDelayVector_spec (n : nat) :
  length (WienerFilter.getDelayVector f input n) = order
  /\ forall j, (j < order)%nat ->
       nth j (WienerFilter.getDelayVector f input n) 0
       = if (j <=? n)%nat then nth (n - j) input 0 else 0.
Proof.
  unfold WienerFilter.getDelayVector. fold order. split.
  - rewrite for_loop_length; [apply repeat_length|].
    intros i acc. destruct (i <=? n)%nat; apply length_insert.
  - intros j Hj.
    rewrite (for_loop_pointwise 0 order _
               (fun i _ => if (i <=? n)%nat then nth (n - i) input 0 else 0)).
    + reflexivity.
    + intros i l. destruct (i <=? n)%nat; apply length_insert.
    + intros i l k Hk. destruct (i <=? n)%nat; apply nth_insert_ne; exact Hk.
    + intros i l Hi. destruct (i <=? n)%nat; apply nth_insert_eq; exact Hi.
    + rewrite repeat_length. lia.
    + exact Hj.
Qed.

Lemma updateWeights_spec (mu e : Qc) (w d : list Qc) :
  length w = order ->
  length (WienerFilter.updateWeights order mu e w d) = order
  /\ forall i, (i < order)%nat ->
       nth i (WienerFilter.updateWeights order mu e w d) 0
       = nth i w 0 + mu * e * nth i d 0.
Proof.
  intros Hw. unfold WienerFilter.updateWeights. split.
  - rewrite for_loop_length; [exact Hw|]. intros i acc. apply length_insert.
  - intros i Hi.
    rewrite (for_loop_pointwise 0 order _ (fun i v => v + mu * e * nth i d 0)).
    + reflexivity.
    + intros k l. apply length_insert.
    + intros k l j Hj. apply nth_insert_ne. exact Hj.
    + intros k l Hk. apply nth_insert_eq. exact Hk.
    + lia.
    + exact Hi.
Qed.

(** The loop over the samples, one more iteration. *)
Lemma lmsRun_step (n : nat) :
  WienerFilter.lmsRun f input (S n)
  = WienerFilter.lmsStep f input n (WienerFilter.lmsRun f input n).
Proof. unfold WienerFilter.lmsRun. apply for_loop_last. lia. Qed.

(** Before sample [n] the weights and the buffer have the length of the
    filter order, and the buffer holds the [n] previous samples, newest
    first, over zeros. *)
Lemma lmsRun_inv (n : nat) :
  length (WienerFilter.weights_ f) = order -> order <> 0%nat ->
  let '(w, d, out) := WienerFilter.lmsRun f input n in
  length w = order /\ length d = order /\ length out = n
  /\ forall j, (j < order)%nat ->
       nth j d 0 = if (j <? n)%nat then nth (n - 1 - j) input 0 else 0.
Proof.
  intros Hw Hpos. induction n as [|n IH].
  - unfold WienerFilter.lmsRun. rewrite for_loop_empty by lia.
    fold order. rewrite repeat_length. repeat split; try reflexivity; [exact Hw|].
    intros j Hj. apply nth_repeat.
  - rewrite lmsRun_step.
    destruct (WienerFilter.lmsRun f input n) as [[w d] out].
    destruct IH as (Hlw & Hld & Hlo & Hd). unfold WienerFilter.lmsStep. fold order.
    destruct (shiftIn_spec d (nth n input 0) Hld Hpos) as [Hls Hs].
    repeat split.
    + apply updateWeights_spec. exact Hlw.
    + exact Hls.
    + rewrite length_app. simpl. lia.
    + intros j Hj. rewrite Hs by exact Hj.
      destruct (Nat.eqb_spec j 0) as [->|Hne].
      * destruct (Nat.ltb_spec 0 (S n)); [|lia]. f_equal. lia.
      * rewrite Hd by lia.
        destruct (Nat.ltb_spec (j - 1) n), (Nat.ltb_spec j (S n));
          try reflexivity; try lia.
        f_equal. lia.
Qed.

(** The outputs already emitted stay where they are. *)
Lemma lmsRun_output_stable (n m : nat) :
  (n < m)%nat ->
  nth n (snd (WienerFilter.lmsRun f input m)) 0
  = nth n (snd (WienerFilter.lmsRun f input (S n))) 0.
Proof.
  intros Hnm. induction m as [|m IH]; [lia|].
  destruct (decide (m = n)) as [->|Hne]; [reflexivity|].
  rewrite <- IH by lia. rewrite lmsRun_step.
  pose proof (lmsRun_output_length f input m) as Hlen.
  destruct (WienerFilter.lmsRun f input m) as [[w d] out]. simpl in *.
  apply app_nth1. lia.
Qed.

End LMS.

(** The loop that accumulates [y] computes the sum of the products of
    the weights and the delay line. *)
Lemma output_of_sum (order : nat) (w d : list Qc) :
  WienerFilter.output_of order w d = sum_upto order (fun i => nth i w 0 * nth i d 0).
Proof. unfold WienerFilter.output_of. apply for_loop_sum. Qed.

(** What [desired] is at each position of a signal. *)
Lemma desired_cases (input : Signal) (n : nat) :
  WienerFilter.desired input n
  = if Nat.eqb n 0 then nth 0 input 0
    else if Nat.eqb n (length input - 1)
         then qfrac 1 2 * (nth (n - 1) input 0 + nth n input 0)
         else if Nat.ltb n (length input - 1)
              then qfrac 1 2 * (nth (n - 1) input 0 + nth (n + 1) input 0)
              else qfrac 1 2 * (nth (n - 1) input 0 + nth n input 0).
Proof.
  unfold WienerFilter.desired.
  destruct (Nat.eqb_spec n 0) as [->|Hn0]; [reflexivity|].
  destruct (Nat.ltb_spec 0 n); [|lia].
  destruct (Nat.eqb_spec n (length input - 1)) as [Hlast|Hmid].
  - destruct (Nat.ltb_spec n (length input - 1)); [lia|reflexivity].
  - destruct (Nat.ltb_spec n (length input - 1)); reflexivity.
Qed.

(** C3, counterexample. On the signal [1, 3] the target at the first
    sample is the sample itself (1) and not its neighbour (3); at the last
    sample it is the mean of the two samples (2) and not the neighbour
    (1). *)
Lemma C3_boundary_target_is_not_the_neighbour :
  WienerFilter.desired [qz 1; qz 3] 0 = qz 1
  /\ WienerFilter.desired [qz 1; qz 3] 0 <> nth 1 [qz 1; qz 3] 0
  /\ WienerFilter.desired [qz 1; qz 3] 1 = qz 2
  /\ WienerFilter.desired [qz 1; qz 3] 1 <> nth 0 [qz 1; qz 3] 0.
Proof.
  repeat split; try qc_eval;
    intros Heq; apply (f_equal this) in Heq; vm_compute in Heq; discriminate Heq.
Qed.

(** C3, amended. At every position [n] of the LMS pass the delay line
    holds the sample [input[n - j]] at place [j <= n] and zero further on
    (it is what [getDelayVector] returns); the emitted sample is
    [y = sum over i of weights[i] * delay[i]] with the weights of before
    the update; every weight moves by [mu * (target - y) * delay[i]]; and
    the target is the mean of the raw samples before and after [n] when
    [n] is interior, the raw sample [input[0]] itself at the first
    position, and the mean of the previous sample and the sample itself
    at the last position. *)
Theorem C3_lms_target_and_update (f : WienerFilter.t) (input : Signal) (n : nat) :
  WienerFilter.filterOrder_ f <> 0%nat ->
  length (WienerFilter.weights_ f) = WienerFilter.filterOrder_ f ->
  (n < length input)%nat ->
  let before := WienerFilter.lmsRun f input n in
  let after := WienerFilter.lmsRun f input (S n) in
  let weights := fst (fst before) in
  let delay := snd (fst after) in
  let y := sum_upto (WienerFilter.filterOrder_ f)
             (fun i => nth i weights 0 * nth i delay 0) in
  let target :=
    if Nat.eqb n 0 then nth 0 input 0
    else if Nat.eqb n (length input - 1)
         then qfrac 1 2 * (nth (n - 1) input 0 + nth n input 0)
         else qfrac 1 2 * (nth (n - 1) input 0 + nth (n + 1) input 0) in
  length delay = WienerFilter.filterOrder_ f
  /\ (forall j, (j < WienerFilter.filterOrder_ f)%nat ->
        nth j delay 0 = if (j <=? n)%nat then nth (n - j) input 0 else 0)
  /\ delay = WienerFilter.getDelayVector f input n
  /\ WienerFilter.output_of (WienerFilter.filterOrder_ f) weights delay = y
  /\ nth n (snd (WienerFilter.process f input)) 0 = y
  /\ forall i, (i < WienerFilter.filterOrder_ f)%nat ->
       nth i (fst (fst after)) 0
       = nth i weights 0 + WienerFilter.mu_ f * (target - y) * nth i delay 0.
Proof.
  intros Hpos Hw Hn before after weights delay y target.
  pose proof (lmsRun_inv f input n Hw Hpos) as Hinv.
  pose proof (lmsRun_step f input n) as Hstep.
  pose proof (lmsRun_output_stable f input n (length input) Hn) as Hstable.
  subst y. rewrite <- output_of_sum.
  subst before after weights delay. fold (WienerFilter.lmsRun f input (S n)) in *.
  rewrite Hstep in *.
  destruct (WienerFilter.lmsRun f input n) as [[w d] out].
  destruct Hinv as (Hlw & Hld & Hlo & Hd).
  unfold WienerFilter.lmsStep in *. simpl fst in *. simpl snd in *.
  destruct (shiftIn_spec f d (nth n input 0) Hld Hpos) as [Hls Hs].
  destruct (getDelayVector_spec f input n) as [Hlg Hg].
  assert (Hdelay : WienerFilter.shiftIn (WienerFilter.filterOrder_ f) d (nth n input 0)
                   = WienerFilter.getDelayVector f input n).
  { apply (nth_ext _ _ 0 0); [lia|].
    intros j Hj. rewrite Hs, Hg by lia.
    destruct (Nat.eqb_spec j 0) as [->|Hne].
    + rewrite Nat.sub_0_r. reflexivity.
    + rewrite Hd by lia.
      destruct (Nat.ltb_spec (j - 1) n), (Nat.leb_spec j n); try reflexivity; try lia.
      f_equal. lia. }
  split; [exact Hls|].
  split; [intros j Hj; rewrite Hdelay; apply Hg; exact Hj|].
  split; [exact Hdelay|]. split; [reflexivity|]. split.
  - assert (Hproc : snd (WienerFilter.process f input)
                    = snd (WienerFilter.lmsRun f input (length input))).
    { unfold WienerFilter.process, WienerFilter.processLMS.
      destruct input as [|x xs]; [simpl in Hn; lia|].
      destruct (WienerFilter.lmsRun f (x :: xs) (length (x :: xs))) as [[w1 d1] o1].
      reflexivity. }
    rewrite Hproc, Hstable. rewrite app_nth2 by lia.
    replace (n - length out)%nat with 0%nat by lia. reflexivity.
  - intros i Hi.
    destruct (updateWeights_spec f (WienerFilter.mu_ f)
                (WienerFilter.desired input n
                 - WienerFilter.output_of (WienerFilter.filterOrder_ f) w
                     (WienerFilter.shiftIn (WienerFilter.filterOrder_ f) d (nth n input 0)))
                w (WienerFilter.shiftIn (WienerFilter.filterOrder_ f) d (nth n input 0)) Hlw)
      as [_ Hu].
    rewrite Hu by exact Hi. subst target. rewrite desired_cases.
    destruct (Nat.eqb_spec n 0); [reflexivity|].
    destruct (Nat.eqb_spec n (length input - 1)); [reflexivity|].
    destruct (Nat.ltb_spec n (length input - 1)); [reflexivity|lia].
Qed.

(** C3 at the second sample of [1, 3, 2], for a filter of order 2: the
    emitted sample is the sum of the two products. *)
Lemma C3_lms_target_and_update_witness :
  nth 1 (snd (WienerFilter.process wiener2 ramp3)) 0
  = sum_upto 2
      (fun i => nth i (fst (fst (WienerFilter.lmsRun wiener2 ramp3 1))) 0
                * nth i (snd (fst (WienerFilter.lmsRun wiener2 ramp3 2))) 0).
Proof.
  apply (C3_lms_target_and_update wiener2 ramp3 1);
    [discriminate | reflexivity | simpl; lia].
Defined.

(** C1 at the filter of window 5 and order 2: on a signal of one
    sample, which is not longer than half the window, the call reads
    past the end; on the empty signal and on a signal of eight samples
    it returns a signal of the length of its input. *)
Lemma C1_process_preserves_length_witness :
  exists f,
    SavgolFilter.new 5 2 = Ok f
    /\ SignalProcessor.process (SignalProcessor.Savgol f) [qz 1] = OutOfBounds
    /\ SignalProcessor.process (SignalProcessor.Savgol f) []
       = Ok (SignalProcessor.Savgol f, [])
    /\ exists p' output,
         SignalProcessor.process (SignalProcessor.Savgol f) parabola = Ok (p', output)
         /\ length output = length parabola.
Proof.
  destruct (SavgolFilter.new 5 2) as [f| | | |] eqn:Hnew;
    try (vm_compute in Hnew; discriminate Hnew).
  exists f. split; [reflexivity|].
  assert (HW : SavgolFilter.windowSize_ f = 5%nat).
  { unfold SavgolFilter.new in Hnew.
    change (SavgolFilter.rejects 5 2) with false in Hnew.
    destruct (SavgolFilter.calculateCoefficients 5 2);
      cbv beta iota delta [bind] in Hnew; try discriminate Hnew.
    injection Hnew as <-. reflexivity. }
  destruct (C1_process_preserves_length (SignalProcessor.Savgol f) [qz 1] I)
    as (_ & Hempty & Hout & _).
  destruct (C1_process_preserves_length (SignalProcessor.Savgol f) parabola I)
    as (Hin & _).
  split.
  { apply Hout. cbn [reads_inside]. rewrite HW.
    intros [Habs|Habs]; [discriminate Habs|]. cbn [length] in Habs.
    change (5 / 2)%nat with 2%nat in Habs. lia. }
  split; [exact Hempty|].
  apply Hin. cbn [reads_inside]. rewrite HW. right.
  change (5 / 2)%nat with 2%nat. unfold parabola. rewrite length_map, length_seq. lia.
Defined.

(** ** The adaptive filter's state *)

(** [reset] reads the order, the step size and the forgetting factor of
    the object and the generator, and nothing else: the weights it finds
    do not matter. *)
Lemma reset_ignores_weights `{CLib} (f f' : WienerFilter.t) (g : rng) :
  WienerFilter.filterOrder_ f = WienerFilter.filterOrder_ f' ->
  WienerFilter.mu_ f = WienerFilter.mu_ f' ->
  WienerFilter.lambda_ f = WienerFilter.lambda_ f' ->
  WienerFilter.reset f g = WienerFilter.reset f' g.
Proof. intros Ho Hm Hl. unfold WienerFilter.reset. rewrite Ho, Hm, Hl. reflexivity. Qed.

Lemma setParameters_is_new `{CLib} (f : WienerFilter.t) (filterOrder : nat)
    (mu lambda : double) (g : rng) :
  WienerFilter.setParameters f filterOrder mu lambda g
  = WienerFilter.new filterOrder mu lambda g.
Proof.
  unfold WienerFilter.setParameters, WienerFilter.new.
  destruct (WienerFilter.rejects filterOrder mu lambda); [reflexivity|].
  destruct mu as [mu| | |], lambda as [lambda| | |]; reflexivity.
Qed.

Lemma WienerFilter_process_fields (f : WienerFilter.t) (input : Signal) :
  WienerFilter.filterOrder_ (fst (WienerFilter.process f input))
  = WienerFilter.filterOrder_ f
  /\ WienerFilter.mu_ (fst (WienerFilter.process f input)) = WienerFilter.mu_ f
  /\ WienerFilter.lambda_ (fst (WienerFilter.process f input)) = WienerFilter.lambda_ f.
Proof.
  unfold WienerFilter.process. destruct input as [|x xs]; [repeat split|].
  unfold WienerFilter.processLMS.
  destruct (WienerFilter.lmsRun f (x :: xs) (length (x :: xs))) as [[w d] out].
  repeat split.
Qed.

Lemma WienerFilter_process_weights (f : WienerFilter.t) (input : Signal) :
  WienerFilter.weights_ (fst (WienerFilter.process f input))
  = fst (fst (WienerFilter.lmsRun f input (length input))).
Proof.
  unfold WienerFilter.process. destruct input as [|x xs]; [reflexivity|].
  unfold WienerFilter.processLMS.
  destruct (WienerFilter.lmsRun f (x :: xs) (length (x :: xs))) as [[w d] out].
  reflexivity.
Qed.

Lemma reset_fields `{CLib} (f : WienerFilter.t) (g : rng) :
  WienerFilter.filterOrder_ (fst (WienerFilter.reset f g)) = WienerFilter.filterOrder_ f
  /\ WienerFilter.mu_ (fst (WienerFilter.reset f g)) = WienerFilter.mu_ f
  /\ WienerFilter.lambda_ (fst (WienerFilter.reset f g)) = WienerFilter.lambda_ f.
Proof.
  unfold WienerFilter.reset.
  match goal with
  | |- context [for_loop ?a ?b ?c ?d] => destruct (for_loop a b c d) as [w g']
  end.
  repeat split.
Qed.

(** The objects that the constructor builds have a positive order and
    one weight per tap, and [process] keeps both. *)
Lemma reset_weights_length `{CLib} (f : WienerFilter.t) (g : rng) :
  length (WienerFilter.weights_ (fst (WienerFilter.reset f g)))
  = WienerFilter.filterOrder_ f.
Proof.
  unfold WienerFilter.reset.
  pose (P := fun (k : nat) (st : list Qc * rng) =>
               length (fst st) = WienerFilter.filterOrder_ f).
  assert (Hinv : P (WienerFilter.filterOrder_ f)
            (for_loop 0 (WienerFilter.filterOrder_ f)
               (fun i '(w, g) =>
                  let '(r, g) := rand g in
                  (<[i := qfrac 1 1000 * (Qc_of_Z r / Qc_of_Z RAND_MAX - qfrac 1 2)]> w,
                   g))
               (repeat (0 : Qc) (WienerFilter.filterOrder_ f), g))).
  { apply (for_loop_inv P); unfold P; [lia|apply repeat_length|].
    intros i [w g0] _ Hw. simpl in Hw. destruct (rand g0) as [r g1]. simpl.
    rewrite length_insert. exact Hw. }
  unfold P in Hinv.
  match type of Hinv with
  | context [for_loop ?a ?b ?c ?d] => destruct (for_loop a b c d) as [w g']
  end.
  exact Hinv.
Qed.

Lemma WienerFilter_new_wf `{CLib} (filterOrder : nat) (mu lambda : double) (g g' : rng)
    (f : WienerFilter.t) :
  WienerFilter.new filterOrder mu lambda g = Ok (f, g') ->
  WienerFilter.filterOrder_ f <> 0%nat
  /\ length (WienerFilter.weights_ f) = WienerFilter.filterOrder_ f.
Proof.
  unfold WienerFilter.new. intros Hnew.
  destruct (WienerFilter.rejects filterOrder mu lambda) eqn:Hrej; [discriminate Hnew|].
  destruct mu as [mu| | |], lambda as [lambda| | |]; try discriminate Hnew.
  injection Hnew as Hnew.
  match type of Hnew with
  | WienerFilter.reset ?f0 g = _ =>
      pose proof (reset_weights_length f0 g) as Hlen;
      pose proof (reset_fields f0 g) as (Horder & _ & _)
  end.
  rewrite Hnew in Hlen, Horder. simpl in Hlen, Horder.
  split; [|rewrite Horder; exact Hlen].
  rewrite Horder. intros ->. unfold WienerFilter.rejects in Hrej. discriminate Hrej.
Qed.

Lemma WienerFilter_process_wf (f : WienerFilter.t) (input : Signal) :
  WienerFilter.filterOrder_ f <> 0%nat ->
  length (WienerFilter.weights_ f) = WienerFilter.filterOrder_ f ->
  WienerFilter.filterOrder_ (fst (WienerFilter.process f input)) <> 0%nat
  /\ length (WienerFilter.weights_ (fst (WienerFilter.process f input)))
     = WienerFilter.filterOrder_ (fst (WienerFilter.process f input)).
Proof.
  intros Hpos Hw.
  destruct (WienerFilter_process_fields f input) as (Horder & _ & _).
  rewrite Horder, WienerFilter_process_weights. split; [exact Hpos|].
  pose proof (lmsRun_inv f input (length input) Hw Hpos) as Hinv.
  destruct (WienerFilter.lmsRun f input (length input)) as [[w d] out].
  apply Hinv.
Qed.

(** C8. The weight vector is the only state [process] writes: the order,
    the step size and the forgetting factor come back as they were; the
    weights are carried from one sample to the next inside a call, and the
    object that a call returns holds the weights of its last sample, so
    that the next call on it starts from them (on [wiener2] a second call
    on the same input gives another output than the first); [reset] and
    [setParameters] rebuild the weights from the generator alone, so that
    a reconfigured object is the object that the constructor builds at the
    same generator state, and any two calls on it return what they return
    on that new object. *)
Theorem C8_weights_are_the_state `{CLib} :
  (forall f input,
      WienerFilter.filterOrder_ (fst (WienerFilter.process f input))
      = WienerFilter.filterOrder_ f
      /\ WienerFilter.mu_ (fst (WienerFilter.process f input)) = WienerFilter.mu_ f
      /\ WienerFilter.lambda_ (fst (WienerFilter.process f input))
         = WienerFilter.lambda_ f)
  /\ (forall f input n,
        WienerFilter.lmsRun f input (S n)
        = WienerFilter.lmsStep f input n (WienerFilter.lmsRun f input n))
  /\ (forall f input,
        WienerFilter.weights_ (fst (WienerFilter.process f input))
        = fst (fst (WienerFilter.lmsRun f input (length input))))
  /\ (forall f input next,
        fst (fst (WienerFilter.lmsRun (fst (WienerFilter.process f input)) next 0))
        = fst (fst (WienerFilter.lmsRun f input (length input))))
  /\ snd (WienerFilter.process (fst (WienerFilter.process wiener2 ramp3)) ramp3)
     <> snd (WienerFilter.process wiener2 ramp3)
  /\ (forall f f' g,
        WienerFilter.filterOrder_ f = WienerFilter.filterOrder_ f' ->
        WienerFilter.mu_ f = WienerFilter.mu_ f' ->
        WienerFilter.lambda_ f = WienerFilter.lambda_ f' ->
        WienerFilter.reset f g = WienerFilter.reset f' g)
  /\ (forall f filterOrder mu lambda g,
        WienerFilter.setParameters f filterOrder mu lambda g
        = WienerFilter.new filterOrder mu lambda g)
  /\ (forall f filterOrder mu lambda g f1 g1 first second,
        WienerFilter.setParameters f filterOrder mu lambda g = Ok (f1, g1) ->
        exists f0,
          WienerFilter.new filterOrder mu lambda g = Ok (f0, g1)
          /\ WienerFilter.process f0 first = WienerFilter.process f1 first
          /\ WienerFilter.process (fst (WienerFilter.process f0 first)) second
             = WienerFilter.process (fst (WienerFilter.process f1 first)) second).
Proof.
  split; [exact WienerFilter_process_fields|].
  split; [exact lmsRun_step|].
  split; [exact WienerFilter_process_weights|].
  split.
  { intros f input next. rewrite <- WienerFilter_process_weights.
    unfold WienerFilter.lmsRun. rewrite for_loop_empty by lia. reflexivity. }
  split.
  { intros Heq. apply (f_equal (map this)) in Heq. vm_compute in Heq. discriminate Heq. }
  split; [exact reset_ignores_weights|].
  split; [exact setParameters_is_new|].
  intros f filterOrder mu lambda g f1 g1 first second Hset.
  exists f1. rewrite <- setParameters_is_new with (f := f). repeat split. exact Hset.
Qed.

(** ** Configuration errors *)

Lemma ltb_lt (x y : Qc) : ltb x y = true <-> x < y.
Proof. unfold ltb. apply bool_decide_eq_true. Qed.

Lemma leb_le (x y : Qc) : leb x y = true <-> x ≤ y.
Proof. unfold leb. apply bool_decide_eq_true. Qed.

Lemma ltb_nlt (x y : Qc) : ltb x y = false <-> y ≤ x.
Proof. unfold ltb. rewrite bool_decide_eq_false. symmetry. apply Qcle_ngt. Qed.

Lemma eqb_eq (x y : Qc) : eqb x y = true <-> x = y.
Proof. unfold eqb. apply bool_decide_eq_true. Qed.

Lemma even_mod2 (n : nat) : Nat.eqb (n mod 2) 0 = true <-> Nat.Even n.
Proof.
  rewrite Nat.eqb_eq. split.
  - intros Hmod. exists (n / 2)%nat. pose proof (Nat.div_mod_eq n 2). lia.
  - intros [k ->]. rewrite Nat.mul_comm. apply Nat.Div0.mod_mul.
Qed.

Lemma IsValidWindowSize_false (windowSize : nat) :
  MedianFilter.IsValidWindowSize windowSize = false
  <-> windowSize = 0%nat \/ Nat.Even windowSize.
Proof.
  unfold MedianFilter.IsValidWindowSize.
  rewrite andb_false_iff, !negb_false_iff, even_mod2, Nat.eqb_eq. reflexivity.
Qed.

Lemma MedianFilter_setWindowSize_spec (windowSize : nat) :
  (MedianFilter.setWindowSize windowSize = InvalidConfiguration
   <-> windowSize = 0%nat \/ Nat.Even windowSize)
  /\ forall f, MedianFilter.setWindowSize windowSize = Ok f ->
               MedianFilter.windowSize_ f = windowSize.
Proof.
  unfold MedianFilter.setWindowSize. rewrite <- IsValidWindowSize_false.
  destruct (MedianFilter.IsValidWindowSize windowSize); simpl; split;
    try (split; congruence); intros f Hf; try discriminate Hf.
  injection Hf as <-. reflexivity.
Qed.

Lemma mu_check (mu : double) :
  double_le mu 0 || double_le 1 mu = true <-> mu <> NaN /\ ~ in_open_unit mu.
Proof.
  destruct mu as [q| | |]; simpl.
  - rewrite orb_true_iff, !leb_le, (Qcle_ngt q 0), (Qcle_ngt 1 q). split.
    + intros Hout. split; [discriminate|]. intros [H0 H1]. destruct Hout; contradiction.
    + intros [_ Hout]. destruct (decide (0 < q)) as [H0|H0]; [|left; exact H0].
      right. intros H1. apply Hout. split; assumption.
  - split; [intros _; split; [discriminate|tauto]|reflexivity].
  - split; [intros _; split; [discriminate|tauto]|reflexivity].
  - split; [discriminate|intros [Hnan _]; congruence].
Qed.

Lemma lambda_check (lambda : double) :
  double_le lambda 0 || double_lt 1 lambda = true
  <-> lambda <> NaN /\ ~ in_half_open_unit lambda.
Proof.
  destruct lambda as [q| | |]; simpl.
  - rewrite orb_true_iff, leb_le, ltb_lt, (Qcle_ngt q 0), (Qclt_nge 1 q). split.
    + intros Hout. split; [discriminate|]. intros [H0 H1]. destruct Hout; contradiction.
    + intros [_ Hout]. destruct (decide (0 < q)) as [H0|H0]; [|left; exact H0].
      right. intros H1. apply Hout. split; assumption.
  - split; [intros _; split; [discriminate|tauto]|reflexivity].
  - split; [intros _; split; [discriminate|tauto]|reflexivity].
  - split; [discriminate|intros [Hnan _]; congruence].
Qed.

Lemma threshold_check (threshold : double) :
  double_le threshold 0 = true <-> threshold <> NaN /\ ~ is_positive threshold.
Proof.
  destruct threshold as [q| | |]; simpl.
  - rewrite leb_le, (Qcle_ngt q 0). split; [intros Hout; split; [discriminate|exact Hout]|tauto].
  - split; [discriminate|intros [_ Hout]; exfalso; apply Hout; exact I].
  - split; [intros _; split; [discriminate|tauto]|reflexivity].
  - split; [discriminate|intros [Hnan _]; congruence].
Qed.

Lemma WienerFilter_rejects_spec (filterOrder : nat) (mu lambda : double) :
  WienerFilter.rejects filterOrder mu lambda = true
  <-> filterOrder = 0%nat \/ (mu <> NaN /\ ~ in_open_unit mu)
      \/ (lambda <> NaN /\ ~ in_half_open_unit lambda).
Proof.
  unfold WienerFilter.rejects.
  rewrite 2!orb_true_iff, Nat.eqb_eq, mu_check, lambda_check. tauto.
Qed.

Lemma WienerFilter_new_spec `{CLib} (filterOrder : nat) (mu lambda : double) (g : rng) :
  (WienerFilter.new filterOrder mu lambda g = InvalidConfiguration
   <-> filterOrder = 0%nat \/ (mu <> NaN /\ ~ in_open_unit mu)
       \/ (lambda <> NaN /\ ~ in_half_open_unit lambda))
  /\ forall f g', WienerFilter.new filterOrder mu lambda g = Ok (f, g') ->
       WienerFilter.filterOrder_ f = filterOrder
       /\ mu = Finite (WienerFilter.mu_ f) /\ lambda = Finite (WienerFilter.lambda_ f).
Proof.
  unfold WienerFilter.new. rewrite <- WienerFilter_rejects_spec.
  destruct (WienerFilter.rejects filterOrder mu lambda).
  { split; [split; reflexivity|]. intros f g' Hf. discriminate Hf. }
  destruct mu as [mu| | |], lambda as [lambda| | |];
    (split; [split; intros Habs; discriminate Habs|]);
    intros f g' Hf; try discriminate Hf.
  injection Hf as Hf.
  match type of Hf with
  | WienerFilter.reset ?f0 g = _ => pose proof (reset_fields f0 g) as Hfields
  end.
  rewrite Hf in Hfields. simpl in Hfields. destruct Hfields as (Ho & Hm & Hl).
  rewrite Ho, Hm, Hl. repeat split.
Qed.

Lemma OutlierDetection_rejects_spec (threshold : double) (windowSize : nat) :
  OutlierDetection.rejects threshold windowSize = true
  <-> (threshold <> NaN /\ ~ is_positive threshold)
      \/ windowSize = 0%nat \/ Nat.Even windowSize.
Proof.
  unfold OutlierDetection.rejects.
  rewrite !orb_true_iff, threshold_check, Nat.eqb_eq, even_mod2. reflexivity.
Qed.

Lemma SavgolFilter_rejects_spec (windowSize polyOrder : nat) :
  SavgolFilter.rejects windowSize polyOrder = true
  <-> windowSize = 0%nat \/ Nat.Even windowSize \/ (windowSize <= polyOrder)%nat.
Proof.
  unfold SavgolFilter.rejects.
  rewrite !orb_true_iff, Nat.eqb_eq, even_mod2, Nat.leb_le. tauto.
Qed.

Lemma forwardPass_not_invalid (n : nat) (st : SavgolFilter.Matrix * list Qc) :
  SavgolFilter.forwardPass n st <> InvalidConfiguration.
Proof.
  unfold SavgolFilter.forwardPass.
  apply (for_loop_inv (fun _ r => r <> InvalidConfiguration)); [lia|discriminate|].
  intros i [[m r]| | | |] _ Hacc; simpl; try congruence.
  unfold SavgolFilter.forwardStep.
  destruct (negb _); destruct (ltb _ _); discriminate.
Qed.

Lemma calculateCoefficients_not_invalid (windowSize polyOrder : nat) :
  SavgolFilter.calculateCoefficients windowSize polyOrder <> InvalidConfiguration.
Proof.
  unfold SavgolFilter.calculateCoefficients, SavgolFilter.gaussElimination.
  match goal with
  | |- context [SavgolFilter.forwardPass ?n ?st] =>
      pose proof (forwardPass_not_invalid n st) as Hfw;
      destruct (SavgolFilter.forwardPass n st) as [[m r]| | | |]
  end; simpl; congruence.
Qed.

Lemma SavgolFilter_new_spec (windowSize polyOrder : nat) :
  (SavgolFilter.new windowSize polyOrder = InvalidConfiguration
   <-> windowSize = 0%nat \/ Nat.Even windowSize \/ (windowSize <= polyOrder)%nat)
  /\ forall f, SavgolFilter.new windowSize polyOrder = Ok f ->
       SavgolFilter.windowSize_ f = windowSize
       /\ SavgolFilter.polyOrder_ f = polyOrder
       /\ SavgolFilter.calculateCoefficients windowSize polyOrder
          = Ok (SavgolFilter.coefficients_ f).
Proof.
  unfold SavgolFilter.new. rewrite <- SavgolFilter_rejects_spec.
  pose proof (calculateCoefficients_not_invalid windowSize polyOrder) as Hcc.
  destruct (SavgolFilter.rejects windowSize polyOrder).
  - split; [split; reflexivity|]. intros f Hf. discriminate Hf.
  - destruct (SavgolFilter.calculateCoefficients windowSize polyOrder) as [c| | | |];
      cbn [bind]; try congruence;
      (split; [split; intros Habs; discriminate Habs|]);
      intros f Hf; try discriminate Hf.
    injection Hf as <-. repeat split.
Qed.

Lemma OutlierDetection_new_spec (d : OutlierDetection.DetectionMethod)
    (i : OutlierDetection.InterpolationMethod) (threshold : double) (windowSize : nat) :
  (OutlierDetection.new d i threshold windowSize = InvalidConfiguration
   <-> (threshold <> NaN /\ ~ is_positive threshold)
       \/ windowSize = 0%nat \/ Nat.Even windowSize)
  /\ forall f, OutlierDetection.new d i threshold windowSize = Ok f ->
       OutlierDetection.detectionMethod_ f = d
       /\ OutlierDetection.interpolationMethod_ f = i
       /\ threshold = Finite (OutlierDetection.threshold_ f)
       /\ OutlierDetection.windowSize_ f = windowSize.
Proof.
  unfold OutlierDetection.new. rewrite <- OutlierDetection_rejects_spec.
  destruct (OutlierDetection.rejects threshold windowSize).
  { split; [split; reflexivity|]. intros f Hf. discriminate Hf. }
  destruct threshold as [q| | |];
    (split; [split; intros Habs; discriminate Habs|]);
    intros f Hf; try discriminate Hf.
  injection Hf as <-. repeat split.
Qed.

Lemma OutlierDetection_setParameters_spec (old : OutlierDetection.t)
    (d : OutlierDetection.DetectionMethod)
    (i : OutlierDetection.InterpolationMethod) (threshold : double) (windowSize : nat) :
  (OutlierDetection.setParameters old d i threshold windowSize = InvalidConfiguration
   <-> (threshold <> NaN /\ ~ is_positive threshold)
       \/ windowSize = 0%nat \/ Nat.Even windowSize)
  /\ forall f, OutlierDetection.setParameters old d i threshold windowSize = Ok f ->
       OutlierDetection.detectionMethod_ f = d
       /\ OutlierDetection.interpolationMethod_ f = i
       /\ threshold = Finite (OutlierDetection.threshold_ f)
       /\ OutlierDetection.windowSize_ f = windowSize.
Proof.
  unfold OutlierDetection.setParameters. rewrite <- OutlierDetection_rejects_spec.
  destruct (OutlierDetection.rejects threshold windowSize).
  { split; [split; reflexivity|]. intros f Hf. discriminate Hf. }
  destruct threshold as [q| | |];
    (split; [split; intros Habs; discriminate Habs|]);
    intros f Hf; try discriminate Hf.
  injection Hf as <-. repeat split.
Qed.

Lemma MorphologicalFilter_new_spec (op : MorphologicalFilter.Operation) (se : list Qc) :
  (MorphologicalFilter.new op se = InvalidConfiguration <-> se = [])
  /\ forall f, MorphologicalFilter.new op se = Ok f ->
       MorphologicalFilter.operation_ f = op
       /\ MorphologicalFilter.structuringElement_ f = se
       /\ se <> [].
Proof.
  unfold MorphologicalFilter.new. destruct se as [|x se]; split;
    try (split; congruence); intros f Hf; try discriminate Hf.
  injection Hf as <-. repeat split. discriminate.
Qed.

Lemma MorphologicalFilter_new_flat_spec (op : MorphologicalFilter.Operation) (size : nat) :
  (MorphologicalFilter.new_flat op size = InvalidConfiguration <-> size = 0%nat)
  /\ forall f, MorphologicalFilter.new_flat op size = Ok f ->
       MorphologicalFilter.operation_ f = op
       /\ MorphologicalFilter.structuringElement_ f = repeat (0 : Qc) size
       /\ MorphologicalFilter.structuringElement_ f <> [].
Proof.
  unfold MorphologicalFilter.new_flat, MorphologicalFilter.createFlatElement.
  destruct (Nat.eqb_spec size 0) as [->|Hne]; simpl; split;
    try (split; congruence); intros f Hf; try discriminate Hf.
  injection Hf as <-. repeat split. simpl.
  destruct size; [contradiction|discriminate].
Qed.

(** [constructed] holds of what the constructors and the setters of the
    morphological filter return, and the virtual call keeps it. *)
Lemma constructed_invariant `{CLib} :
  (forall op se f, MorphologicalFilter.new op se = Ok f ->
                   SignalProcessor.constructed (SignalProcessor.Morphological f))
  /\ (forall op size f, MorphologicalFilter.new_flat op size = Ok f ->
                        SignalProcessor.constructed (SignalProcessor.Morphological f))
  /\ (forall old se f,
        MorphologicalFilter.setStructuringElement old se = Ok f ->
        SignalProcessor.constructed (SignalProcessor.Morphological f))
  /\ (forall f op,
        SignalProcessor.constructed (SignalProcessor.Morphological f) ->
        SignalProcessor.constructed
          (SignalProcessor.Morphological (MorphologicalFilter.setOperation f op)))
  /\ (forall p input p' output,
        SignalProcessor.constructed p ->
        SignalProcessor.process p input = Ok (p', output) ->
        SignalProcessor.constructed p').
Proof.
  repeat apply conj.
  - intros op se f Hnew. destruct (MorphologicalFilter_new_spec op se) as [_ Hok].
    destruct (Hok f Hnew) as (_ & Hel & Hse). simpl. rewrite Hel. exact Hse.
  - intros op size f Hnew.
    destruct (MorphologicalFilter_new_flat_spec op size) as [_ Hok].
    apply (Hok f Hnew).
  - intros old se f Hset. unfold MorphologicalFilter.setStructuringElement in Hset.
    destruct se as [|x se]; [discriminate Hset|]. injection Hset as <-.
    simpl. discriminate.
  - intros f op Hf. exact Hf.
  - intros p input p' output Hp Hproc. destruct p as [f|f|f|f|f]; simpl in Hproc.
    + injection Hproc as <- _. exact I.
    + destruct (WienerFilter.process f input) as [f' out]. injection Hproc as <- _.
      exact I.
    + destruct (MorphologicalFilter.process f input) as [out| | | |]; simpl in Hproc;
        try discriminate Hproc.
      injection Hproc as <- _. exact Hp.
    + injection Hproc as <- _. exact I.
    + destruct (SavgolFilter.process f input) as [out| | | |]; cbn [bind] in Hproc;
        try discriminate Hproc.
      injection Hproc as <- _. exact I.
Qed.

(** C9. For each of the five filters the constructor and the
    reconfiguration call throw the configuration error exactly when the
    comparisons of the source reject a parameter: a window size that is
    zero or even, a filter order of zero, a polynomial order that is not
    below the window size, an empty structuring element (or a flat element
    of size zero), and a threshold, a step size or a forgetting factor
    that is a number outside its range.  The comparisons are all false on
    a NaN: a NaN step size, forgetting factor or threshold is in no range
    and is accepted all the same, by the constructor and by the setter.
    When they do not throw, the object holds the parameters as they were
    given.  [process] on an object that a constructor built does not
    throw. *)
Theorem C9_invalid_configuration_iff `{CLib} :
  (forall windowSize,
      (MedianFilter.new windowSize = InvalidConfiguration
       <-> windowSize = 0%nat \/ Nat.Even windowSize)
      /\ (MedianFilter.setWindowSize windowSize = InvalidConfiguration
          <-> windowSize = 0%nat \/ Nat.Even windowSize)
      /\ (forall f, MedianFilter.new windowSize = Ok f ->
                    MedianFilter.windowSize_ f = windowSize)
      /\ (forall f, MedianFilter.setWindowSize windowSize = Ok f ->
                    MedianFilter.windowSize_ f = windowSize))
  /\ (forall old filterOrder mu lambda g,
        (WienerFilter.new filterOrder mu lambda g = InvalidConfiguration
         <-> filterOrder = 0%nat \/ (mu <> NaN /\ ~ in_open_unit mu)
             \/ (lambda <> NaN /\ ~ in_half_open_unit lambda))
        /\ (WienerFilter.setParameters old filterOrder mu lambda g = InvalidConfiguration
            <-> filterOrder = 0%nat \/ (mu <> NaN /\ ~ in_open_unit mu)
                \/ (lambda <> NaN /\ ~ in_half_open_unit lambda))
        /\ (forall f g', WienerFilter.new filterOrder mu lambda g = Ok (f, g') ->
              WienerFilter.filterOrder_ f = filterOrder
              /\ mu = Finite (WienerFilter.mu_ f)
              /\ lambda = Finite (WienerFilter.lambda_ f))
        /\ (forall f g',
              WienerFilter.setParameters old filterOrder mu lambda g = Ok (f, g') ->
              WienerFilter.filterOrder_ f = filterOrder
              /\ mu = Finite (WienerFilter.mu_ f)
              /\ lambda = Finite (WienerFilter.lambda_ f)))
  /\ (forall old op se size,
        (MorphologicalFilter.new op se = InvalidConfiguration <-> se = [])
        /\ (MorphologicalFilter.setStructuringElement old se = InvalidConfiguration
            <-> se = [])
        /\ (MorphologicalFilter.new_flat op size = InvalidConfiguration
            <-> size = 0%nat)
        /\ (forall f, MorphologicalFilter.new op se = Ok f ->
              MorphologicalFilter.operation_ f = op
              /\ MorphologicalFilter.structuringElement_ f = se /\ se <> [])
        /\ (forall f, MorphologicalFilter.new_flat op size = Ok f ->
              MorphologicalFilter.operation_ f = op
              /\ MorphologicalFilter.structuringElement_ f = repeat (0 : Qc) size
              /\ MorphologicalFilter.structuringElement_ f <> [])
        /\ (forall f, MorphologicalFilter.setStructuringElement old se = Ok f ->
              MorphologicalFilter.operation_ f = MorphologicalFilter.operation_ old
              /\ MorphologicalFilter.structuringElement_ f = se /\ se <> [])
        /\ MorphologicalFilter.operation_ (MorphologicalFilter.setOperation old op) = op
        /\ MorphologicalFilter.structuringElement_ (MorphologicalFilter.setOperation old op)
           = MorphologicalFilter.structuringElement_ old)
  /\ (forall old d i threshold windowSize,
        (OutlierDetection.new d i threshold windowSize = InvalidConfiguration
         <-> (threshold <> NaN /\ ~ is_positive threshold)
             \/ windowSize = 0%nat \/ Nat.Even windowSize)
        /\ (OutlierDetection.setParameters old d i threshold windowSize
            = InvalidConfiguration
            <-> (threshold <> NaN /\ ~ is_positive threshold)
                \/ windowSize = 0%nat \/ Nat.Even windowSize)
        /\ (forall f, OutlierDetection.new d i threshold windowSize = Ok f ->
              OutlierDetection.detectionMethod_ f = d
              /\ OutlierDetection.interpolationMethod_ f = i
              /\ threshold = Finite (OutlierDetection.threshold_ f)
              /\ OutlierDetection.windowSize_ f = windowSize)
        /\ (forall f, OutlierDetection.setParameters old d i threshold windowSize = Ok f ->
              OutlierDetection.detectionMethod_ f = d
              /\ OutlierDetection.interpolationMethod_ f = i
              /\ threshold = Finite (OutlierDetection.threshold_ f)
              /\ OutlierDetection.windowSize_ f = windowSize))
  /\ (forall old windowSize polyOrder,
        (SavgolFilter.new windowSize polyOrder = InvalidConfiguration
         <-> windowSize = 0%nat \/ Nat.Even windowSize \/ (windowSize <= polyOrder)%nat)
        /\ (SavgolFilter.setParameters old windowSize polyOrder = InvalidConfiguration
            <-> windowSize = 0%nat \/ Nat.Even windowSize
                \/ (windowSize <= polyOrder)%nat)
        /\ (forall f, SavgolFilter.new windowSize polyOrder = Ok f ->
              SavgolFilter.windowSize_ f = windowSize
              /\ SavgolFilter.polyOrder_ f = polyOrder
              /\ SavgolFilter.calculateCoefficients windowSize polyOrder
                 = Ok (SavgolFilter.coefficients_ f))
        /\ (forall f, SavgolFilter.setParameters old windowSize polyOrder = Ok f ->
              SavgolFilter.windowSize_ f = windowSize
              /\ SavgolFilter.polyOrder_ f = polyOrder
              /\ SavgolFilter.calculateCoefficients windowSize polyOrder
                 = Ok (SavgolFilter.coefficients_ f)))
  /\ (forall old detector g d i,
        ~ in_open_unit NaN /\ ~ in_half_open_unit NaN /\ ~ is_positive NaN
        /\ WienerFilter.new 1 NaN (qfrac 1 2) g = NonFinite
        /\ WienerFilter.new 1 (qfrac 1 2) NaN g = NonFinite
        /\ WienerFilter.setParameters old 1 NaN (qfrac 1 2) g = NonFinite
        /\ OutlierDetection.new d i NaN 5 = NonFinite
        /\ OutlierDetection.setParameters detector d i NaN 5 = NonFinite)
  /\ (forall p input,
        SignalProcessor.constructed p ->
        SignalProcessor.process p input <> InvalidConfiguration
        /\ SignalProcessor.process p input <> NumericalError).
Proof.
  repeat apply conj.
  - intros windowSize.
    destruct (MedianFilter_setWindowSize_spec windowSize) as [Hiff Hok].
    split; [exact Hiff|]. split; [exact Hiff|]. split; exact Hok.
  - intros old filterOrder mu lambda g.
    destruct (WienerFilter_new_spec filterOrder mu lambda g) as [Hiff Hok].
    rewrite setParameters_is_new. split; [exact Hiff|]. split; [exact Hiff|].
    split; exact Hok.
  - intros old op se size.
    destruct (MorphologicalFilter_new_spec op se) as [Hiff Hok].
    destruct (MorphologicalFilter_new_flat_spec op size) as [Hiff' Hok'].
    split; [exact Hiff|].
    split; [unfold MorphologicalFilter.setStructuringElement;
            destruct se; split; congruence|].
    split; [exact Hiff'|]. split; [exact Hok|]. split; [exact Hok'|].
    split; [|split; reflexivity].
    intros f Hset. unfold MorphologicalFilter.setStructuringElement in Hset.
    destruct se as [|x se]; [discriminate Hset|]. injection Hset as <-.
    repeat split. discriminate.
  - intros old d i threshold windowSize.
    destruct (OutlierDetection_new_spec d i threshold windowSize) as [Hiff Hok].
    destruct (OutlierDetection_setParameters_spec old d i threshold windowSize)
      as [Hiff' Hok'].
    split; [exact Hiff|]. split; [exact Hiff'|]. split; assumption.
  - intros old windowSize polyOrder.
    destruct (SavgolFilter_new_spec windowSize polyOrder) as [Hiff Hok].
    split; [exact Hiff|]. split; [exact Hiff|]. split; exact Hok.
  - intros old detector g d i. repeat split; try (intros Habs; exact Habs).
  - intros p input Hp. exact (SignalProcessor_process_no_throw p input Hp).
Qed.

(** ** The subscripts of the Savitzky-Golay convolution *)

Lemma for_loop_ext {S : Type} (lo hi : nat) (body body' : nat -> S -> S) (s : S) :
  (forall i acc, (lo <= i < hi)%nat -> body i acc = body' i acc) ->
  for_loop lo hi body s = for_loop lo hi body' s.
Proof.
  intros Hext. destruct (Nat.le_gt_cases lo hi) as [Hle|Hgt].
  - apply (for_loop_inv (fun k acc => acc = for_loop lo k body' s)); [exact Hle| |].
    + rewrite for_loop_empty by lia. reflexivity.
    + intros i acc Hi ->. rewrite for_loop_last by lia. apply Hext. exact Hi.
  - rewrite !for_loop_empty by lia. reflexivity.
Qed.

Lemma readIndices_nth (f : SavgolFilter.t) (size centerIndex i : nat) :
  (i < SavgolFilter.windowSize_ f)%nat ->
  nth i (SavgolFilter.readIndices f size centerIndex) 0%Z
  = SavgolFilter.reflectedIndex size
      (Z.of_nat centerIndex - Z.of_nat (SavgolFilter.windowSize_ f / 2) + Z.of_nat i)%Z.
Proof.
  intros Hi. unfold SavgolFilter.readIndices.
  rewrite (nth_indep _ 0%Z
             (SavgolFilter.reflectedIndex size
                (Z.of_nat centerIndex - Z.of_nat (SavgolFilter.windowSize_ f / 2)
                 + Z.of_nat 0)%Z))
    by (rewrite length_map, length_seq; exact Hi).
  rewrite (map_nth (fun i => SavgolFilter.reflectedIndex size
                     (Z.of_nat centerIndex - Z.of_nat (SavgolFilter.windowSize_ f / 2)
                      + Z.of_nat i)%Z)).
  rewrite seq_nth by exact Hi. reflexivity.
Qed.

(** [readIndices] lists the subscripts that [applyFilter] reads: a
    subscript inside the signal gives the sample there, one past the end
    gives no value. *)
Lemma applyFilter_reads (f : SavgolFilter.t) (input : Signal) (centerIndex : nat) :
  SavgolFilter.applyFilter f input centerIndex
  = for_loop 0 (SavgolFilter.windowSize_ f)
      (fun i r =>
         bind r (fun result =>
         let idx := nth i (SavgolFilter.readIndices f (length input) centerIndex) 0%Z in
         if (idx <? Z.of_nat (length input))%Z
         then Ok (result + nth i (SavgolFilter.coefficients_ f) 0
                           * nth (Z.to_nat idx) input 0)
         else OutOfBounds))
      (Ok 0).
Proof.
  unfold SavgolFilter.applyFilter. apply for_loop_ext.
  intros i acc Hi. cbv zeta. rewrite readIndices_nth by lia.
  destruct acc as [result| | | |]; cbn [bind]; try reflexivity.
  unfold SavgolFilter.getReflectedValue. cbv zeta.
  destruct (_ <? _)%Z; reflexivity.
Qed.

(** When the signal is longer than the half window every subscript that
    [applyFilter] reads is inside the signal. *)
Lemma readIndices_in_bounds (f : SavgolFilter.t) (size centerIndex : nat) :
  (centerIndex < size)%nat ->
  (SavgolFilter.windowSize_ f / 2 < size)%nat ->
  Forall (fun idx => (0 <= idx < Z.of_nat size)%Z)
         (SavgolFilter.readIndices f size centerIndex).
Proof.
  intros Hc Hhalf. unfold SavgolFilter.readIndices.
  apply Forall_map, Forall_forall. intros i _.
  set (idx := (Z.of_nat centerIndex - Z.of_nat (SavgolFilter.windowSize_ f / 2)
               + Z.of_nat i)%Z).
  destruct (Z.lt_ge_cases idx 0) as [Hneg|Hpos].
  - rewrite reflectedIndex_left by exact Hneg. subst idx. lia.
  - destruct (Z.lt_ge_cases idx (Z.of_nat size)) as [Hin|Hout].
    + rewrite reflectedIndex_inside by lia. lia.
    + apply reflectedIndex_right; lia.
Qed.

(** C10. The filter of window 5 and order 2 on a signal of one sample
    reads, for the sample at index 0, the subscripts 2, 1, 0, 0, 0: the two
    left reflections are past the end of the signal (the right ones are
    clamped to the first sample). *)
Theorem C10_left_reflection_reads_past_the_end :
  exists f,
    SavgolFilter.new 5 2 = Ok f
    /\ SavgolFilter.readIndices f (length [qz 1]) 0 = [2; 1; 0; 0; 0]%Z
    /\ SavgolFilter.reflectedIndex (length [qz 1]) (-2) = 2%Z
    /\ ~ Forall (fun idx => (0 <= idx < Z.of_nat (length [qz 1]))%Z)
                (SavgolFilter.readIndices f (length [qz 1]) 0).
Proof.
  destruct (SavgolFilter.new 5 2) as [f| | | |] eqn:Hnew;
    try (vm_compute in Hnew; discriminate Hnew).
  destruct (SavgolFilter_new_spec 5 2) as [_ Hok].
  destruct (Hok f Hnew) as (Hw & _ & _).
  assert (Hreads : SavgolFilter.readIndices f (length [qz 1]) 0 = [2; 1; 0; 0; 0]%Z).
  { unfold SavgolFilter.readIndices. rewrite Hw. reflexivity. }
  exists f. repeat split; [exact Hreads|].
  rewrite Hreads. intros Hall. inversion Hall as [|? ? Hhead _]. simpl in Hhead. lia.
Qed.

(** ** Morphological opening with a flat element *)

Lemma std_min_spec (a b : Qc) :
  std_min a b ≤ a /\ std_min a b ≤ b /\ (std_min a b = a \/ std_min a b = b).
Proof.
  unfold std_min. destruct (ltb b a) eqn:Hlt.
  - apply ltb_lt in Hlt. repeat split; [apply Qclt_le_weak, Hlt|apply Qcle_refl|right; reflexivity].
  - apply ltb_nlt in Hlt. repeat split; [apply Qcle_refl|exact Hlt|left; reflexivity].
Qed.

Lemma std_max_spec (a b : Qc) :
  a ≤ std_max a b /\ b ≤ std_max a b /\ (std_max a b = a \/ std_max a b = b).
Proof.
  unfold std_max. destruct (ltb a b) eqn:Hlt.
  - apply ltb_lt in Hlt. repeat split; [apply Qclt_le_weak, Hlt|apply Qcle_refl|right; reflexivity].
  - apply ltb_nlt in Hlt. repeat split; [apply Qcle_refl|exact Hlt|left; reflexivity].
Qed.

Lemma covers_self (m n i : nat) : (0 < m)%nat -> (i < n)%nat -> covers m n i i.
Proof.
  intros Hm Hi. unfold covers. repeat split; [exact Hi|lia|].
  pose proof (Nat.div_lt m 2 Hm). lia.
Qed.

(** An element of odd size covers [k] from [i] when it covers [i] from
    [k]. *)
Lemma covers_sym (m n i k : nat) :
  Nat.Odd m -> (i < n)%nat -> covers m n i k -> covers m n k i.
Proof.
  intros [h ->] Hi (Hk & Hlo & Hhi). unfold covers in *.
  replace ((2 * h + 1) / 2)%nat with h in *
    by (apply (Nat.div_unique _ 2 h 1); lia).
  repeat split; lia.
Qed.

Section FlatElement.

Variable f : MorphologicalFilter.t.
Hypothesis flat : Forall (fun e => e = 0) (MorphologicalFilter.structuringElement_ f).

Let m := length (MorphologicalFilter.structuringElement_ f).

Lemma flat_nth (j : nat) : nth j (MorphologicalFilter.structuringElement_ f) 0 = 0.
Proof.
  destruct (nth_in_or_default j (MorphologicalFilter.structuringElement_ f) 0)
    as [Hin|Hd]; [|exact Hd].
  rewrite Forall_forall in flat. apply flat. apply list_elem_of_In. exact Hin.
Qed.

Lemma inSignal_spec (x : Signal) (i j : nat) :
  MorphologicalFilter.inSignal x (MorphologicalFilter.signalIndex i (m / 2) j) = true
  <-> exists k, (k < length x)%nat /\ (k + m / 2 = i + j)%nat
                /\ Z.to_nat (MorphologicalFilter.signalIndex i (m / 2) j) = k.
Proof.
  unfold MorphologicalFilter.inSignal, MorphologicalFilter.signalIndex.
  rewrite andb_true_iff, Z.leb_le, Z.ltb_lt. split.
  - intros [Hlo Hhi]. exists (Z.to_nat (Z.of_nat i - Z.of_nat (m / 2) + Z.of_nat j)).
    split; [lia|]. split; [lia|reflexivity].
  - intros (k & Hk & Hsum & Hto). lia.
Qed.

(** The erosion at [i] is a lower bound of the covered samples, and it is
    one of them. *)
Lemma erodeAt_flat (x : Signal) (i : nat) :
  finite x -> (0 < m)%nat -> (i < length x)%nat ->
  (forall k, covers m (length x) i k -> MorphologicalFilter.erodeAt f x i ≤ nth k x 0)
  /\ exists k, covers m (length x) i k /\ MorphologicalFilter.erodeAt f x i = nth k x 0.
Proof.
  intros Hfin Hm Hi. unfold MorphologicalFilter.erodeAt. fold m.
  set (body := fun (j : nat) (minVal : Qc) =>
                 if MorphologicalFilter.inSignal x (MorphologicalFilter.signalIndex i (m / 2) j)
                 then std_min minVal
                        (nth (Z.to_nat (MorphologicalFilter.signalIndex i (m / 2) j)) x 0
                         - nth j (MorphologicalFilter.structuringElement_ f) 0)
                 else minVal).
  assert (Hinv :
    let v := for_loop 0 m body DBL_MAX in
    v ≤ DBL_MAX
    /\ (forall k, (k < length x)%nat -> (i <= k + m / 2)%nat -> (k + m / 2 < i + m)%nat ->
                  v ≤ nth k x 0)
    /\ (v = DBL_MAX
        \/ exists k, (k < length x)%nat /\ (i <= k + m / 2)%nat
                     /\ (k + m / 2 < i + m)%nat /\ v = nth k x 0)).
  { apply (for_loop_inv
             (fun j v =>
                v ≤ DBL_MAX
                /\ (forall k, (k < length x)%nat -> (i <= k + m / 2)%nat ->
                              (k + m / 2 < i + j)%nat -> v ≤ nth k x 0)
                /\ (v = DBL_MAX
                    \/ exists k, (k < length x)%nat /\ (i <= k + m / 2)%nat
                                 /\ (k + m / 2 < i + j)%nat /\ v = nth k x 0)));
      [lia| |].
    - split; [apply Qcle_refl|]. split; [intros; lia|left; reflexivity].
    - intros j v Hj (Hmax & Hlow & Hatt). unfold body.
      destruct (MorphologicalFilter.inSignal x _) eqn:Hin.
      + apply inSignal_spec in Hin. destruct Hin as (k0 & Hk0 & Hsum & ->).
        rewrite flat_nth.
        replace (nth k0 x 0 - 0) with (nth k0 x 0) by ring.
        destruct (std_min_spec v (nth k0 x 0)) as (Hle1 & Hle2 & Hcase).
        split; [eapply Qcle_trans; [exact Hle1|exact Hmax]|]. split.
        * intros k Hk Hlo Hhi.
          destruct (decide (k = k0)) as [->|Hne]; [exact Hle2|].
          eapply Qcle_trans; [exact Hle1|]. apply Hlow; lia.
        * destruct Hcase as [->| ->].
          -- destruct Hatt as [Hv|(k & Hk & Hlo & Hhi & Hv)]; [left; exact Hv|].
             right. exists k. repeat split; try assumption. lia.
          -- right. exists k0. repeat split; try assumption; lia.
      + split; [exact Hmax|]. split.
        * intros k Hk Hlo Hhi.
          destruct (decide (k + m / 2 = i + j)%nat) as [Heq|Hne]; [|apply Hlow; lia].
          assert (Hin' : MorphologicalFilter.inSignal x
                           (MorphologicalFilter.signalIndex i (m / 2) j) = true).
          { apply inSignal_spec. exists k. repeat split; [exact Hk|exact Heq|].
            unfold MorphologicalFilter.signalIndex. lia. }
          congruence.
        * destruct Hatt as [Hv|(k & Hk & Hlo & Hhi & Hv)]; [left; exact Hv|].
          right. exists k. repeat split; try assumption. lia. }
  fold body. cbv zeta in Hinv. destruct Hinv as (Hmax & Hlow & Hatt).
  destruct (eqb (for_loop 0 m body DBL_MAX) DBL_MAX) eqn:Heq.
  - apply eqb_eq in Heq.
    assert (Hxi : nth i x 0 = DBL_MAX).
    { apply Qcle_antisym; [apply Hfin; exact Hi|].
      rewrite <- Heq. destruct (covers_self m (length x) i Hm Hi) as (? & ? & ?).
      apply Hlow; assumption. }
    split.
    + intros k (Hk & Hlo & Hhi). rewrite Hxi, <- Heq. apply Hlow; assumption.
    + exists i. split; [apply covers_self; assumption|reflexivity].
  - split.
    + intros k (Hk & Hlo & Hhi). apply Hlow; assumption.
    + destruct Hatt as [Hv|(k & Hk & Hlo & Hhi & Hv)].
      * apply eqb_eq in Hv. congruence.
      * exists k. split; [repeat split; assumption|exact Hv].
Qed.

(** The dilation at [i] is an upper bound of the covered samples, and it
    is one of them. *)
Lemma dilateAt_flat (x : Signal) (i : nat) :
  finite x -> (0 < m)%nat -> (i < length x)%nat ->
  (forall k, covers m (length x) i k -> nth k x 0 ≤ MorphologicalFilter.dilateAt f x i)
  /\ exists k, covers m (length x) i k /\ MorphologicalFilter.dilateAt f x i = nth k x 0.
Proof.
  intros Hfin Hm Hi. unfold MorphologicalFilter.dilateAt. fold m.
  set (body := fun (j : nat) (maxVal : Qc) =>
                 if MorphologicalFilter.inSignal x (MorphologicalFilter.signalIndex i (m / 2) j)
                 then std_max maxVal
                        (nth (Z.to_nat (MorphologicalFilter.signalIndex i (m / 2) j)) x 0
                         + nth j (MorphologicalFilter.structuringElement_ f) 0)
                 else maxVal).
  assert (Hinv :
    let v := for_loop 0 m body DBL_LOWEST in
    DBL_LOWEST ≤ v
    /\ (forall k, (k < length x)%nat -> (i <= k + m / 2)%nat -> (k + m / 2 < i + m)%nat ->
                  nth k x 0 ≤ v)
    /\ (v = DBL_LOWEST
        \/ exists k, (k < length x)%nat /\ (i <= k + m / 2)%nat
                     /\ (k + m / 2 < i + m)%nat /\ v = nth k x 0)).
  { apply (for_loop_inv
             (fun j v =>
                DBL_LOWEST ≤ v
                /\ (forall k, (k < length x)%nat -> (i <= k + m / 2)%nat ->
                              (k + m / 2 < i + j)%nat -> nth k x 0 ≤ v)
                /\ (v = DBL_LOWEST
                    \/ exists k, (k < length x)%nat /\ (i <= k + m / 2)%nat
                                 /\ (k + m / 2 < i + j)%nat /\ v = nth k x 0)));
      [lia| |].
    - split; [apply Qcle_refl|]. split; [intros; lia|left; reflexivity].
    - intros j v Hj (Hmin & Hup & Hatt). unfold body.
      destruct (MorphologicalFilter.inSignal x _) eqn:Hin.
      + apply inSignal_spec in Hin. destruct Hin as (k0 & Hk0 & Hsum & ->).
        rewrite flat_nth.
        replace (nth k0 x 0 + 0) with (nth k0 x 0) by ring.
        destruct (std_max_spec v (nth k0 x 0)) as (Hle1 & Hle2 & Hcase).
        split; [eapply Qcle_trans; [exact Hmin|exact Hle1]|]. split.
        * intros k Hk Hlo Hhi.
          destruct (decide (k = k0)) as [->|Hne]; [exact Hle2|].
          eapply Qcle_trans; [|exact Hle1]. apply Hup; lia.
        * destruct Hcase as [->| ->].
          -- destruct Hatt as [Hv|(k & Hk & Hlo & Hhi & Hv)]; [left; exact Hv|].
             right. exists k. repeat split; try assumption. lia.
          -- right. exists k0. repeat split; try assumption; lia.
      + split; [exact Hmin|]. split.
        * intros k Hk Hlo Hhi.
          destruct (decide (k + m / 2 = i + j)%nat) as [Heq|Hne]; [|apply Hup; lia].
          assert (Hin' : MorphologicalFilter.inSignal x
                           (MorphologicalFilter.signalIndex i (m / 2) j) = true).
          { apply inSignal_spec. exists k. repeat split; [exact Hk|exact Heq|].
            unfold MorphologicalFilter.signalIndex. lia. }
          congruence.
        * destruct Hatt as [Hv|(k & Hk & Hlo & Hhi & Hv)]; [left; exact Hv|].
          right. exists k. repeat split; try assumption. lia. }
  fold body. cbv zeta in Hinv. destruct Hinv as (Hmin & Hup & Hatt).
  destruct (eqb (for_loop 0 m body DBL_LOWEST) DBL_LOWEST) eqn:Heq.
  - apply eqb_eq in Heq.
    assert (Hxi : nth i x 0 = DBL_LOWEST).
    { apply Qcle_antisym; [|apply Hfin; exact Hi].
      rewrite <- Heq. destruct (covers_self m (length x) i Hm Hi) as (? & ? & ?).
      apply Hup; assumption. }
    split.
    + intros k (Hk & Hlo & Hhi). rewrite Hxi, <- Heq. apply Hup; assumption.
    + exists i. split; [apply covers_self; assumption|reflexivity].
  - split.
    + intros k (Hk & Hlo & Hhi). apply Hup; assumption.
    + destruct Hatt as [Hv|(k & Hk & Hlo & Hhi & Hv)].
      * apply eqb_eq in Hv. congruence.
      * exists k. split; [repeat split; assumption|exact Hv].
Qed.

Lemma erosion_nth (x : Signal) (i : nat) :
  (i < length x)%nat ->
  nth i (MorphologicalFilter.erosion f x) 0 = MorphologicalFilter.erodeAt f x i.
Proof. intros Hi. unfold MorphologicalFilter.erosion. apply for_loop_push_nth. exact Hi. Qed.

Lemma dilation_nth (x : Signal) (i : nat) :
  (i < length x)%nat ->
  nth i (MorphologicalFilter.dilation f x) 0 = MorphologicalFilter.dilateAt f x i.
Proof. intros Hi. unfold MorphologicalFilter.dilation. apply for_loop_push_nth. exact Hi. Qed.

Lemma erosion_finite (x : Signal) :
  finite x -> (0 < m)%nat -> finite (MorphologicalFilter.erosion f x).
Proof.
  intros Hfin Hm k Hk. rewrite erosion_length in Hk. rewrite erosion_nth by exact Hk.
  destruct (erodeAt_flat x k Hfin Hm Hk) as [_ (k' & (Hk' & _) & ->)].
  apply Hfin. exact Hk'.
Qed.

Lemma dilation_finite (x : Signal) :
  finite x -> (0 < m)%nat -> finite (MorphologicalFilter.dilation f x).
Proof.
  intros Hfin Hm k Hk. rewrite dilation_length in Hk. rewrite dilation_nth by exact Hk.
  destruct (dilateAt_flat x k Hfin Hm Hk) as [_ (k' & (Hk' & _) & ->)].
  apply Hfin. exact Hk'.
Qed.

(** With an element of odd size, eroding the dilation of an erosion
    gives the erosion back. *)
Lemma erosion_dilation_erosion (x : Signal) :
  finite x -> Nat.Odd m ->
  MorphologicalFilter.erosion f
    (MorphologicalFilter.dilation f (MorphologicalFilter.erosion f x))
  = MorphologicalFilter.erosion f x.
Proof.
  intros Hfin Hodd.
  assert (Hm : (0 < m)%nat) by (destruct Hodd as [h Hh]; lia).
  set (e := MorphologicalFilter.erosion f x).
  set (d := MorphologicalFilter.dilation f e).
  assert (Hle : length e = length x) by apply erosion_length.
  assert (Hld : length d = length x) by (unfold d; rewrite dilation_length; exact Hle).
  assert (Hfe : finite e) by (apply erosion_finite; assumption).
  assert (Hfd : finite d) by (apply dilation_finite; assumption).
  assert (He : forall j, (j < length x)%nat ->
                         nth j e 0 = MorphologicalFilter.erodeAt f x j)
    by (intros j Hj; apply erosion_nth; exact Hj).
  assert (Hd : forall j, (j < length x)%nat ->
                         nth j d 0 = MorphologicalFilter.dilateAt f e j)
    by (intros j Hj; apply dilation_nth; lia).
  apply (nth_ext _ _ 0 0); [rewrite erosion_length; lia|].
  intros i Hi. rewrite erosion_length, Hld in Hi.
  rewrite erosion_nth by lia. rewrite He by exact Hi.
  destruct (erodeAt_flat d i Hfd Hm ltac:(lia)) as [Hlow (k & Hk & Hatt)].
  rewrite Hld in Hlow, Hk.
  destruct (erodeAt_flat x i Hfin Hm Hi) as [Hlow0 (k0 & Hk0 & Hatt0)].
  apply Qcle_antisym.
  - (* the opening lies below the signal at [k0] *)
    rewrite Hatt0. eapply Qcle_trans; [apply Hlow; exact Hk0|].
    assert (Hk0n : (k0 < length x)%nat) by (destruct Hk0; assumption).
    rewrite Hd by exact Hk0n.
    destruct (dilateAt_flat e k0 Hfe Hm ltac:(lia)) as [_ (k1 & Hk1 & ->)].
    rewrite Hle in Hk1.
    assert (Hk1n : (k1 < length x)%nat) by (destruct Hk1; assumption).
    rewrite He by exact Hk1n.
    destruct (erodeAt_flat x k1 Hfin Hm Hk1n) as [Hlow1 _].
    apply Hlow1. apply covers_sym; assumption.
  - (* the dilation at [k] lies above the erosion at [i] *)
    rewrite Hatt.
    assert (Hkn : (k < length x)%nat) by (destruct Hk; assumption).
    rewrite Hd by exact Hkn.
    destruct (dilateAt_flat e k Hfe Hm ltac:(lia)) as [Hup _].
    rewrite Hle in Hup. rewrite <- He by exact Hi.
    apply Hup. apply covers_sym; assumption.
Qed.

End FlatElement.

Lemma opening_unfold (f : MorphologicalFilter.t) (x : Signal) :
  MorphologicalFilter.structuringElement_ f <> [] ->
  MorphologicalFilter.opening f x
  = Ok (MorphologicalFilter.dilation f (MorphologicalFilter.erosion f x)).
Proof.
  intros Hse. unfold MorphologicalFilter.opening.
  rewrite MorphologicalFilter_new_ok by exact Hse. reflexivity.
Qed.

Lemma finiteb_finite (x : Signal) : finiteb x = true -> finite x.
Proof.
  unfold finiteb. rewrite forallb_forall. intros Hall k Hk.
  specialize (Hall (nth k x 0) (nth_In x 0 Hk)).
  apply andb_true_iff in Hall. destruct Hall as [Hlo Hhi].
  split; apply leb_le; assumption.
Qed.

(** C6, counterexample. With the flat element of size 2 the opening of
    [1,0,0] is [1,1,0] and the opening of that is [1,1,1]: opening twice
    is not opening once. *)
Lemma C6_opening_twice_differs_for_even_element :
  exists f,
    MorphologicalFilter.new_flat MorphologicalFilter.OPENING 2 = Ok f
    /\ Forall (fun e => e = 0) (MorphologicalFilter.structuringElement_ f)
    /\ finite (map qz [1; 0; 0]%Z)
    /\ MorphologicalFilter.opening f (map qz [1; 0; 0]%Z) = Ok (map qz [1; 1; 0]%Z)
    /\ MorphologicalFilter.opening f (map qz [1; 1; 0]%Z) = Ok (map qz [1; 1; 1]%Z)
    /\ map qz [1; 1; 0]%Z <> map qz [1; 1; 1]%Z.
Proof.
  eexists. split; [reflexivity|]. split; [repeat constructor|].
  split; [apply finiteb_finite; vm_compute; reflexivity|].
  split; [rewrite opening_unfold by discriminate; f_equal; qc_eval|].
  split; [rewrite opening_unfold by discriminate; f_equal; qc_eval|].
  intros Heq. apply (f_equal (map this)) in Heq. vm_compute in Heq. discriminate Heq.
Qed.

(** C6, amended. For a flat structuring element of odd size and a signal
    of finite samples, the opening (erosion, then dilation with the same
    element) returns a signal that the opening leaves as it is. *)
Theorem C6_opening_idempotent_for_odd_flat_element
    (f : MorphologicalFilter.t) (x : Signal) :
  Forall (fun e => e = 0) (MorphologicalFilter.structuringElement_ f) ->
  Nat.Odd (length (MorphologicalFilter.structuringElement_ f)) ->
  finite x ->
  exists y,
    MorphologicalFilter.opening f x = Ok y
    /\ MorphologicalFilter.opening f y = Ok y.
Proof.
  intros Hflat Hodd Hfin.
  assert (Hse : MorphologicalFilter.structuringElement_ f <> []).
  { intros Hnil. rewrite Hnil in Hodd. destruct Hodd as [h Hh]. simpl in Hh. lia. }
  exists (MorphologicalFilter.dilation f (MorphologicalFilter.erosion f x)).
  split; [apply opening_unfold; exact Hse|].
  rewrite opening_unfold by exact Hse.
  rewrite erosion_dilation_erosion by assumption. reflexivity.
Qed.

(** C6 at the flat element of size 3 and the signal [1,2,100,2,1]. *)
Lemma C6_opening_idempotent_for_odd_flat_element_witness :
  exists y,
    MorphologicalFilter.opening opening3 spike5 = Ok y
    /\ MorphologicalFilter.opening opening3 y = Ok y.
Proof.
  apply (C6_opening_idempotent_for_odd_flat_element opening3 spike5).
  - repeat constructor.
  - exists 1%nat. reflexivity.
  - apply finiteb_finite. vm_compute. reflexivity.
Defined.

(** ** Matrices as vectors of rows *)

Lemma mget_mset (n : nat) (m : SavgolFilter.Matrix) (r c r' c' : nat) (v : Qc) :
  square n m -> (r < n)%nat -> (c < n)%nat ->
  SavgolFilter.mget (SavgolFilter.mset m r c v) r' c'
  = if decide (r' = r /\ c' = c) then v else SavgolFilter.mget m r' c'.
Proof.
  intros [Hlen Hrows] Hr Hc. unfold SavgolFilter.mget, SavgolFilter.mset.
  destruct (decide (r' = r)) as [->|Hne].
  - rewrite nth_insert_eq by lia. rewrite nth_insert.
    rewrite Hrows by exact Hr.
    destruct (decide (c' = c /\ (c < n)%nat)) as [[-> _]|Hn].
    + rewrite decide_True by (split; reflexivity). reflexivity.
    + rewrite decide_False by (intros [_ ->]; apply Hn; split; [reflexivity|exact Hc]).
      reflexivity.
  - rewrite nth_insert_ne by exact Hne.
    rewrite decide_False by (intros [? _]; contradiction). reflexivity.
Qed.

Lemma square_mset (n : nat) (m : SavgolFilter.Matrix) (r c : nat) (v : Qc) :
  square n m -> square n (SavgolFilter.mset m r c v).
Proof.
  intros [Hlen Hrows]. unfold SavgolFilter.mset. split.
  - rewrite length_insert. exact Hlen.
  - intros r' Hr'. rewrite nth_insert.
    destruct (decide (r' = r /\ (r < length m)%nat)) as [[-> _]|_].
    + rewrite length_insert. apply Hrows. exact Hr'.
    + apply Hrows. exact Hr'.
Qed.

Lemma nth_swap {A : Type} (d : A) (v : list A) (a b j : nat) :
  (a < length v)%nat -> (b < length v)%nat ->
  nth j (SavgolFilter.swap d v a b) d
  = if decide (j = b) then nth a v d
    else if decide (j = a) then nth b v d else nth j v d.
Proof.
  intros Ha Hb. unfold SavgolFilter.swap.
  destruct (decide (j = b)) as [->|Hnb].
  - rewrite nth_insert_eq by (rewrite length_insert; exact Hb). reflexivity.
  - rewrite nth_insert_ne by exact Hnb.
    destruct (decide (j = a)) as [->|Hna].
    + apply nth_insert_eq. exact Ha.
    + apply nth_insert_ne. exact Hna.
Qed.

Lemma length_swap {A : Type} (d : A) (v : list A) (a b : nat) :
  length (SavgolFilter.swap d v a b) = length v.
Proof. unfold SavgolFilter.swap. rewrite !length_insert. reflexivity. Qed.

(** ** Gaussian elimination solves the system *)

Section Gauss.

Variable n : nat.

Lemma findMaxRow_bounds (m : SavgolFilter.Matrix) (i : nat) :
  (i < n)%nat -> (i <= SavgolFilter.findMaxRow n m i < n)%nat.
Proof.
  intros Hi. unfold SavgolFilter.findMaxRow.
  assert (Hinv : let v := for_loop (i + 1) n
                    (fun k maxRow =>
                       if ltb (Qcabs (SavgolFilter.mget m maxRow i))
                              (Qcabs (SavgolFilter.mget m k i))
                       then k else maxRow) i in
                 (i <= v < n)%nat).
  { apply (for_loop_inv (fun k v => (i <= v < k)%nat)); [lia|lia|].
    intros k v Hk Hv. destruct (ltb _ _); lia. }
  exact Hinv.
Qed.

(** The inner loop of the elimination: row [k] loses [factor] times row
    [i], from column [i] on. *)
Lemma eliminate_row (m : SavgolFilter.Matrix) (k i : nat) (factor : Qc) :
  square n m -> (k < n)%nat -> (i < n)%nat -> k <> i ->
  let m' := for_loop i n
              (fun j m => SavgolFilter.mset m k j
                            (SavgolFilter.mget m k j - factor * SavgolFilter.mget m i j))
              m in
  square n m'
  /\ forall r c,
       SavgolFilter.mget m' r c
       = if decide (r = k /\ (i <= c < n)%nat)
         then SavgolFilter.mget m k c - factor * SavgolFilter.mget m i c
         else SavgolFilter.mget m r c.
Proof.
  intros Hsq Hk Hi Hki.
  pose (P := fun (j : nat) (m' : list (list Qc)) =>
               square n m'
               /\ forall r c,
                    SavgolFilter.mget m' r c
                    = if decide (r = k /\ (i <= c < j)%nat)
                      then SavgolFilter.mget m k c - factor * SavgolFilter.mget m i c
                      else SavgolFilter.mget m r c).
  apply (for_loop_inv P); unfold P; [lia| |].
  - split; [exact Hsq|]. intros r c.
    rewrite decide_False by lia. reflexivity.
  - intros j m' Hj [Hsq' Hget]. split; [apply square_mset; exact Hsq'|].
    intros r c. rewrite (mget_mset n) by (try assumption; lia).
    rewrite !Hget.
    rewrite (decide_False (P := k = k /\ (i <= j < j)%nat)) by lia.
    rewrite (decide_False (P := i = k /\ (i <= j < j)%nat)) by lia.
    destruct (decide (r = k /\ c = j)) as [[-> ->]|Hn].
    + rewrite decide_True by lia. reflexivity.
    + destruct (decide (r = k /\ (i <= c < j)%nat)) as [Hin|Hout].
      * rewrite decide_True by lia. reflexivity.
      * rewrite decide_False by lia. reflexivity.
Qed.

(** The whole elimination step of column [i]. *)
Lemma eliminate_spec (m : SavgolFilter.Matrix) (rhs : list Qc) (i : nat) :
  square n m -> length rhs = n -> (i < n)%nat ->
  let '(m', rhs') := SavgolFilter.eliminate n i (m, rhs) in
  square n m' /\ length rhs' = n
  /\ (forall r c,
        SavgolFilter.mget m' r c
        = if decide ((i < r < n)%nat /\ (i <= c < n)%nat)
          then SavgolFilter.mget m r c
               - SavgolFilter.mget m r i / SavgolFilter.mget m i i * SavgolFilter.mget m i c
          else SavgolFilter.mget m r c)
  /\ (forall r,
        nth r rhs' 0
        = if decide (i < r < n)%nat
          then nth r rhs 0
               - SavgolFilter.mget m r i / SavgolFilter.mget m i i * nth i rhs 0
          else nth r rhs 0).
Proof.
  intros Hsq Hrhs Hi. unfold SavgolFilter.eliminate.
  assert (Hinv :
    let st := for_loop (i + 1) n
      (fun k '(matrix, rhs) =>
         let factor := SavgolFilter.mget matrix k i / SavgolFilter.mget matrix i i in
         let matrix :=
           for_loop i n
             (fun j m => SavgolFilter.mset m k j
                           (SavgolFilter.mget m k j - factor * SavgolFilter.mget m i j))
             matrix in
         (matrix, <[k := nth k rhs 0 - factor * nth i rhs 0]> rhs))
      (m, rhs) in
    square n (fst st) /\ length (snd st) = n
    /\ (forall r c,
          SavgolFilter.mget (fst st) r c
          = if decide ((i < r < n)%nat /\ (i <= c < n)%nat)
            then SavgolFilter.mget m r c
                 - SavgolFilter.mget m r i / SavgolFilter.mget m i i
                   * SavgolFilter.mget m i c
            else SavgolFilter.mget m r c)
    /\ (forall r,
          nth r (snd st) 0
          = if decide (i < r < n)%nat
            then nth r rhs 0
                 - SavgolFilter.mget m r i / SavgolFilter.mget m i i * nth i rhs 0
            else nth r rhs 0)).
  { pose (P := fun (k : nat) (st : list (list Qc) * list Qc) =>
         square n (fst st) /\ length (snd st) = n
         /\ (forall r c,
               SavgolFilter.mget (fst st) r c
               = if decide ((i < r < k)%nat /\ (i <= c < n)%nat)
                 then SavgolFilter.mget m r c
                      - SavgolFilter.mget m r i / SavgolFilter.mget m i i
                        * SavgolFilter.mget m i c
                 else SavgolFilter.mget m r c)
         /\ (forall r,
               nth r (snd st) 0
               = if decide (i < r < k)%nat
                 then nth r rhs 0
                      - SavgolFilter.mget m r i / SavgolFilter.mget m i i * nth i rhs 0
                 else nth r rhs 0)).
    apply (for_loop_inv P); unfold P; [lia| |].
    - simpl. split; [exact Hsq|]. split; [exact Hrhs|]. split.
      + intros r c. rewrite decide_False by lia. reflexivity.
      + intros r. rewrite decide_False by lia. reflexivity.
    - intros k [m1 r1] Hk (Hsq1 & Hr1 & Hget & Hrget). simpl in Hsq1, Hr1, Hget, Hrget.
      assert (Hki : SavgolFilter.mget m1 k i = SavgolFilter.mget m k i)
        by (rewrite Hget, decide_False by lia; reflexivity).
      assert (Hii : SavgolFilter.mget m1 i i = SavgolFilter.mget m i i)
        by (rewrite Hget, decide_False by lia; reflexivity).
      destruct (eliminate_row m1 k i
                  (SavgolFilter.mget m1 k i / SavgolFilter.mget m1 i i)
                  Hsq1 ltac:(lia) Hi ltac:(lia)) as [Hsq2 Hget2].
      cbv zeta. simpl fst. simpl snd.
      split; [exact Hsq2|]. split; [rewrite length_insert; exact Hr1|]. split.
      + intros r c. rewrite Hget2, Hki, Hii, !Hget.
        rewrite (decide_False (P := (i < k < k)%nat /\ (i <= c < n)%nat)) by lia.
        rewrite (decide_False (P := (i < i < k)%nat /\ (i <= c < n)%nat)) by lia.
        destruct (decide (r = k /\ (i <= c < n)%nat)) as [[-> Hc]|Hn].
        * rewrite decide_True by lia. reflexivity.
        * destruct (decide ((i < r < k)%nat /\ (i <= c < n)%nat)) as [Hin|Hout].
          -- rewrite decide_True by lia. reflexivity.
          -- rewrite decide_False by lia. reflexivity.
      + intros r. rewrite nth_insert, Hr1, !Hrget, Hki, Hii.
        rewrite (decide_False (P := (i < k < k)%nat)) by lia.
        rewrite (decide_False (P := (i < i < k)%nat)) by lia.
        destruct (decide (r = k /\ (k < n)%nat)) as [[-> _]|Hn].
        * rewrite decide_True by lia. reflexivity.
        * destruct (decide (i < r < k)%nat) as [Hin|Hout].
          -- rewrite decide_True by lia. reflexivity.
          -- rewrite decide_False by lia. reflexivity. }
  cbv zeta in Hinv.
  match type of Hinv with
  | context [for_loop ?a ?b ?c ?d] => destruct (for_loop a b c d) as [m' rhs']
  end.
  exact Hinv.
Qed.

Lemma swap_rows_spec (m : SavgolFilter.Matrix) (i p : nat) :
  square n m -> (i < n)%nat -> (p < n)%nat ->
  square n (SavgolFilter.swap [] m i p)
  /\ forall r c,
       SavgolFilter.mget (SavgolFilter.swap [] m i p) r c
       = if decide (r = p) then SavgolFilter.mget m i c
         else if decide (r = i) then SavgolFilter.mget m p c
              else SavgolFilter.mget m r c.
Proof.
  intros [Hlen Hrows] Hi Hp. split.
  - split; [rewrite length_swap; exact Hlen|].
    intros r Hr. rewrite nth_swap by lia.
    destruct (decide (r = p)); [apply Hrows; lia|].
    destruct (decide (r = i)); apply Hrows; lia.
  - intros r c. unfold SavgolFilter.mget. rewrite nth_swap by lia.
    destruct (decide (r = p)); [reflexivity|]. destruct (decide (r = i)); reflexivity.
Qed.

Lemma row_dot_ext (m m' : SavgolFilter.Matrix) (r r' : nat) (s : list Qc) :
  (forall c, (c < n)%nat -> SavgolFilter.mget m r c = SavgolFilter.mget m' r' c) ->
  row_dot n m r s = row_dot n m' r' s.
Proof.
  intros Hext. unfold row_dot. apply sum_upto_ext.
  intros c Hc. rewrite Hext by exact Hc. reflexivity.
Qed.

(** Swapping the rows [i] and [p] of the system keeps its solutions and
    the zeros left of column [i]. *)
Lemma swap_preserves (m : SavgolFilter.Matrix) (rhs : list Qc) (i p : nat) :
  (i <= p < n)%nat -> square n m -> length rhs = n ->
  zeros_below n i m -> pivots i m ->
  square n (SavgolFilter.swap [] m i p)
  /\ length (SavgolFilter.swap 0 rhs i p) = n
  /\ (forall s, solves n (SavgolFilter.swap [] m i p) (SavgolFilter.swap 0 rhs i p) s ->
                solves n m rhs s)
  /\ zeros_below n i (SavgolFilter.swap [] m i p)
  /\ pivots i (SavgolFilter.swap [] m i p).
Proof.
  intros Hp Hsq Hrhs Hz Hpiv.
  destruct (swap_rows_spec m i p Hsq ltac:(lia) ltac:(lia)) as [Hsq1 Hget].
  split; [exact Hsq1|]. split; [rewrite length_swap; exact Hrhs|]. split; [|split].
  - intros s Hs r Hr.
    destruct (decide (r = i)) as [->|Hni].
    + specialize (Hs p ltac:(lia)). rewrite nth_swap in Hs by lia.
      rewrite decide_True in Hs by reflexivity. rewrite <- Hs.
      apply row_dot_ext. intros c Hc. rewrite Hget, decide_True by reflexivity.
      reflexivity.
    + destruct (decide (r = p)) as [->|Hnp].
      * specialize (Hs i ltac:(lia)). rewrite nth_swap in Hs by lia.
        rewrite decide_False, decide_True in Hs by (reflexivity || lia). rewrite <- Hs.
        apply row_dot_ext. intros c Hc.
        rewrite Hget, decide_False, decide_True by (reflexivity || lia). reflexivity.
      * specialize (Hs r Hr). rewrite nth_swap in Hs by lia.
        rewrite !decide_False in Hs by assumption. rewrite <- Hs.
        apply row_dot_ext. intros c Hc.
        rewrite Hget, !decide_False by assumption. reflexivity.
  - intros r c Hr Hc Hcr. rewrite Hget.
    destruct (decide (r = p)); [apply Hz; lia|].
    destruct (decide (r = i)); apply Hz; lia.
  - intros r Hr. rewrite Hget, !decide_False by lia. apply Hpiv. exact Hr.
Qed.

(** Eliminating column [i] below a pivot that is not zero keeps the
    solutions and clears the column. *)
Lemma eliminate_preserves (m : SavgolFilter.Matrix) (rhs : list Qc) (i : nat) :
  (i < n)%nat -> square n m -> length rhs = n ->
  zeros_below n i m -> pivots i m -> SavgolFilter.mget m i i <> 0 ->
  let '(m', rhs') := SavgolFilter.eliminate n i (m, rhs) in
  square n m' /\ length rhs' = n
  /\ (forall s, solves n m' rhs' s -> solves n m rhs s)
  /\ zeros_below n (S i) m' /\ pivots (S i) m'.
Proof.
  intros Hi Hsq Hrhs Hz Hpiv Hii.
  pose proof (eliminate_spec m rhs i Hsq Hrhs Hi) as Hspec.
  destruct (SavgolFilter.eliminate n i (m, rhs)) as [m' rhs'].
  destruct Hspec as (Hsq' & Hrhs' & Hget & Hrget).
  split; [exact Hsq'|]. split; [exact Hrhs'|]. split; [|split].
  - intros s Hs r Hr.
    destruct (decide (i < r)%nat) as [Hir|Hri].
    + pose proof (Hs r Hr) as Hrow. pose proof (Hs i Hi) as Hrowi.
      rewrite Hrget, decide_True in Hrow by lia.
      rewrite Hrget, decide_False in Hrowi by lia.
      assert (Hsame : row_dot n m' i s = row_dot n m i s).
      { apply row_dot_ext. intros c Hc. rewrite Hget, decide_False by lia. reflexivity. }
      assert (Hleft : row_dot n m' r s
                      = row_dot n m r s
                        - SavgolFilter.mget m r i / SavgolFilter.mget m i i
                          * row_dot n m i s).
      { unfold row_dot. rewrite <- sum_upto_sub_scale. apply sum_upto_ext.
        intros c Hc. rewrite Hget.
        destruct (decide ((i < r < n)%nat /\ (i <= c < n)%nat)) as [_|Hout]; [ring|].
        rewrite (Hz i c) by lia. ring. }
      rewrite Hsame in Hrowi. rewrite Hleft, Hrowi in Hrow.
      rewrite <- (Qcplus_0_r (nth r rhs 0)).
      replace (row_dot n m r s)
        with (row_dot n m r s
              - SavgolFilter.mget m r i / SavgolFilter.mget m i i * nth i rhs 0
              + SavgolFilter.mget m r i / SavgolFilter.mget m i i * nth i rhs 0) by ring.
      rewrite Hrow. ring.
    + specialize (Hs r Hr). rewrite Hrget, decide_False in Hs by lia. rewrite <- Hs.
      apply row_dot_ext. intros c Hc. rewrite Hget, decide_False by lia. reflexivity.
  - intros r c Hr Hc Hcr. rewrite Hget.
    destruct (decide ((i < r < n)%nat /\ (i <= c < n)%nat)) as [[Hir Hic]|Hout].
    + assert (c = i) by lia. subst c. field. exact Hii.
    + apply Hz; lia.
  - intros r Hr. rewrite Hget, decide_False by lia.
    destruct (decide (r = i)) as [->|Hne]; [exact Hii|apply Hpiv; lia].
Qed.

Lemma small_pivot_test (x : Qc) : ltb (Qcabs x) (qfrac 1 1000000000000) = false -> x <> 0.
Proof. intros Htest Hx. rewrite Hx in Htest. vm_compute in Htest. discriminate Htest. Qed.

Lemma pivot_and_eliminate (a : SavgolFilter.Matrix) (b : list Qc) (i : nat)
    (st st' : list (list Qc) * list Qc) :
  (i < n)%nat -> forward_inv n a b i st ->
  (if ltb (Qcabs (SavgolFilter.mget (fst st) i i)) (qfrac 1 1000000000000)
   then NumericalError
   else Ok (SavgolFilter.eliminate n i (fst st, snd st))) = Ok st' ->
  forward_inv n a b (S i) st'.
Proof.
  intros Hi (Hsq & Hr & Hsol & Hz & Hp) Hstep.
  destruct (ltb _ _) eqn:Hpiv; [discriminate Hstep|]. injection Hstep as <-.
  apply small_pivot_test in Hpiv.
  pose proof (eliminate_preserves (fst st) (snd st) i Hi Hsq Hr Hz Hp Hpiv) as He.
  destruct (SavgolFilter.eliminate n i (fst st, snd st)) as [m' r'].
  destruct He as (Hsq' & Hr' & Hsol' & Hz' & Hp').
  repeat split; try assumption.
  - apply Hsq'.
  - apply Hsq'.
  - intros s Hs. apply Hsol, Hsol', Hs.
Qed.

Lemma forwardStep_inv (a : SavgolFilter.Matrix) (b : list Qc) (i : nat)
    (st st' : list (list Qc) * list Qc) :
  (i < n)%nat -> forward_inv n a b i st ->
  SavgolFilter.forwardStep n i st = Ok st' ->
  forward_inv n a b (S i) st'.
Proof.
  intros Hi Hinv Hstep. destruct st as [m r]. unfold SavgolFilter.forwardStep in Hstep.
  pose proof (findMaxRow_bounds m i Hi) as Hb.
  destruct (negb (SavgolFilter.findMaxRow n m i =? i)%nat).
  - apply (pivot_and_eliminate a b i
             (SavgolFilter.swap [] m i (SavgolFilter.findMaxRow n m i),
              SavgolFilter.swap 0 r i (SavgolFilter.findMaxRow n m i)));
      [exact Hi| |exact Hstep].
    destruct Hinv as (Hsq & Hr & Hsol & Hz & Hp). simpl in Hsq, Hr, Hsol, Hz, Hp.
    destruct (swap_preserves m r i (SavgolFilter.findMaxRow n m i) Hb Hsq Hr Hz Hp)
      as (Hsq1 & Hr1 & Hsol1 & Hz1 & Hp1).
    unfold forward_inv. simpl. repeat split; try assumption.
    + apply Hsq1.
    + apply Hsq1.
    + intros s Hs. apply Hsol, Hsol1, Hs.
  - apply (pivot_and_eliminate a b i (m, r)); assumption.
Qed.

Lemma forwardPass_inv (a : SavgolFilter.Matrix) (b : list Qc)
    (st' : list (list Qc) * list Qc) :
  square n a -> length b = n ->
  SavgolFilter.forwardPass n (a, b) = Ok st' ->
  forward_inv n a b n st'.
Proof.
  intros Hsq Hb. unfold SavgolFilter.forwardPass.
  pose (P := fun (i : nat) (res : Result (list (list Qc) * list Qc)) =>
               forall st, res = Ok st -> forward_inv n a b i st).
  revert st'. apply (for_loop_inv P); unfold P; [lia| |].
  - intros st Hst. injection Hst as <-. unfold forward_inv. simpl.
    split; [apply Hsq|]. split; [apply Hb|]. split; [intros s Hs; exact Hs|].
    split.
    + intros r c _ Hc. lia.
    + intros r Hr. lia.
  - intros i [st0| | | |] Hi Hacc st Hst; simpl in Hst; try discriminate Hst.
    apply (forwardStep_inv a b i st0); [lia|apply Hacc; reflexivity|exact Hst].
Qed.

(** The left part of a row of an upper triangular matrix does not count
    in the product with a vector. *)
Lemma row_dot_upper (m : SavgolFilter.Matrix) (r : nat) (s : list Qc) :
  (r < n)%nat -> zeros_below n n m ->
  row_dot n m r s
  = SavgolFilter.mget m r r * nth r s 0
    + sum_upto (n - r - 1)
        (fun t => SavgolFilter.mget m r (r + 1 + t) * nth (r + 1 + t) s 0).
Proof.
  intros Hr Hz. unfold row_dot.
  rewrite (sum_upto_split n r) by lia.
  rewrite (sum_upto_zero r) by (intros c Hc; rewrite Hz by lia; ring).
  replace (n - r)%nat with (S (n - r - 1)) by lia.
  rewrite (sum_upto_split (S (n - r - 1)) 1) by lia. simpl.
  replace (r + 0)%nat with r by lia.
  replace (n - r - 1 - 0)%nat with (n - r - 1)%nat by lia.
  rewrite (sum_upto_ext _ (fun t => SavgolFilter.mget m r (r + S t) * nth (r + S t) s 0)
             (fun t => SavgolFilter.mget m r (r + 1 + t) * nth (r + 1 + t) s 0))
    by (intros t Ht; replace (r + S t)%nat with (r + 1 + t)%nat by lia; reflexivity).
  ring.
Qed.

(** Back substitution solves an upper triangular system whose diagonal
    has no zero. *)
Lemma backSubstitute_solves (m : SavgolFilter.Matrix) (rhs : list Qc) :
  zeros_below n n m -> pivots n m ->
  solves n m rhs (SavgolFilter.backSubstitute n m rhs).
Proof.
  intros Hz Hp. unfold SavgolFilter.backSubstitute.
  pose (P := fun (i : nat) (sol : list Qc) =>
               length sol = n
               /\ forall r, (i <= r < n)%nat -> row_dot n m r sol = nth r rhs 0).
  assert (Hfinal : P 0%nat
            (for_rev 0 n
               (fun i solution =>
                  let solution := <[i := nth i rhs 0]> solution in
                  let solution :=
                    for_loop (i + 1) n
                      (fun j s => <[i := nth i s 0
                                         - SavgolFilter.mget m i j * nth j s 0]> s)
                      solution in
                  <[i := nth i solution 0 / SavgolFilter.mget m i i]> solution)
               (repeat (0 : Qc) n))).
  { apply (for_rev_inv P); unfold P; [lia| |].
    - split; [apply repeat_length|]. intros r Hr. lia.
    - intros i sol Hi [Hlen Hrows]. cbv zeta.
      pose (Q := fun (j : nat) (s : list Qc) =>
                   length s = n
                   /\ (forall c, c <> i -> nth c s 0 = nth c sol 0)
                   /\ nth i s 0
                      = nth i rhs 0
                        - sum_upto (j - (i + 1))
                            (fun t => SavgolFilter.mget m i (i + 1 + t)
                                      * nth (i + 1 + t) sol 0)).
      assert (Hinner : Q n
                (for_loop (i + 1) n
                   (fun j s => <[i := nth i s 0 - SavgolFilter.mget m i j * nth j s 0]> s)
                   (<[i := nth i rhs 0]> sol))).
      { apply (for_loop_inv Q); unfold Q; [lia| |].
        - split; [rewrite length_insert; exact Hlen|]. split.
          + intros c Hc. apply nth_insert_ne. exact Hc.
          + rewrite nth_insert_eq by lia. rewrite Nat.sub_diag. simpl. ring.
        - intros j s Hj (Hls & Hother & Hself).
          split; [rewrite length_insert; exact Hls|]. split.
          + intros c Hc. rewrite nth_insert_ne by exact Hc. apply Hother. exact Hc.
          + rewrite nth_insert_eq by lia. rewrite Hself, (Hother j) by lia.
            replace (S j - (i + 1))%nat with (S (j - (i + 1))) by lia. simpl.
            replace (i + 1 + (j - (i + 1)))%nat with j by lia. ring. }
      unfold Q in Hinner. destruct Hinner as (Hls & Hother & Hself).
      set (s1 := for_loop (i + 1) n _ _) in *.
      split; [rewrite length_insert; exact Hls|].
      intros r Hr. destruct (decide (r = i)) as [->|Hne].
      + rewrite row_dot_upper by (lia || assumption).
        rewrite nth_insert_eq by lia. rewrite Hself.
        rewrite (sum_upto_ext _
                   (fun t => SavgolFilter.mget m i (i + 1 + t)
                             * nth (i + 1 + t)
                                   (<[i := (nth i rhs 0
                                           - sum_upto (n - (i + 1))
                                               (fun t0 => SavgolFilter.mget m i (i + 1 + t0)
                                                          * nth (i + 1 + t0) sol 0))
                                          / SavgolFilter.mget m i i]> s1) 0)
                   (fun t => SavgolFilter.mget m i (i + 1 + t) * nth (i + 1 + t) sol 0)).
        * replace (n - i - 1)%nat with (n - (i + 1))%nat by lia.
          field. apply Hp. lia.
        * intros t Ht. rewrite nth_insert_ne by lia. rewrite Hother by lia. reflexivity.
      + rewrite <- (Hrows r) by lia. unfold row_dot. apply sum_upto_ext.
        intros c Hc. destruct (decide (c = i)) as [->|Hci].
        * rewrite (Hz r i) by lia. ring.
        * rewrite nth_insert_ne by exact Hci. rewrite Hother by exact Hci. reflexivity. }
  destruct Hfinal as [_ Hrows]. intros r Hr. apply Hrows. lia.
Qed.

(** When [gaussElimination] returns, what it returns solves the system
    it was given. *)
Lemma gaussElimination_solves (a : SavgolFilter.Matrix) (b s : list Qc) :
  square n a -> length b = n ->
  SavgolFilter.gaussElimination a b = Ok s ->
  solves n a b s.
Proof.
  intros Hsq Hb Hge. unfold SavgolFilter.gaussElimination in Hge.
  assert (Hn : length a = n) by apply Hsq. rewrite Hn in Hge.
  destruct (SavgolFilter.forwardPass n (a, b)) as [[m r]| | | |] eqn:Hfw;
    simpl in Hge; try discriminate Hge.
  injection Hge as <-.
  destruct (forwardPass_inv a b (m, r) Hsq Hb Hfw) as (_ & _ & Hsol & Hz & Hp).
  apply Hsol. apply backSubstitute_solves; assumption.
Qed.

End Gauss.

(** ** The Savitzky-Golay taps *)

Lemma for_int_sum (lo hi : Z) (g : Z -> Qc) :
  for_int lo hi (fun k sum => sum + g k) 0
  = sum_upto (Z.to_nat (hi - lo + 1)) (fun t => g (lo + Z.of_nat t)%Z).
Proof.
  unfold for_int, zrange.
  rewrite <- (for_loop_sum (Z.to_nat (hi - lo + 1)) (fun t => g (lo + Z.of_nat t)%Z)).
  unfold for_loop, for_each. rewrite Nat.sub_0_r.
  generalize (seq 0 (Z.to_nat (hi - lo + 1))) as idxs. intros idxs.
  generalize (0 : Qc) as acc. induction idxs as [|t idxs IH]; intros acc; simpl.
  - reflexivity.
  - apply IH.
Qed.

Lemma moment_loop (halfWindow e : nat) :
  for_int (- Z.of_nat halfWindow) (Z.of_nat halfWindow)
    (fun k sum => sum + SavgolFilter.pow k e) 0
  = moment halfWindow e.
Proof.
  rewrite for_int_sum. unfold moment.
  replace (Z.to_nat (Z.of_nat halfWindow - - Z.of_nat halfWindow + 1))
    with (2 * halfWindow + 1)%nat by lia.
  apply sum_upto_ext. intros w Hw. f_equal. lia.
Qed.

Lemma square_zeros (n : nat) : square n (repeat (repeat (0 : Qc) n) n).
Proof.
  split; [apply repeat_length|].
  intros r Hr. rewrite nth_repeat_lt by exact Hr. apply repeat_length.
Qed.

Lemma normalMatrix_spec (halfWindow polyOrder : nat) :
  square (polyOrder + 1) (SavgolFilter.normalMatrix halfWindow polyOrder)
  /\ forall i j, (i <= polyOrder)%nat -> (j <= polyOrder)%nat ->
       SavgolFilter.mget (SavgolFilter.normalMatrix halfWindow polyOrder) i j
       = moment halfWindow (i + j).
Proof.
  unfold SavgolFilter.normalMatrix. set (n := (polyOrder + 1)%nat).
  pose (P := fun (i : nat) (m : list (list Qc)) =>
               square n m
               /\ forall r c, (r < i)%nat -> (c < n)%nat ->
                    SavgolFilter.mget m r c = moment halfWindow (r + c)).
  assert (Hfinal : P n
    (for_loop 0 n
       (fun i m =>
          for_loop 0 n
            (fun j m =>
               let sum :=
                 for_int (- Z.of_nat halfWindow) (Z.of_nat halfWindow)
                   (fun k sum => sum + SavgolFilter.pow k (i + j)) 0 in
               SavgolFilter.mset m i j sum)
            m)
       (repeat (repeat (0 : Qc) n) n))).
  { apply (for_loop_inv P); unfold P; [lia| |].
    - split; [apply square_zeros|]. intros r c Hr. lia.
    - intros i m Hi [Hsq Hget].
      pose (Q := fun (j : nat) (m' : list (list Qc)) =>
                   square n m'
                   /\ (forall r c, (r < i)%nat -> (c < n)%nat ->
                         SavgolFilter.mget m' r c = moment halfWindow (r + c))
                   /\ forall c, (c < j)%nat ->
                        SavgolFilter.mget m' i c = moment halfWindow (i + c)).
      assert (Hinner : Q n
        (for_loop 0 n
           (fun j m =>
              let sum :=
                for_int (- Z.of_nat halfWindow) (Z.of_nat halfWindow)
                  (fun k sum => sum + SavgolFilter.pow k (i + j)) 0 in
              SavgolFilter.mset m i j sum)
           m)).
      { apply (for_loop_inv Q); unfold Q; [lia| |].
        - split; [exact Hsq|]. split; [exact Hget|]. intros c Hc. lia.
        - intros j m' Hj (Hsq' & Hold & Hrow). cbv zeta. rewrite moment_loop.
          split; [apply square_mset; exact Hsq'|]. split.
          + intros r c Hr Hc. rewrite (mget_mset n) by (assumption || lia).
            rewrite decide_False by lia. apply Hold; assumption.
          + intros c Hc. rewrite (mget_mset n) by (assumption || lia).
            destruct (decide (i = i /\ c = j)) as [[_ ->]|Hn]; [reflexivity|].
            apply Hrow. lia. }
      destruct Hinner as (Hsq' & Hold & Hrow). split; [exact Hsq'|].
      intros r c Hr Hc. destruct (decide (r = i)) as [->|Hne].
      + apply Hrow. exact Hc.
      + apply Hold; [lia|exact Hc]. }
  destruct Hfinal as [Hsq Hget]. split; [exact Hsq|].
  intros i j Hi Hj. apply Hget; unfold n; lia.
Qed.

Lemma rightHandSide_spec (polyOrder : nat) :
  length (SavgolFilter.rightHandSide polyOrder) = (polyOrder + 1)%nat
  /\ forall i, nth i (SavgolFilter.rightHandSide polyOrder) 0
               = if Nat.eqb i 0 then 1 else 0.
Proof.
  unfold SavgolFilter.rightHandSide.
  pose (P := fun (k : nat) (l : list Qc) =>
               length l = (polyOrder + 1)%nat
               /\ forall i, nth i l 0 = if Nat.eqb i 0 then 1 else 0).
  apply (for_loop_inv P); unfold P; [lia| |].
  - split; [rewrite length_insert; apply repeat_length|].
    intros i. rewrite nth_insert, repeat_length.
    destruct (decide (i = 0%nat /\ (0 < polyOrder + 1)%nat)) as [[-> _]|Hn];
      [reflexivity|].
    destruct (Nat.eqb_spec i 0) as [->|Hne]; [exfalso; apply Hn; lia|].
    destruct (Nat.lt_ge_cases i (polyOrder + 1)).
    + apply nth_repeat_lt. assumption.
    + apply nth_overflow. rewrite repeat_length. assumption.
  - intros k l Hk [Hlen Hnth]. split; [rewrite length_insert; exact Hlen|].
    intros i. rewrite nth_insert, Hnth.
    destruct (decide (i = k /\ (k < length l)%nat)) as [[-> _]|_]; [|reflexivity].
    destruct (Nat.eqb_spec k 0); [lia|reflexivity].
Qed.

Lemma taps_spec (windowSize halfWindow polyOrder : nat) (polyCoeffs : list Qc) :
  length (SavgolFilter.taps windowSize halfWindow polyOrder polyCoeffs) = windowSize
  /\ forall w, (w < windowSize)%nat ->
       nth w (SavgolFilter.taps windowSize halfWindow polyOrder polyCoeffs) 0
       = sum_upto (polyOrder + 1)
           (fun j => nth j polyCoeffs 0
                     * SavgolFilter.pow (Z.of_nat w - Z.of_nat halfWindow) j).
Proof.
  unfold SavgolFilter.taps. split.
  - rewrite for_loop_length; [apply repeat_length|].
    intros i acc. apply length_insert.
  - intros w Hw.
    rewrite (for_loop_pointwise 0 windowSize _
               (fun i _ => sum_upto (polyOrder + 1)
                             (fun j => nth j polyCoeffs 0
                                       * SavgolFilter.pow
                                           (Z.of_nat i - Z.of_nat halfWindow) j))).
    + reflexivity.
    + intros i l. apply length_insert.
    + intros i l j Hj. apply nth_insert_ne. exact Hj.
    + intros i l Hi. rewrite nth_insert_eq by exact Hi. apply for_loop_sum.
    + rewrite repeat_length. lia.
    + exact Hw.
Qed.

(** ** Polynomial signals *)

Lemma Qcpower_add (q : Qc) (a b : nat) : q ^ (a + b) = q ^ a * q ^ b.
Proof. induction a as [|a IH]; simpl; [ring|]. rewrite IH. ring. Qed.


(** Coefficients past the end of the list are zero. *)
Lemma polyEval_extend (a : list Qc) (n : nat) (x : Qc) :
  (length a <= n)%nat ->
  sum_upto n (fun e => nth e a 0 * x ^ e) = polyEval a x.
Proof.
  intros Hlen. unfold polyEval. rewrite (sum_upto_split n (length a)) by exact Hlen.
  rewrite (sum_upto_zero (n - length a)); [ring|].
  intros i Hi. rewrite nth_overflow by lia. ring.
Qed.


Lemma sum_upto_mul (n m : nat) (g h : nat -> Qc) :
  sum_upto n g * sum_upto m h
  = sum_upto m (fun i => sum_upto n (fun j => h i * g j)).
Proof.
  symmetry.
  rewrite (sum_upto_ext m _ (fun i => sum_upto n g * h i))
    by (intros i Hi; rewrite sum_upto_scale; ring).
  apply sum_upto_scale.
Qed.

(** The taps built from a solution of the normal equations return the
    constant coefficient of any polynomial of degree at most the order
    when they are applied to its values at the offsets of the window. *)
Lemma taps_reproduce (halfWindow polyOrder : nat) (c b : list Qc) :
  solves (polyOrder + 1) (SavgolFilter.normalMatrix halfWindow polyOrder)
         (SavgolFilter.rightHandSide polyOrder) c ->
  (length b <= polyOrder + 1)%nat ->
  sum_upto (2 * halfWindow + 1)
    (fun w => nth w (SavgolFilter.taps (2 * halfWindow + 1) halfWindow polyOrder c) 0
              * polyEval b (qz (Z.of_nat w - Z.of_nat halfWindow)))
  = nth 0 b 0.
Proof.
  intros Hsol Hb.
  set (n := (polyOrder + 1)%nat) in *. set (W := (2 * halfWindow + 1)%nat).
  pose (k := fun w : nat => qz (Z.of_nat w - Z.of_nat halfWindow)).
  destruct (taps_spec W halfWindow polyOrder c) as [_ Htaps].
  destruct (normalMatrix_spec halfWindow polyOrder) as [_ Hmat].
  destruct (rightHandSide_spec polyOrder) as [_ Hrhs].
  (* every term is a double sum of products of powers *)
  rewrite (sum_upto_ext W _
             (fun w => sum_upto n
                         (fun e => sum_upto n
                                     (fun j => nth e b 0 * k w ^ e
                                               * (nth j c 0 * k w ^ j))))).
  2:{ intros w Hw. rewrite Htaps by exact Hw. fold n.
      rewrite <- (polyEval_extend b n) by exact Hb.
      apply sum_upto_mul. }
  (* sum over the offsets last *)
  rewrite sum_upto_swap.
  rewrite (sum_upto_ext n _
             (fun e => nth e b 0
                       * row_dot n (SavgolFilter.normalMatrix halfWindow polyOrder) e c)).
  2:{ intros e He. rewrite sum_upto_swap. unfold row_dot.
      rewrite <- sum_upto_scale. apply sum_upto_ext. intros j Hj.
      rewrite Hmat by (unfold n in *; lia). unfold moment. fold W.
      rewrite (sum_upto_ext W _ (fun w => nth e b 0 * nth j c 0 * k w ^ (e + j)))
        by (intros w Hw; rewrite Qcpower_add; ring).
      rewrite sum_upto_scale. unfold SavgolFilter.pow, k. ring. }
  (* the normal equations *)
  rewrite (sum_upto_ext n _ (fun e => nth e b 0 * (if Nat.eqb e 0 then 1 else 0)))
    by (intros e He; rewrite Hsol by exact He; rewrite Hrhs; reflexivity).
  rewrite (sum_upto_single n 0); [simpl; ring|unfold n; lia|].
  intros e He Hne. destruct (Nat.eqb_spec e 0); [contradiction|ring].
Qed.





(** ** Instances of the general statements *)

(** C8 at a reconfiguration of [wiener2]. *)
Lemma C8_weights_are_the_state_witness :
  exists f0,
    WienerFilter.new 2 (qfrac 1 100) (qfrac 99 100) 42%Z
    = Ok (f0, snd (WienerFilter.reset wiener2 42%Z))
    /\ WienerFilter.process f0 ramp3
       = WienerFilter.process (fst (WienerFilter.reset wiener2 42%Z)) ramp3
    /\ WienerFilter.process (fst (WienerFilter.process f0 ramp3)) spike5
       = WienerFilter.process
           (fst (WienerFilter.process (fst (WienerFilter.reset wiener2 42%Z)) ramp3))
           spike5.
Proof.
  destruct (@C8_weights_are_the_state lcg) as (_ & _ & _ & _ & _ & _ & _ & Hnew).
  apply (Hnew wiener2 2%nat (qfrac 1 100) (qfrac 99 100) 42%Z).
  vm_compute. reflexivity.
Defined.

(** C9 at one rejected configuration of each filter, and at a step
    size that is a NaN. *)
Lemma C9_invalid_configuration_iff_witness :
  MedianFilter.new 4 = InvalidConfiguration
  /\ WienerFilter.new 3 (qz 1) (qfrac 99 100) 42%Z = InvalidConfiguration
  /\ OutlierDetection.new OutlierDetection.MAD_BASED OutlierDetection.LINEAR (qz 0) 5
     = InvalidConfiguration
  /\ SavgolFilter.new 5 5 = InvalidConfiguration
  /\ MorphologicalFilter.new MorphologicalFilter.OPENING [] = InvalidConfiguration
  /\ ~ in_open_unit NaN
  /\ WienerFilter.new 1 NaN (qfrac 1 2) 42%Z = NonFinite.
Proof.
  destruct (@C9_invalid_configuration_iff lcg)
    as (Hmed & Hwie & Hmor & Hout & Hsav & Hnan & _).
  split; [apply (Hmed 4%nat); right; exists 2%nat; reflexivity|].
  split.
  { apply (Hwie wiener2 3%nat (Finite (qz 1)) (Finite (qfrac 99 100)) 42%Z). right. left.
    split; [discriminate|]. intros [_ Hlt]. vm_compute in Hlt. discriminate Hlt. }
  split.
  { apply (Hout detector35 OutlierDetection.MAD_BASED OutlierDetection.LINEAR
             (Finite (qz 0)) 5%nat).
    left. split; [discriminate|]. intros Hlt. vm_compute in Hlt. discriminate Hlt. }
  split.
  { apply (Hsav average3 5%nat 5%nat). right. right. lia. }
  split; [apply (Hmor opening3 MorphologicalFilter.OPENING [] 1%nat); reflexivity|].
  destruct (Hnan wiener2 detector35 42%Z OutlierDetection.MAD_BASED OutlierDetection.LINEAR)
    as (Hmu & _ & _ & Hnew & _).
  split; [exact Hmu|exact Hnew].
Defined.

(** * Further properties of the code *)

(** ** Linear arithmetic on samples

    A comparison of canonical rationals is the comparison of their
    fractions; [lra] and [nra] decide it there. *)

Lemma Qc_eq_Qeq (x y : Qc) : x = y <-> (this x == this y)%Q.
Proof. split; [intros ->; reflexivity | apply Qc_is_canon]. Qed.

Ltac qc_to_q :=
  unfold qz, qfrac, Qc_of_Z in *;
  repeat match goal with
         | H : @eq Qc _ _ |- _ => apply Qc_eq_Qeq in H
         | H : ~ @eq Qc _ _ |- _ => rewrite Qc_eq_Qeq in H
         end;
  try (apply Qc_eq_Qeq);
  unfold Qcle, Qclt, Qcdiv, Qcminus, Qcplus, Qcmult, Qcopp, Qcinv, Q2Qc in *;
  cbn [this] in *;
  repeat match goal with
         | H : context [Qred ?q] |- _ => rewrite (Qred_correct q) in H
         | |- context [Qred ?q] => rewrite (Qred_correct q)
         end;
  unfold inject_Z in *;
  repeat match goal with
         | H : context [Qinv (?n # ?d)] |- _ =>
           let v := eval cbv in (Qinv (n # d)) in change (Qinv (n # d)) with v in H
         | |- context [Qinv (?n # ?d)] =>
           let v := eval cbv in (Qinv (n # d)) in change (Qinv (n # d)) with v
         end.

Ltac qc_lra := qc_to_q; lra.
Ltac qc_nra := qc_to_q; nra.

(** ** The median *)

Lemma sorted_perm_unique (l1 l2 : list Qc) :
  Sorted Qcle l1 -> Sorted Qcle l2 -> Permutation l1 l2 -> l1 = l2.
Proof.
  intros H1 H2.
  apply Sorted_StronglySorted in H1; [|intros x y z; apply Qcle_trans].
  apply Sorted_StronglySorted in H2; [|intros x y z; apply Qcle_trans].
  revert l2 H2. induction H1 as [|a l1 Hs1 IH Ha]; intros l2 H2 Hp.
  - apply Permutation_nil in Hp. subst l2. reflexivity.
  - destruct H2 as [|b l2 Hs2 Hb].
    + apply Permutation_sym, Permutation_nil in Hp. discriminate.
    + assert (Hab : a = b).
      { rewrite List.Forall_forall in Ha, Hb. apply Qcle_antisym.
        - assert (Hin : In b (a :: l1))
            by (eapply Permutation_in; [symmetry; exact Hp|left; reflexivity]).
          destruct Hin as [->|Hin]; [apply Qcle_refl|apply Ha, Hin].
        - assert (Hin : In a (b :: l2))
            by (eapply Permutation_in; [exact Hp|left; reflexivity]).
          destruct Hin as [->|Hin]; [apply Qcle_refl|apply Hb, Hin]. }
      subst b. f_equal. apply IH; [exact Hs2|].
      eapply Permutation_cons_inv. exact Hp.
Qed.

Lemma std_sort_of_perm (l1 l2 : list Qc) :
  Permutation l1 l2 -> std_sort l1 = std_sort l2.
Proof.
  intros Hp. apply sorted_perm_unique; try apply std_sort_sorted.
  rewrite <- !std_sort_perm. exact Hp.
Qed.

Lemma std_sort_of_sorted (l : list Qc) : Sorted Qcle l -> std_sort l = l.
Proof.
  intros Hs. apply sorted_perm_unique; [apply std_sort_sorted|exact Hs|].
  symmetry. apply std_sort_perm.
Qed.

Lemma length_std_sort (l : list Qc) : length (std_sort l) = length l.
Proof. symmetry. apply Permutation_length, std_sort_perm. Qed.

Lemma median_nonempty (values : list Qc) :
  values <> [] ->
  median values
  = if Nat.eqb (length values mod 2) 0
    then (nth (length values / 2 - 1) (std_sort values) 0
          + nth (length values / 2) (std_sort values) 0) / qz 2
    else nth (length values / 2) (std_sort values) 0.
Proof.
  intros Hne. destruct values as [|v values]; [congruence|].
  unfold median. cbv zeta. rewrite length_std_sort. reflexivity.
Qed.

Lemma nth_std_sort_In (l : list Qc) (k : nat) :
  (k < length l)%nat -> In (nth k (std_sort l) 0) l.
Proof.
  intros Hk. eapply Permutation_in; [symmetry; apply std_sort_perm|].
  apply nth_In. rewrite length_std_sort. exact Hk.
Qed.

Lemma median_ge (lo : Qc) (values : list Qc) :
  values <> [] -> (forall v, In v values -> lo ≤ v) -> lo ≤ median values.
Proof.
  intros Hne Hin. rewrite median_nonempty by exact Hne.
  assert (Hlen : (0 < length values)%nat)
    by (destruct values; [congruence|simpl; lia]).
  assert (Hhalf : (length values / 2 < length values)%nat)
    by (apply Nat.div_lt; lia).
  pose proof (Hin _ (nth_std_sort_In values (length values / 2) Hhalf)) as Hl2.
  destruct (Nat.eqb (length values mod 2) 0); [|assumption].
  assert (Hhalf' : (length values / 2 - 1 < length values)%nat) by lia.
  pose proof (Hin _ (nth_std_sort_In values _ Hhalf')) as Hl1.
  qc_lra.
Qed.

Lemma median_le (hi : Qc) (values : list Qc) :
  values <> [] -> (forall v, In v values -> v ≤ hi) -> median values ≤ hi.
Proof.
  intros Hne Hin. rewrite median_nonempty by exact Hne.
  assert (Hlen : (0 < length values)%nat)
    by (destruct values; [congruence|simpl; lia]).
  assert (Hhalf : (length values / 2 < length values)%nat)
    by (apply Nat.div_lt; lia).
  pose proof (Hin _ (nth_std_sort_In values (length values / 2) Hhalf)) as Hl2.
  destruct (Nat.eqb (length values mod 2) 0); [|assumption].
  assert (Hhalf' : (length values / 2 - 1 < length values)%nat) by lia.
  pose proof (Hin _ (nth_std_sort_In values _ Hhalf')) as Hl1.
  qc_lra.
Qed.

Lemma median_within (lo hi : Qc) (values : list Qc) :
  values <> [] -> within lo hi values ->
  lo ≤ median values /\ median values ≤ hi.
Proof.
  intros Hne Hin. split.
  - apply median_ge; [exact Hne|]. intros v Hv. apply (Hin v Hv).
  - apply median_le; [exact Hne|]. intros v Hv. apply (Hin v Hv).
Qed.

Lemma median_odd_In (values : list Qc) :
  Nat.Odd (length values) -> In (median values) values.
Proof.
  intros Hodd.
  assert (Hne : values <> []) by (intros ->; destruct Hodd as [k Hk]; simpl in Hk; lia).
  rewrite median_nonempty by exact Hne.
  assert (Hmod : (length values mod 2 = 1)%nat).
  { destruct Hodd as [k Hk]. rewrite Hk.
    symmetry. apply (Nat.mod_unique _ 2 k 1); lia. }
  rewrite Hmod. change (1 =? 0)%nat with false. cbv iota. apply nth_std_sort_In. apply Nat.div_lt; [|lia].
  destruct values; [congruence|simpl; lia].
Qed.

(** X1. The median does not depend on the order of the samples. *)
Theorem X1_median_of_permutation (values values' : list Qc) :
  Permutation values values' -> median values = median values'.
Proof.
  intros Hp. destruct (decide (values = [])) as [->|Hne].
  - apply Permutation_nil in Hp. subst values'. reflexivity.
  - assert (Hne' : values' <> []).
    { intros ->. apply Hne. apply Permutation_nil. symmetry. exact Hp. }
    rewrite !median_nonempty by assumption.
    rewrite (std_sort_of_perm _ _ Hp), (Permutation_length Hp). reflexivity.
Qed.

Lemma X1_median_of_permutation_witness :
  median [qz 3; qz 1; qz 2] = median [qz 1; qz 3; qz 2].
Proof. apply X1_median_of_permutation. apply perm_swap. Defined.

(** X2. The median of at least one sample lies between the smallest and
    the largest of them, and for an odd number of samples it is one of
    them.  For an even number of samples the two middle ones are added
    before they are halved: the bounds are stated for samples whose sum
    does not overflow. *)
Theorem X2_median_is_central (lo hi : Qc) (values : list Qc) :
  values <> [] -> within lo hi values ->
  Nat.Odd (length values) \/ (half_range lo /\ half_range hi) ->
  (lo ≤ median values /\ median values ≤ hi)
  /\ (Nat.Odd (length values) -> In (median values) values).
Proof.
  intros Hne Hin _. split; [apply median_within; assumption|apply median_odd_In].
Qed.

Lemma X2_median_is_central_witness :
  In (median [qz 3; qz 1; qz 2]) [qz 3; qz 1; qz 2].
Proof.
  apply (X2_median_is_central (qz 1) (qz 3)).
  - discriminate.
  - intros v [<-|[<-|[<-|[]]]]; split; vm_compute; discriminate.
  - left. exists 1%nat. reflexivity.
  - exists 1%nat. reflexivity.
Defined.

(** ** The windows of the median filter *)

Lemma for_loop_cons_repeat {A : Type} (n : nat) (x : A) (l : list A) :
  for_loop 0 n (fun _ w => x :: w) l = repeat x n ++ l.
Proof.
  apply (for_loop_inv (fun k w => w = repeat x k ++ l)); [lia|reflexivity|].
  intros i acc _ ->. reflexivity.
Qed.

Lemma map_const_seq {A : Type} (x : A) (lo n : nat) :
  map (fun _ => x) (seq lo n) = repeat x n.
Proof.
  revert lo. induction n as [|n IH]; intros lo; simpl; [reflexivity|].
  f_equal. apply IH.
Qed.

Lemma for_loop_snoc_repeat {A : Type} (n : nat) (x : A) (l : list A) :
  for_loop 0 n (fun _ w => w ++ [x]) l = l ++ repeat x n.
Proof.
  rewrite (for_loop_push 0 n (fun _ => x)). rewrite map_const_seq, Nat.sub_0_r.
  reflexivity.
Qed.

Lemma last_is_nth {A : Type} (l : list A) (d : A) :
  List.last l d = nth (length l - 1) l d.
Proof.
  induction l as [|a [|b l] IH]; try reflexivity.
  change (List.last (a :: b :: l) d) with (List.last (b :: l) d).
  rewrite IH. simpl. rewrite Nat.sub_0_r. reflexivity.
Qed.

(** The padded window: the copies of the first sample, the clipped
    window and the copies of the last sample. *)
Lemma paddedWindow_parts (f : MedianFilter.t) (input : Signal) (index : nat) :
  MedianFilter.paddedWindow f input index
  = repeat (nth 0 input 0) (MedianFilter.windowSize_ f / 2 - index)
    ++ map (fun i => nth i input 0)
         (seq (index - MedianFilter.windowSize_ f / 2)
              (Nat.min (index + MedianFilter.windowSize_ f / 2 + 1) (length input)
               - (index - MedianFilter.windowSize_ f / 2)))
    ++ repeat (List.last input 0)
         (index + MedianFilter.windowSize_ f / 2 + 1 - length input).
Proof.
  unfold MedianFilter.paddedWindow. cbv zeta.
  set (h := (MedianFilter.windowSize_ f / 2)%nat).
  rewrite (for_loop_push _ _ (fun i => nth i input 0)). rewrite app_nil_l.
  replace (if (h <=? index)%nat then (index - h)%nat else 0%nat) with (index - h)%nat
    by (destruct (Nat.leb_spec h index); lia).
  destruct (Nat.ltb_spec index h) as [Hlt|Hge].
  - rewrite for_loop_cons_repeat.
    destruct (Nat.leb_spec (length input) (index + h)) as [Hle|Hgt].
    + rewrite for_loop_snoc_repeat, <- app_assoc. reflexivity.
    + replace (index + h + 1 - length input)%nat with 0%nat by lia.
      simpl. rewrite app_nil_r. reflexivity.
  - replace (h - index)%nat with 0%nat by lia. simpl.
    destruct (Nat.leb_spec (length input) (index + h)) as [Hle|Hgt].
    + rewrite for_loop_snoc_repeat. reflexivity.
    + replace (index + h + 1 - length input)%nat with 0%nat by lia.
      simpl. rewrite app_nil_r. reflexivity.
Qed.

Lemma paddedWindow_nonempty (f : MedianFilter.t) (input : Signal) (index : nat) :
  (index < length input)%nat -> MedianFilter.paddedWindow f input index <> [].
Proof.
  intros Hidx Heq. apply (f_equal (@length Qc)) in Heq.
  rewrite paddedWindow_parts in Heq.
  rewrite !length_app, !repeat_length, length_map, length_seq in Heq.
  simpl in Heq. lia.
Qed.

Lemma paddedWindow_In (f : MedianFilter.t) (input : Signal) (index : nat) (v : Qc) :
  input <> [] -> In v (MedianFilter.paddedWindow f input index) -> In v input.
Proof.
  intros Hne. rewrite paddedWindow_parts.
  assert (Hlen : (0 < length input)%nat) by (destruct input; [congruence|simpl; lia]).
  rewrite !in_app_iff. intros [Hin|[Hin|Hin]].
  - apply repeat_spec in Hin. subst v. apply nth_In. exact Hlen.
  - apply in_map_iff in Hin. destruct Hin as (i & <- & Hi).
    apply in_seq in Hi. apply nth_In. lia.
  - apply repeat_spec in Hin. subst v. rewrite last_is_nth. apply nth_In. lia.
Qed.

Lemma MedianFilter_process_map (f : MedianFilter.t) (input : Signal) :
  MedianFilter.process f input
  = map (MedianFilter.computeWindowMedian f input) (seq 0 (length input)).
Proof.
  unfold MedianFilter.process. destruct input as [|x input]; [reflexivity|].
  rewrite (for_loop_push 0 _ (MedianFilter.computeWindowMedian f (x :: input))).
  rewrite Nat.sub_0_r. reflexivity.
Qed.

Lemma within_forallb (lo hi : Qc) (x : Signal) :
  forallb (fun v => leb lo v && leb v hi) x = true -> within lo hi x.
Proof.
  intros Hall v Hv. rewrite forallb_forall in Hall. specialize (Hall v Hv).
  apply andb_prop in Hall. destruct Hall as [Hl Hh].
  split; apply leb_le; assumption.
Qed.

(** X3. The median filter does not overshoot: when the samples of the
    input lie in [[lo, hi]], so do those of the output, for every window
    size; and for an odd window size every output sample is one of the
    input samples. *)
Theorem X3_median_filter_stays_within (f : MedianFilter.t) (input : Signal)
    (lo hi : Qc) :
  within lo hi input ->
  within lo hi (MedianFilter.process f input)
  /\ (Nat.Odd (MedianFilter.windowSize_ f) ->
      forall v, In v (MedianFilter.process f input) -> In v input).
Proof.
  intros Hin. destruct (decide (input = [])) as [->|Hne].
  { split; [exact Hin|]. intros _ v Hv. exact Hv. }
  rewrite MedianFilter_process_map. split.
  - intros v Hv. apply in_map_iff in Hv. destruct Hv as (i & <- & Hi).
    apply in_seq in Hi. unfold MedianFilter.computeWindowMedian.
    apply median_within; [apply paddedWindow_nonempty; lia|].
    intros w Hw. apply Hin. eapply paddedWindow_In; eassumption.
  - intros Hodd v Hv. apply in_map_iff in Hv. destruct Hv as (i & <- & Hi).
    apply in_seq in Hi. unfold MedianFilter.computeWindowMedian.
    apply (paddedWindow_In f input i); [exact Hne|].
    apply median_odd_In. rewrite paddedWindow_length; [exact Hodd|exact Hodd|lia].
Qed.

Lemma X3_median_filter_stays_within_witness :
  within (qz 1) (qz 100) (MedianFilter.process {| MedianFilter.windowSize_ := 3 |} spike5).
Proof.
  apply X3_median_filter_stays_within.
  apply within_forallb. vm_compute. reflexivity.
Defined.

Lemma nth_map_seq (g : nat -> Qc) (s n j : nat) :
  (j < n)%nat -> nth j (map g (seq s n)) 0 = g (s + j)%nat.
Proof.
  intros Hj. rewrite (nth_indep _ 0 (g 0%nat)) by (rewrite length_map, length_seq; lia).
  rewrite map_nth, seq_nth by lia. reflexivity.
Qed.

Lemma nth_three_parts (x y : Qc) (g : nat -> Qc) (a s n b j : nat) :
  nth j (repeat x a ++ map g (seq s n) ++ repeat y b) 0
  = if (j <? a)%nat then x
    else if (j <? a + n)%nat then g (s + (j - a))%nat
    else if (j <? a + n + b)%nat then y else 0.
Proof.
  destruct (Nat.ltb_spec j a) as [Ha|Ha].
  { rewrite app_nth1 by (rewrite repeat_length; lia). apply nth_repeat_lt. exact Ha. }
  rewrite app_nth2 by (rewrite repeat_length; lia). rewrite repeat_length.
  destruct (Nat.ltb_spec j (a + n)) as [Hn|Hn].
  { rewrite app_nth1 by (rewrite length_map, length_seq; lia).
    apply nth_map_seq. lia. }
  rewrite app_nth2 by (rewrite length_map, length_seq; lia).
  rewrite length_map, length_seq.
  destruct (Nat.ltb_spec j (a + n + b)) as [Hb|Hb].
  - apply nth_repeat_lt. lia.
  - apply nth_overflow. rewrite repeat_length. lia.
Qed.

Lemma ascending_Sorted (l : list Qc) : ascending l -> Sorted Qcle l.
Proof.
  induction l as [|a l IH]; intros Hasc; [constructor|]. constructor.
  - apply IH. intros i j Hij Hj. apply (Hasc (S i) (S j)); simpl; lia.
  - destruct l as [|b l]; constructor. apply (Hasc 0%nat 1%nat); simpl; lia.
Qed.

(** Entry [j] of the padded window is the sample at the position
    [index - halfWindow + j], clamped to the signal. *)
Lemma paddedWindow_nth (f : MedianFilter.t) (input : Signal) (index j : nat) :
  Nat.Odd (MedianFilter.windowSize_ f) -> (index < length input)%nat ->
  (j < MedianFilter.windowSize_ f)%nat ->
  nth j (MedianFilter.paddedWindow f input index) 0
  = nth (Nat.min (index + j - MedianFilter.windowSize_ f / 2) (length input - 1))
        input 0.
Proof.
  intros [h Hodd] Hidx Hj. rewrite paddedWindow_parts, last_is_nth.
  rewrite (nth_three_parts _ _ (fun i => nth i input 0)).
  rewrite Hodd in *.
  replace ((2 * h + 1) / 2)%nat with h by (apply (Nat.div_unique _ 2 h 1); lia).
  destruct (Nat.ltb_spec j (h - index)); [f_equal; lia|].
  match goal with |- context [(j <? ?e)%nat] => destruct (Nat.ltb_spec j e) end;
    [f_equal; lia|].
  match goal with |- context [(j <? ?e)%nat] => destruct (Nat.ltb_spec j e) end;
    [f_equal; lia|lia].
Qed.

(** X4. A signal whose samples do not decrease is a fixed point of the
    median filter, for every odd window size: each padded window is
    already in order and its middle entry is the sample itself. *)
Theorem X4_median_filter_keeps_ascending (f : MedianFilter.t) (input : Signal) :
  Nat.Odd (MedianFilter.windowSize_ f) -> ascending input ->
  MedianFilter.process f input = input.
Proof.
  intros Hodd Hasc. rewrite MedianFilter_process_map.
  apply (nth_ext _ _ 0 0); [rewrite length_map, length_seq; reflexivity|].
  intros i Hi. rewrite length_map, length_seq in Hi.
  rewrite (nth_map_seq _ 0 (length input) i Hi). simpl.
  unfold MedianFilter.computeWindowMedian.
  pose proof (paddedWindow_length f input i Hodd Hi) as Hlen.
  assert (Hsorted : Sorted Qcle (MedianFilter.paddedWindow f input i)).
  { apply ascending_Sorted. intros j k Hjk Hk. rewrite Hlen in Hk.
    rewrite !paddedWindow_nth by (assumption || lia).
    apply Hasc; lia. }
  rewrite median_nonempty by (apply paddedWindow_nonempty; exact Hi).
  rewrite (std_sort_of_sorted _ Hsorted), Hlen.
  destruct Hodd as [h Hodd].
  assert (Hhalf : (MedianFilter.windowSize_ f / 2 = h)%nat)
    by (rewrite Hodd; symmetry; apply (Nat.div_unique _ 2 h 1); lia).
  assert (Hmod : (MedianFilter.windowSize_ f mod 2 = 1)%nat)
    by (rewrite Hodd; symmetry; apply (Nat.mod_unique _ 2 h 1); lia).
  rewrite Hmod. change (1 =? 0)%nat with false. cbv iota.
  rewrite paddedWindow_nth by (try exists h; assumption || lia).
  f_equal. lia.
Qed.

Lemma X4_median_filter_keeps_ascending_witness :
  MedianFilter.process {| MedianFilter.windowSize_ := 3 |} (map qz [1; 2; 2; 5]%Z)
  = map qz [1; 2; 2; 5]%Z.
Proof.
  apply X4_median_filter_keeps_ascending.
  - exists 1%nat. reflexivity.
  - intros i j Hij Hj. simpl in Hj.
    assert (Hcases : (j = 0 \/ j = 1 \/ j = 2 \/ j = 3)%nat) by lia.
    destruct Hcases as [-> | [-> | [-> | ->]]];
      (assert (Hi : (i = 0 \/ i = 1 \/ i = 2 \/ i = 3)%nat) by lia;
       destruct Hi as [-> | [-> | [-> | ->]]]; try lia; vm_compute; discriminate).
Defined.

(** ** The median of a majority and the MAD *)

Lemma Sorted_app (l1 l2 : list Qc) :
  Sorted Qcle l1 -> Sorted Qcle l2 ->
  (forall a b, In a l1 -> In b l2 -> a ≤ b) ->
  Sorted Qcle (l1 ++ l2).
Proof.
  intros H1 H2 Hle. induction l1 as [|a l1 IH]; [exact H2|].
  simpl. inversion H1 as [|? ? Hs Hhd]; subst. constructor.
  - apply IH; [exact Hs|]. intros x y Hx Hy. apply Hle; [right; exact Hx|exact Hy].
  - destruct l1 as [|b l1]; simpl.
    + destruct l2 as [|c l2]; constructor. apply Hle; left; reflexivity.
    + constructor. inversion Hhd; assumption.
Qed.

Lemma Sorted_repeat (c : Qc) (n : nat) : Sorted Qcle (repeat c n).
Proof.
  induction n as [|n IH]; simpl; constructor; [exact IH|].
  destruct n; simpl; constructor. apply Qcle_refl.
Qed.

Lemma filter_eq_repeat (c : Qc) (l : list Qc) :
  List.filter (fun v => eqb v c) l = repeat c (count c l).
Proof.
  unfold count. induction l as [|a l IH]; simpl; [reflexivity|].
  destruct (eqb a c) eqn:Hac; [|exact IH].
  apply eqb_eq in Hac. subst a. simpl. f_equal. exact IH.
Qed.

(** The samples below [c], those equal to [c] and those above. *)
Lemma three_way_perm (c : Qc) (l : list Qc) :
  Permutation l
    (List.filter (fun v => ltb v c) l
     ++ List.filter (fun v => eqb v c) l
     ++ List.filter (fun v => ltb c v) l).
Proof.
  induction l as [|a l IH]; simpl; [reflexivity|].
  destruct (ltb a c) eqn:Hlt.
  - apply ltb_lt in Hlt.
    assert (Heq : eqb a c = false).
    { apply bool_decide_eq_false. exact (Qclt_not_eq _ _ Hlt). }
    assert (Hgt : ltb c a = false) by (apply ltb_nlt, Qclt_le_weak, Hlt).
    rewrite Heq, Hgt. simpl. apply perm_skip. exact IH.
  - apply ltb_nlt in Hlt. destruct (eqb a c) eqn:Heq.
    + apply eqb_eq in Heq. subst a.
      assert (Hgt : ltb c c = false) by (apply ltb_nlt, Qcle_refl).
      rewrite Hgt. apply Permutation_cons_app. exact IH.
    + apply bool_decide_eq_false in Heq.
      assert (Hgt : ltb c a = true).
      { apply ltb_lt. destruct (Qcle_lt_or_eq _ _ Hlt) as [Hca|Hca];
          [exact Hca|congruence]. }
      rewrite Hgt. rewrite app_assoc. apply Permutation_cons_app.
      rewrite <- app_assoc. exact IH.
Qed.

Lemma std_sort_three_way (c : Qc) (l : list Qc) :
  std_sort l
  = std_sort (List.filter (fun v => ltb v c) l)
    ++ repeat c (count c l)
    ++ std_sort (List.filter (fun v => ltb c v) l).
Proof.
  apply sorted_perm_unique; [apply std_sort_sorted| |].
  - assert (Hhi : forall b, In b (repeat c (count c l)
                                  ++ std_sort (List.filter (fun v => ltb c v) l)) ->
                            c ≤ b).
    { intros b Hb. apply in_app_iff in Hb. destruct Hb as [Hb|Hb].
      - apply repeat_spec in Hb. subst b. apply Qcle_refl.
      - apply (Permutation_in _ (Permutation_sym (std_sort_perm _))) in Hb.
        apply filter_In in Hb. destruct Hb as [_ Hb].
        apply ltb_lt in Hb. apply Qclt_le_weak, Hb. }
    apply Sorted_app; [apply std_sort_sorted| |].
    + apply Sorted_app; [apply Sorted_repeat|apply std_sort_sorted|].
      intros a b Ha Hb. apply repeat_spec in Ha. subst a.
      apply Hhi. apply in_app_iff. right. exact Hb.
    + intros a b Ha Hb.
      apply (Permutation_in _ (Permutation_sym (std_sort_perm _))) in Ha.
      apply filter_In in Ha. destruct Ha as [_ Ha]. apply ltb_lt in Ha.
      apply Qcle_trans with c; [apply Qclt_le_weak, Ha|apply Hhi, Hb].
  - rewrite <- (std_sort_perm l), <- !std_sort_perm, <- filter_eq_repeat.
    apply three_way_perm.
Qed.

Lemma three_way_length (c : Qc) (l : list Qc) :
  length l
  = (length (List.filter (fun v => ltb v c) l) + count c l
     + length (List.filter (fun v => ltb c v) l))%nat.
Proof.
  rewrite (Permutation_length (three_way_perm c l)).
  rewrite !length_app. unfold count. lia.
Qed.

Lemma nth_std_sort_majority (c : Qc) (l : list Qc) (k : nat) :
  (length (List.filter (fun v => ltb v c) l) <= k)%nat ->
  (k < length (List.filter (fun v => ltb v c) l) + count c l)%nat ->
  nth k (std_sort l) 0 = c.
Proof.
  intros Hlo Hhi. rewrite (std_sort_three_way c l).
  rewrite app_nth2 by (rewrite length_std_sort; lia). rewrite length_std_sort.
  rewrite app_nth1 by (rewrite repeat_length; lia).
  apply nth_repeat_lt. lia.
Qed.

Lemma median_majority (c : Qc) (values : list Qc) :
  (length values < 2 * count c values)%nat -> median values = c.
Proof.
  intros Hmaj.
  assert (Hne : values <> []) by (intros ->; simpl in Hmaj; lia).
  rewrite median_nonempty by exact Hne.
  pose proof (three_way_length c values) as Hlen.
  pose proof (Nat.div_mod_eq (length values) 2) as Hdiv.
  pose proof (Nat.mod_upper_bound (length values) 2) as Hmod.
  destruct (Nat.eqb_spec (length values mod 2) 0) as [Heven|Hodd].
  - rewrite !(nth_std_sort_majority c) by lia. qc_lra.
  - apply nth_std_sort_majority; lia.
Qed.

(** X5. The median is robust: when more than half of the samples equal
    [c], the median is [c], whatever the other samples are.  For an even
    number of samples the median is [(c + c) / 2]: it is stated for a [c]
    whose double does not overflow. *)
Theorem X5_median_of_majority (c : Qc) (values : list Qc) :
  (length values < 2 * count c values)%nat ->
  Nat.Odd (length values) \/ half_range c ->
  median values = c.
Proof. intros Hmaj _. apply median_majority. exact Hmaj. Qed.

Lemma X5_median_of_majority_witness :
  median (map qz [0; 0; 10; 0]%Z) = 0.
Proof.
  apply X5_median_of_majority; [vm_compute; lia|].
  right. split; vm_compute; discriminate.
Defined.

Lemma fold_left_snoc_map {A B : Type} (g : A -> B) (l : list A) (acc : list B) :
  fold_left (fun dev value => dev ++ [g value]) l acc = acc ++ map g l.
Proof.
  revert acc. induction l as [|a l IH]; intros acc; simpl.
  - rewrite app_nil_r. reflexivity.
  - rewrite IH, <- app_assoc. reflexivity.
Qed.

Lemma mad_map (values : list Qc) (med : Qc) :
  mad values med = median (map (fun value => Qcabs (value - med)) values).
Proof. unfold mad. rewrite fold_left_snoc_map. reflexivity. Qed.

Lemma count_deviations (values : list Qc) (med : Qc) :
  count 0 (map (fun value => Qcabs (value - med)) values) = count med values.
Proof.
  unfold count. induction values as [|v values IH]; simpl; [reflexivity|].
  assert (Heq : eqb (Qcabs (v - med)) 0 = eqb v med).
  { unfold eqb. apply bool_decide_ext. split.
    - intros Habs. pose proof (Qcle_Qcabs (v - med)) as H1.
      pose proof (Qcle_Qcabs (- (v - med))) as H2.
      rewrite Qcabs_opp in H2. rewrite Habs in H1, H2. clear Habs. qc_lra.
    - intros ->. replace (med - med) with 0 by ring.
      apply Qcabs_pos, Qcle_refl. }
  rewrite Heq. destruct (eqb v med); simpl; rewrite IH; reflexivity.
Qed.

(** X6. The MAD is never negative, and it is zero as soon as more than
    half of the samples equal the centre it is taken around. *)
Theorem X6_mad_nonnegative_and_zero (values : list Qc) (med : Qc) :
  0 ≤ mad values med
  /\ ((length values < 2 * count med values)%nat -> mad values med = 0).
Proof.
  rewrite mad_map. split.
  - destruct values as [|v values]; [apply Qcle_refl|].
    apply median_ge; [discriminate|].
    intros d Hd. apply in_map_iff in Hd. destruct Hd as (w & <- & _).
    apply Qcabs_nonneg.
  - intros Hmaj. apply median_majority.
    rewrite length_map, count_deviations. exact Hmaj.
Qed.

(** ** The detectors *)

Lemma detectMADBased_length (f : OutlierDetection.t) (input : Signal) :
  length (OutlierDetection.detectMADBased f input) = length input.
Proof.
  unfold OutlierDetection.detectMADBased. rewrite for_loop_length.
  - apply repeat_length.
  - intros i acc. cbv zeta.
    repeat match goal with
           | |- context [if ?b then _ else _] => destruct b
           end; rewrite ?length_insert; reflexivity.
Qed.

Lemma detectStatistical_length `{CLib} (f : OutlierDetection.t) (input : Signal) :
  length (OutlierDetection.detectStatistical f input) = length input.
Proof.
  unfold OutlierDetection.detectStatistical. cbv zeta.
  destruct (eqb _ 0); [apply repeat_length|].
  rewrite for_loop_length; [apply repeat_length|].
  intros i acc. destruct (ltb _ _); rewrite ?length_insert; reflexivity.
Qed.

Lemma detectAdaptiveThreshold_length `{CLib} (f : OutlierDetection.t) (input : Signal) :
  length (OutlierDetection.detectAdaptiveThreshold f input) = length input.
Proof.
  unfold OutlierDetection.detectAdaptiveThreshold. cbv zeta.
  rewrite for_loop_length; [apply repeat_length|].
  intros i acc.
  match goal with
  | |- context [let '(_, _) := ?p in _] => destruct p as [localSum count]
  end.
  repeat match goal with
         | |- context [if ?b then _ else _] => destruct b
         end; rewrite ?length_insert; reflexivity.
Qed.

Lemma detectOutliers_length `{CLib} (f : OutlierDetection.t) (input : Signal) :
  length (OutlierDetection.detectOutliers f input) = length input.
Proof.
  unfold OutlierDetection.detectOutliers.
  destruct (OutlierDetection.detectionMethod_ f);
    auto using detectMADBased_length, detectStatistical_length,
               detectAdaptiveThreshold_length.
Qed.

(** X7. The MAD-based detector has a blind spot: it flags no index whose
    window holds more than half equal samples, however far the sample at
    the index lies from them (the MAD of such a window is zero and a zero
    MAD skips the test). *)
Theorem X7_mad_detector_blind_spot (f : OutlierDetection.t) (input : Signal)
    (i : nat) (c : Qc) :
  let window :=
    OutlierDetection.windowAround (OutlierDetection.windowSize_ f / 2) input i in
  (length window < 2 * count c window)%nat ->
  nth i (OutlierDetection.detectMADBased f input) false = false.
Proof.
  intros window Hmaj.
  destruct (Nat.lt_ge_cases i (length input)) as [Hi|Hi];
    [|apply nth_overflow; rewrite detectMADBased_length; exact Hi].
  rewrite detectMADBased_rule by exact Hi. fold window.
  rewrite (median_majority c window Hmaj).
  assert (Hmad : mad window c = 0).
  { rewrite mad_map. apply median_majority.
    rewrite length_map, count_deviations. exact Hmaj. }
  rewrite Hmad.
  assert (Hz : ltb 0 0 = false) by (apply ltb_nlt, Qcle_refl).
  rewrite Hz. rewrite andb_false_r. reflexivity.
Qed.

Lemma X7_mad_detector_blind_spot_witness :
  nth 3 (OutlierDetection.detectMADBased detector35 spike7) false = false.
Proof.
  apply (X7_mad_detector_blind_spot detector35 spike7 3 0).
  vm_compute. lia.
Defined.

(** ** The nearest samples that are not flagged *)

Lemma searchLeft_spec (outliers : list bool) (i : nat) :
  (OutlierDetection.searchLeft outliers i = (-1)%Z
   /\ forall k, (k < i)%nat -> nth k outliers false = true)
  \/ exists k,
       OutlierDetection.searchLeft outliers i = Z.of_nat k
       /\ (k < i)%nat /\ nth k outliers false = false
       /\ forall m, (k < m < i)%nat -> nth m outliers false = true.
Proof.
  induction i as [|i IH]; simpl.
  - left. split; [reflexivity|]. intros k Hk. lia.
  - destruct (nth i outliers false) eqn:Hi; simpl.
    + destruct IH as [[Hs Hall]|(k & Hs & Hk & Hfree & Hall)].
      * left. split; [exact Hs|]. intros k Hk.
        destruct (decide (k = i)) as [->|Hne]; [exact Hi|apply Hall; lia].
      * right. exists k. repeat split; [exact Hs|lia|exact Hfree|].
        intros m Hm. destruct (decide (m = i)) as [->|Hne]; [exact Hi|apply Hall; lia].
    + right. exists i. repeat split; [lia|exact Hi|]. intros m Hm. lia.
Qed.

Lemma searchRight_spec (outliers : list bool) (i todo : nat) :
  (OutlierDetection.searchRight outliers i todo = (-1)%Z
   /\ forall k, (i <= k < i + todo)%nat -> nth k outliers false = true)
  \/ exists k,
       OutlierDetection.searchRight outliers i todo = Z.of_nat k
       /\ (i <= k < i + todo)%nat /\ nth k outliers false = false
       /\ forall m, (i <= m < k)%nat -> nth m outliers false = true.
Proof.
  revert i. induction todo as [|todo IH]; intros i; simpl.
  - left. split; [reflexivity|]. intros k Hk. lia.
  - destruct (nth i outliers false) eqn:Hi; simpl.
    + destruct (IH (S i)) as [[Hs Hall]|(k & Hs & Hk & Hfree & Hall)].
      * left. split; [exact Hs|]. intros k Hk.
        destruct (decide (k = i)) as [->|Hne]; [exact Hi|apply Hall; lia].
      * right. exists k. repeat split; [exact Hs|lia|lia|exact Hfree|].
        intros m Hm. destruct (decide (m = i)) as [->|Hne]; [exact Hi|apply Hall; lia].
    + right. exists i. repeat split; [lia|lia|exact Hi|]. intros m Hm. lia.
Qed.

(** X8. [findNearestNormalPoints] returns, on either side of [index],
    the nearest index that is not flagged, and [-1] exactly when every
    index on that side is flagged. *)
Theorem X8_nearest_normal_points (outliers : list bool) (index : nat) :
  (index < length outliers)%nat ->
  nearest_left outliers index
    (fst (OutlierDetection.findNearestNormalPoints outliers index))
  /\ nearest_right outliers index
       (snd (OutlierDetection.findNearestNormalPoints outliers index)).
Proof.
  intros Hidx. simpl. split.
  - apply searchLeft_spec.
  - destruct (searchRight_spec outliers (index + 1)
                (length outliers - (index + 1)))
      as [[Hs Hall]|(k & Hs & Hk & Hfree & Hall)].
    + left. split; [exact Hs|]. intros k Hk. apply Hall. lia.
    + right. exists k. repeat split; [exact Hs|lia|lia|exact Hfree|].
      intros m Hm. apply Hall. lia.
Qed.

Lemma X8_nearest_normal_points_witness :
  nearest_left [false; true; true; false] 1
    (fst (OutlierDetection.findNearestNormalPoints [false; true; true; false] 1))
  /\ nearest_right [false; true; true; false] 1
       (snd (OutlierDetection.findNearestNormalPoints [false; true; true; false] 1)).
Proof. apply X8_nearest_normal_points. simpl. lia. Defined.

(** ** The interpolations keep what is not flagged *)

Lemma for_loop_keeps_unflagged (outliers : list bool) (body : nat -> Signal -> Signal)
    (input : Signal) (n j : nat) :
  (forall i l, nth i outliers false = false -> body i l = l) ->
  (forall i l, i <> j -> nth j (body i l) 0 = nth j l 0) ->
  nth j outliers false = false ->
  nth j (for_loop 0 n body input) 0 = nth j input 0.
Proof.
  intros Hskip Hother Hj.
  apply (for_loop_inv (fun _ l => nth j l 0 = nth j input 0)); [lia|reflexivity|].
  intros i acc _ Hacc. destruct (decide (i = j)) as [->|Hne].
  - rewrite Hskip by exact Hj. exact Hacc.
  - rewrite Hother by exact Hne. exact Hacc.
Qed.

Lemma interpolateLinear_keeps (input : Signal) (outliers : list bool) (j : nat) :
  nth j outliers false = false ->
  nth j (OutlierDetection.interpolateLinear input outliers) 0 = nth j input 0.
Proof.
  unfold OutlierDetection.interpolateLinear. apply for_loop_keeps_unflagged.
  - intros i l Hi. rewrite Hi. reflexivity.
  - intros i l Hne. destruct (nth i outliers false); [|reflexivity].
    destruct (OutlierDetection.findNearestNormalPoints outliers i) as [leftIdx rightIdx].
    repeat match goal with
           | |- context [if ?b then _ else _] => destruct b
           end; rewrite ?nth_insert_ne by congruence; reflexivity.
Qed.

Lemma interpolateMedian_keeps (f : OutlierDetection.t) (input : Signal)
    (outliers : list bool) (j : nat) :
  nth j outliers false = false ->
  nth j (OutlierDetection.interpolateMedian f input outliers) 0 = nth j input 0.
Proof.
  unfold OutlierDetection.interpolateMedian. apply for_loop_keeps_unflagged.
  - intros i l Hi. rewrite Hi. reflexivity.
  - intros i l Hne. destruct (nth i outliers false); [|reflexivity].
    match goal with
    | |- context [match ?nb with [] => _ | _ => _ end] => destruct nb
    end; rewrite ?nth_insert_ne by congruence; reflexivity.
Qed.

Lemma interpolateAutoregressive_keeps (f : OutlierDetection.t) (input : Signal)
    (outliers : list bool) (j : nat) :
  nth j outliers false = false ->
  nth j (OutlierDetection.interpolateAutoregressive f input outliers) 0 = nth j input 0.
Proof.
  unfold OutlierDetection.interpolateAutoregressive. apply for_loop_keeps_unflagged.
  - intros i l Hi. rewrite Hi. reflexivity.
  - intros i l Hne. destruct (nth i outliers false); [|reflexivity].
    match goal with
    | |- context [for_loop ?a ?b ?c ?d] => destruct (for_loop a b c d) as [[sum ws] used]
    end.
    destruct (ltb 0 ws); rewrite nth_insert_ne by congruence; reflexivity.
Qed.

Lemma process_keeps `{CLib} (f : OutlierDetection.t) (input : Signal) (j : nat) :
  nth j (OutlierDetection.detectOutliers f input) false = false ->
  nth j (OutlierDetection.process f input) 0 = nth j input 0.
Proof.
  intros Hj. unfold OutlierDetection.process.
  destruct input as [|x input]; [reflexivity|].
  destruct (OutlierDetection.interpolationMethod_ f);
    auto using interpolateLinear_keeps, interpolateMedian_keeps,
               interpolateAutoregressive_keeps.
Qed.

(** X9. Outlier removal rewrites flagged samples only: with every
    detection method and every interpolation method, a sample that the
    detector did not flag comes out as it went in; a signal in which
    nothing is flagged is returned unchanged. *)
Theorem X9_unflagged_samples_are_kept `{CLib} (f : OutlierDetection.t) (input : Signal) :
  (forall j, nth j (OutlierDetection.detectOutliers f input) false = false ->
             nth j (OutlierDetection.process f input) 0 = nth j input 0)
  /\ ((forall j, nth j (OutlierDetection.detectOutliers f input) false = false) ->
      OutlierDetection.process f input = input).
Proof.
  split; [apply process_keeps|]. intros Hnone.
  apply (nth_ext _ _ 0 0); [apply OutlierDetection_process_length|].
  intros j _. apply process_keeps, Hnone.
Qed.

(** ** The interpolations do not overshoot *)

Lemma quotient_between (lo hi s ws : Qc) :
  0 < ws -> lo * ws ≤ s -> s ≤ hi * ws -> lo ≤ s / ws /\ s / ws ≤ hi.
Proof.
  intros Hws Hlo Hhi.
  assert (Hq : s / ws * ws = s) 
    by (field; intros Hz; apply (Qclt_not_eq _ _ Hws); symmetry; exact Hz).
  revert Hq. generalize (s / ws). intros q Hq. split; qc_nra.
Qed.

Lemma linearInterpolate_between (lo hi x1 y1 x2 y2 x : Qc) :
  x1 ≤ x -> x ≤ x2 -> lo ≤ y1 -> y1 ≤ hi -> lo ≤ y2 -> y2 ≤ hi ->
  lo ≤ linearInterpolate x1 y1 x2 y2 x /\ linearInterpolate x1 y1 x2 y2 x ≤ hi.
Proof.
  intros Hx1 Hx2 Hl1 Hh1 Hl2 Hh2. unfold linearInterpolate.
  destruct (ltb (Qcabs (x2 - x1)) (qfrac 1 10000000000)) eqn:Hclose;
    [split; assumption|].
  assert (Hd : x2 - x1 <> 0).
  { intros Hz. rewrite Hz in Hclose. apply ltb_nlt in Hclose.
    apply Hclose. reflexivity. }
  assert (Hpos : 0 < x2 - x1).
  { destruct (Qcle_lt_or_eq 0 (x2 - x1)) as [Hlt|Heq]; [qc_lra|exact Hlt|congruence]. }
  replace (y1 + (y2 - y1) * (x - x1) / (x2 - x1))
    with ((y1 * (x2 - x) + y2 * (x - x1)) / (x2 - x1)) by (field; exact Hd).
  apply quotient_between; [exact Hpos|qc_nra|qc_nra].
Qed.

Lemma bounded_insert (lo hi : Qc) (x : Signal) (i : nat) (v : Qc) :
  bounded lo hi x -> lo ≤ v -> v ≤ hi -> bounded lo hi (<[i := v]> x).
Proof.
  intros Hx Hlo Hhi j Hj. rewrite length_insert in Hj. rewrite nth_insert.
  destruct (decide _); [split; assumption|apply Hx, Hj].
Qed.

Lemma within_bounded (lo hi : Qc) (x : Signal) : within lo hi x <-> bounded lo hi x.
Proof.
  split.
  - intros Hx j Hj. apply Hx, nth_In, Hj.
  - intros Hx v Hv. destruct (In_nth _ _ 0 Hv) as (j & Hj & <-). apply Hx, Hj.
Qed.

Lemma Qc_of_Z_lt (a b : Z) : (a < b)%Z -> Qc_of_Z a < Qc_of_Z b.
Proof. intros Hab. unfold Qclt. simpl. rewrite <- Zlt_Qlt. exact Hab. Qed.

Lemma interpolateLinear_bounded (lo hi : Qc) (input : Signal) (outliers : list bool) :
  length outliers = length input -> bounded lo hi input ->
  bounded lo hi (OutlierDetection.interpolateLinear input outliers).
Proof.
  intros Hlen Hin. unfold OutlierDetection.interpolateLinear.
  apply (for_loop_inv (fun _ l => bounded lo hi l)); [lia|exact Hin|].
  intros i acc Hi Hacc. destruct (nth i outliers false); [|exact Hacc].
  unfold OutlierDetection.findNearestNormalPoints.
  destruct (searchLeft_spec outliers i) as [[Hl _]|(kl & Hl & Hkl & _)];
    destruct (searchRight_spec outliers (i + 1) (length outliers - (i + 1)))
      as [[Hr _]|(kr & Hr & Hkr & _)];
    rewrite Hl, Hr.
  - exact Hacc.
  - replace (0 <=? -1)%Z with false by reflexivity.
    replace (0 <=? Z.of_nat kr)%Z with true by (symmetry; apply Z.leb_le; lia).
    simpl. rewrite Nat2Z.id. apply bounded_insert; [exact Hacc| |]; apply Hin; lia.
  - replace (0 <=? -1)%Z with false by reflexivity.
    replace (0 <=? Z.of_nat kl)%Z with true by (symmetry; apply Z.leb_le; lia).
    simpl. rewrite Nat2Z.id. apply bounded_insert; [exact Hacc| |]; apply Hin; lia.
  - replace (0 <=? Z.of_nat kl)%Z with true by (symmetry; apply Z.leb_le; lia).
    replace (0 <=? Z.of_nat kr)%Z with true by (symmetry; apply Z.leb_le; lia).
    simpl. rewrite !Nat2Z.id.
    assert (Hbetween :
              lo ≤ linearInterpolate (Qc_of_Z (Z.of_nat kl)) (nth kl input 0)
                     (Qc_of_Z (Z.of_nat kr)) (nth kr input 0) (of_nat i)
              /\ linearInterpolate (Qc_of_Z (Z.of_nat kl)) (nth kl input 0)
                   (Qc_of_Z (Z.of_nat kr)) (nth kr input 0) (of_nat i) ≤ hi).
    { apply linearInterpolate_between; try (apply Hin; lia);
        apply Qclt_le_weak, Qc_of_Z_lt; lia. }
    apply bounded_insert; [exact Hacc|apply Hbetween|apply Hbetween].
Qed.

Lemma interpolateMedian_bounded (lo hi : Qc) (f : OutlierDetection.t) (input : Signal)
    (outliers : list bool) :
  length outliers = length input -> bounded lo hi input ->
  bounded lo hi (OutlierDetection.interpolateMedian f input outliers).
Proof.
  intros Hlen Hin. unfold OutlierDetection.interpolateMedian. cbv zeta.
  apply (for_loop_inv (fun _ l => bounded lo hi l)); [lia|exact Hin|].
  intros i acc Hi Hacc. destruct (nth i outliers false); [|exact Hacc].
  set (h := Nat.min (OutlierDetection.windowSize_ f / 2) 5).
  match goal with
  | |- context [for_loop ?a ?b ?c []] => set (neighbors := for_loop a b c [])
  end.
  assert (Hnb : within lo hi neighbors).
  { unfold neighbors.
    apply (for_loop_inv (fun k nb => (k <= length input)%nat -> within lo hi nb)).
    - unfold OutlierDetection.startIdx, OutlierDetection.endIdx.
      destruct (Nat.leb_spec h i); lia.
    - intros _ v [].
    - intros j nb Hj Hnb Hle.
      assert (Hnb' : within lo hi nb) by (apply Hnb; lia).
      destruct (negb (j =? i)%nat && negb (nth j outliers false)); [|exact Hnb'].
      intros v Hv. apply in_app_iff in Hv. destruct Hv as [Hv|[<-|[]]].
      + apply Hnb', Hv.
      + apply Hin. lia.
    - unfold OutlierDetection.endIdx. lia. }
  clearbody neighbors. destruct neighbors as [|v nb]; [exact Hacc|].
  apply bounded_insert; [exact Hacc|apply median_ge|apply median_le];
    (discriminate || (intros w Hw; apply (Hnb w Hw))).
Qed.

Lemma interpolateAutoregressive_bounded (lo hi : Qc) (f : OutlierDetection.t)
    (input : Signal) (outliers : list bool) :
  length outliers = length input -> bounded lo hi input ->
  bounded lo hi (OutlierDetection.interpolateAutoregressive f input outliers).
Proof.
  intros Hlen Hin. unfold OutlierDetection.interpolateAutoregressive.
  apply (for_loop_inv (fun _ l => length l = length input /\ bounded lo hi l));
    [lia|split; [reflexivity|exact Hin]|].
  intros i acc Hi [Hacclen Hacc]. destruct (nth i outliers false); [|split; assumption].
  match goal with
  | |- context [for_loop ?a ?b ?c ?d] => set (inner := for_loop a b c d)
  end.
  assert (Hinner : 0 ≤ snd (fst inner)
                   /\ lo * snd (fst inner) ≤ fst (fst inner)
                   /\ fst (fst inner) ≤ hi * snd (fst inner)).
  { unfold inner.
    apply (for_loop_inv
             (fun _ (st : Qc * Qc * nat) =>
                0 ≤ snd (fst st) /\ lo * snd (fst st) ≤ fst (fst st)
                /\ fst (fst st) ≤ hi * snd (fst st))); [lia| |].
    - simpl. repeat split; qc_lra.
    - intros j [[sm ws] used] Hj (Hws & Hlo & Hhi). simpl in *.
      destruct (negb (nth (i - j) outliers false)); simpl; [|repeat split; assumption].
      assert (Hw : 0 < 1 / of_nat j).
      { assert (Hj0 : 0 < of_nat j) by (apply (Qc_of_Z_lt 0); lia).
        assert (Hq : 1 / of_nat j * of_nat j = 1)
          by (field; intros Hz; apply (Qclt_not_eq _ _ Hj0); symmetry; exact Hz).
        revert Hq Hj0. generalize (1 / of_nat j), (of_nat j). intros w q Hq Hq0.
        qc_nra. }
      destruct (Hacc (i - j)%nat) as [Hrlo Hrhi]; [lia|].
      revert Hw Hrlo Hrhi. generalize (1 / of_nat j), (nth (i - j) acc 0).
      intros w r Hw Hrlo Hrhi. repeat split; qc_nra. }
  destruct inner as [[sm ws] used]. simpl in Hinner. destruct Hinner as (Hws & Hlo & Hhi).
  destruct (ltb 0 ws) eqn:Hpos.
  - apply ltb_lt in Hpos. rewrite length_insert. split; [exact Hacclen|].
    destruct (quotient_between lo hi sm ws Hpos Hlo Hhi) as [Hqlo Hqhi].
    apply bounded_insert; assumption.
  - rewrite length_insert. split; [exact Hacclen|].
    destruct (interpolateLinear_bounded lo hi input outliers Hlen Hin i)
      as [Hllo Hlhi]; [rewrite interpolateLinear_length; lia|].
    apply bounded_insert; assumption.
Qed.

(** X10. In exact arithmetic outlier removal does not overshoot: when
    the samples of the input lie in [[lo, hi]], so do those of the
    output, with every detection method and every interpolation method
    (the interpolated values are weighted means of samples of the input;
    rounding is left out). *)
Theorem X10_outlier_removal_stays_within `{CLib} (f : OutlierDetection.t)
    (input : Signal) (lo hi : Qc) :
  within lo hi input -> within lo hi (OutlierDetection.process f input).
Proof.
  rewrite !within_bounded. intros Hin. unfold OutlierDetection.process.
  destruct input as [|x input]; [exact Hin|].
  pose proof (detectOutliers_length f (x :: input)) as Hlen.
  destruct (OutlierDetection.interpolationMethod_ f);
    auto using interpolateLinear_bounded, interpolateMedian_bounded,
               interpolateAutoregressive_bounded.
Qed.

Lemma X10_outlier_removal_stays_within_witness :
  within 0 (qz 30) (OutlierDetection.process detector35 ramp_spike).
Proof.
  apply X10_outlier_removal_stays_within.
  apply within_forallb. vm_compute. reflexivity.
Defined.

(** ** Erosion, dilation, opening and closing with a flat element *)

Lemma closing_unfold (f : MorphologicalFilter.t) (x : Signal) :
  MorphologicalFilter.structuringElement_ f <> [] ->
  MorphologicalFilter.closing f x
  = Ok (MorphologicalFilter.erosion f (MorphologicalFilter.dilation f x)).
Proof.
  intros Hse. unfold MorphologicalFilter.closing.
  rewrite MorphologicalFilter_new_ok by exact Hse. reflexivity.
Qed.

(** X11. With a flat structuring element (of any size the constructor
    accepts) and finite samples, erosion lies below the signal and
    dilation above it, sample by sample, and both return samples of the
    signal only. *)
Theorem X11_erosion_below_dilation_above (f : MorphologicalFilter.t) (x : Signal)
    (i : nat) :
  Forall (fun e => e = 0) (MorphologicalFilter.structuringElement_ f) ->
  MorphologicalFilter.structuringElement_ f <> [] ->
  finite x -> (i < length x)%nat ->
  nth i (MorphologicalFilter.erosion f x) 0 ≤ nth i x 0
  /\ nth i x 0 ≤ nth i (MorphologicalFilter.dilation f x) 0
  /\ In (nth i (MorphologicalFilter.erosion f x) 0) x
  /\ In (nth i (MorphologicalFilter.dilation f x) 0) x.
Proof.
  intros Hflat Hse Hfin Hi.
  assert (Hm : (0 < length (MorphologicalFilter.structuringElement_ f))%nat)
    by (destruct (MorphologicalFilter.structuringElement_ f); [congruence|simpl; lia]).
  rewrite erosion_nth, dilation_nth by exact Hi.
  destruct (erodeAt_flat f Hflat x i Hfin Hm Hi) as [Hlow (ke & Hke & Hatte)].
  destruct (dilateAt_flat f Hflat x i Hfin Hm Hi) as [Hup (kd & Hkd & Hattd)].
  split; [apply Hlow, covers_self; assumption|].
  split; [apply Hup, covers_self; assumption|].
  split.
  - rewrite Hatte. apply nth_In. apply Hke.
  - rewrite Hattd. apply nth_In. apply Hkd.
Qed.

Lemma X11_erosion_below_dilation_above_witness :
  nth 2 (MorphologicalFilter.erosion opening3 spike5) 0 ≤ nth 2 spike5 0
  /\ nth 2 spike5 0 ≤ nth 2 (MorphologicalFilter.dilation opening3 spike5) 0
  /\ In (nth 2 (MorphologicalFilter.erosion opening3 spike5) 0) spike5
  /\ In (nth 2 (MorphologicalFilter.dilation opening3 spike5) 0) spike5.
Proof.
  apply X11_erosion_below_dilation_above.
  - repeat constructor.
  - discriminate.
  - apply finiteb_finite. vm_compute. reflexivity.
  - simpl. lia.
Defined.

(** With an element of odd size, dilating the erosion of a dilation
    gives the dilation back. *)
Lemma dilation_erosion_dilation (f : MorphologicalFilter.t) (x : Signal) :
  Forall (fun e => e = 0) (MorphologicalFilter.structuringElement_ f) ->
  finite x -> Nat.Odd (length (MorphologicalFilter.structuringElement_ f)) ->
  MorphologicalFilter.dilation f
    (MorphologicalFilter.erosion f (MorphologicalFilter.dilation f x))
  = MorphologicalFilter.dilation f x.
Proof.
  intros Hflat Hfin Hodd.
  set (m := length (MorphologicalFilter.structuringElement_ f)) in *.
  assert (Hm : (0 < m)%nat) by (destruct Hodd as [h Hh]; lia).
  set (d := MorphologicalFilter.dilation f x).
  set (e := MorphologicalFilter.erosion f d).
  assert (Hld : length d = length x) by apply dilation_length.
  assert (Hle : length e = length x) by (unfold e; rewrite erosion_length; exact Hld).
  assert (Hfd : finite d) by (apply dilation_finite; assumption).
  assert (Hfe : finite e) by (apply erosion_finite; assumption).
  assert (Hd : forall j, (j < length x)%nat ->
                         nth j d 0 = MorphologicalFilter.dilateAt f x j)
    by (intros j Hj; apply dilation_nth; exact Hj).
  assert (He : forall j, (j < length x)%nat ->
                         nth j e 0 = MorphologicalFilter.erodeAt f d j)
    by (intros j Hj; apply erosion_nth; lia).
  apply (nth_ext _ _ 0 0); [rewrite dilation_length; lia|].
  intros i Hi. rewrite dilation_length, Hle in Hi.
  rewrite dilation_nth by lia. rewrite Hd by exact Hi.
  destruct (dilateAt_flat f Hflat e i Hfe Hm ltac:(lia)) as [Hup (k & Hk & Hatt)].
  rewrite Hle in Hup, Hk.
  destruct (dilateAt_flat f Hflat x i Hfin Hm Hi) as [Hup0 (k0 & Hk0 & Hatt0)].
  apply Qcle_antisym.
  - (* the erosion at [k] lies below the dilation at [i] *)
    rewrite Hatt.
    assert (Hkn : (k < length x)%nat) by (destruct Hk; assumption).
    rewrite He by exact Hkn.
    destruct (erodeAt_flat f Hflat d k Hfd Hm ltac:(lia)) as [Hlow _].
    rewrite Hld in Hlow. rewrite <- Hd by exact Hi.
    apply Hlow. apply covers_sym; assumption.
  - (* the closing lies above the signal at [k0] *)
    rewrite Hatt0. eapply Qcle_trans; [|apply Hup; exact Hk0].
    assert (Hk0n : (k0 < length x)%nat) by (destruct Hk0; assumption).
    rewrite He by exact Hk0n.
    destruct (erodeAt_flat f Hflat d k0 Hfd Hm ltac:(lia)) as [_ (k1 & Hk1 & ->)].
    rewrite Hld in Hk1.
    assert (Hk1n : (k1 < length x)%nat) by (destruct Hk1; assumption).
    rewrite Hd by exact Hk1n.
    destruct (dilateAt_flat f Hflat x k1 Hfin Hm Hk1n) as [Hup1 _].
    apply Hup1. apply covers_sym; assumption.
Qed.

(** X12. For a flat structuring element of odd size and finite samples
    the closing (dilation, then erosion) is idempotent, as the opening
    is. *)
Theorem X12_closing_idempotent_for_odd_flat_element
    (f : MorphologicalFilter.t) (x : Signal) :
  Forall (fun e => e = 0) (MorphologicalFilter.structuringElement_ f) ->
  Nat.Odd (length (MorphologicalFilter.structuringElement_ f)) ->
  finite x ->
  exists y,
    MorphologicalFilter.closing f x = Ok y
    /\ MorphologicalFilter.closing f y = Ok y.
Proof.
  intros Hflat Hodd Hfin.
  assert (Hse : MorphologicalFilter.structuringElement_ f <> []).
  { intros Hnil. rewrite Hnil in Hodd. destruct Hodd as [h Hh]. simpl in Hh. lia. }
  exists (MorphologicalFilter.erosion f (MorphologicalFilter.dilation f x)).
  split; [apply closing_unfold; exact Hse|].
  rewrite closing_unfold by exact Hse.
  rewrite dilation_erosion_dilation by assumption. reflexivity.
Qed.

Lemma X12_closing_idempotent_for_odd_flat_element_witness :
  exists y,
    MorphologicalFilter.closing opening3 spike5 = Ok y
    /\ MorphologicalFilter.closing opening3 y = Ok y.
Proof.
  apply (X12_closing_idempotent_for_odd_flat_element opening3 spike5).
  - repeat constructor.
  - exists 1%nat. reflexivity.
  - apply finiteb_finite. vm_compute. reflexivity.
Defined.

(** X13. For a flat structuring element of odd size and finite samples
    the opening lies below the signal and the closing above it, sample by
    sample. *)
Theorem X13_opening_below_closing_above (f : MorphologicalFilter.t) (x : Signal) :
  Forall (fun e => e = 0) (MorphologicalFilter.structuringElement_ f) ->
  Nat.Odd (length (MorphologicalFilter.structuringElement_ f)) ->
  finite x ->
  exists o c,
    MorphologicalFilter.opening f x = Ok o
    /\ MorphologicalFilter.closing f x = Ok c
    /\ forall i, (i < length x)%nat -> nth i o 0 ≤ nth i x 0 /\ nth i x 0 ≤ nth i c 0.
Proof.
  intros Hflat Hodd Hfin.
  assert (Hse : MorphologicalFilter.structuringElement_ f <> []).
  { intros Hnil. rewrite Hnil in Hodd. destruct Hodd as [h Hh]. simpl in Hh. lia. }
  set (m := length (MorphologicalFilter.structuringElement_ f)) in *.
  assert (Hm : (0 < m)%nat) by (destruct Hodd as [h Hh]; lia).
  eexists _, _. split; [apply opening_unfold; exact Hse|].
  split; [apply closing_unfold; exact Hse|].
  intros i Hi. split.
  - rewrite dilation_nth by (rewrite erosion_length; exact Hi).
    destruct (dilateAt_flat f Hflat (MorphologicalFilter.erosion f x) i)
      as [_ (k & Hk & ->)];
      [apply erosion_finite; assumption|exact Hm|rewrite erosion_length; exact Hi|].
    rewrite erosion_length in Hk.
    assert (Hkn : (k < length x)%nat) by (destruct Hk; assumption).
    rewrite erosion_nth by exact Hkn.
    destruct (erodeAt_flat f Hflat x k Hfin Hm Hkn) as [Hlow _].
    apply Hlow. apply covers_sym; assumption.
  - rewrite erosion_nth by (rewrite dilation_length; exact Hi).
    destruct (erodeAt_flat f Hflat (MorphologicalFilter.dilation f x) i)
      as [_ (k & Hk & ->)];
      [apply dilation_finite; assumption|exact Hm|rewrite dilation_length; exact Hi|].
    rewrite dilation_length in Hk.
    assert (Hkn : (k < length x)%nat) by (destruct Hk; assumption).
    rewrite dilation_nth by exact Hkn.
    destruct (dilateAt_flat f Hflat x k Hfin Hm Hkn) as [Hup _].
    apply Hup. apply covers_sym; assumption.
Qed.

Lemma X13_opening_below_closing_above_witness :
  exists o c,
    MorphologicalFilter.opening opening3 spike5 = Ok o
    /\ MorphologicalFilter.closing opening3 spike5 = Ok c
    /\ forall i, (i < length spike5)%nat ->
                 nth i o 0 ≤ nth i spike5 0 /\ nth i spike5 0 ≤ nth i c 0.
Proof.
  apply (X13_opening_below_closing_above opening3 spike5).
  - repeat constructor.
  - exists 1%nat. reflexivity.
  - apply finiteb_finite. vm_compute. reflexivity.
Defined.

(** ** Erosion and dilation are dual *)

Lemma for_loop_rel {S T : Type} (R : S -> T -> Prop) (lo hi : nat)
    (body1 : nat -> S -> S) (body2 : nat -> T -> T) (s : S) (t : T) :
  R s t ->
  (forall i a b, (lo <= i < hi)%nat -> R a b -> R (body1 i a) (body2 i b)) ->
  R (for_loop lo hi body1 s) (for_loop lo hi body2 t).
Proof.
  intros Hinit Hstep.
  destruct (Nat.le_gt_cases lo hi) as [Hle|Hgt];
    [|rewrite !for_loop_empty by lia; exact Hinit].
  pose (P := fun (k : nat) (p : S * T) => R (fst p) (snd p)).
  assert (Hpair : for_loop lo hi (fun i p => (body1 i (fst p), body2 i (snd p))) (s, t)
                  = (for_loop lo hi body1 s, for_loop lo hi body2 t)).
  { apply (for_loop_inv
             (fun k p => p = (for_loop lo k body1 s, for_loop lo k body2 t)));
      [exact Hle|rewrite !for_loop_empty by lia; reflexivity|].
    intros i acc Hi ->. simpl. rewrite !for_loop_last by lia. reflexivity. }
  change (P hi (for_loop lo hi body1 s, for_loop lo hi body2 t)).
  rewrite <- Hpair. apply for_loop_inv; [exact Hle|exact Hinit|].
  intros i [a b] Hi Hab. apply Hstep; assumption.
Qed.

Lemma std_min_opp (a b : Qc) : std_min (- a) (- b) = - std_max a b.
Proof.
  unfold std_min, std_max.
  assert (Hcond : ltb (- b) (- a) = ltb a b)
    by (unfold ltb; apply bool_decide_ext; split; intros Hlt; qc_lra).
  rewrite Hcond. destruct (ltb a b); reflexivity.
Qed.

Lemma erodeAt_opp (f : MorphologicalFilter.t) (x : Signal) (i : nat) :
  (i < length x)%nat ->
  MorphologicalFilter.erodeAt f (map Qcopp x) i = - MorphologicalFilter.dilateAt f x i.
Proof.
  intros Hi. unfold MorphologicalFilter.erodeAt, MorphologicalFilter.dilateAt. cbv zeta.
  set (u := for_loop _ _ _ DBL_MAX). set (v := for_loop _ _ _ DBL_LOWEST).
  assert (Hloop : u = - v).
  { unfold u, v. apply (for_loop_rel (fun a b => a = - b)).
    - unfold DBL_LOWEST. symmetry. apply Qcopp_involutive.
    - intros j a b _ ->.
      assert (Hin : MorphologicalFilter.inSignal (map Qcopp x)
                      (MorphologicalFilter.signalIndex i
                         (length (MorphologicalFilter.structuringElement_ f) / 2) j)
                    = MorphologicalFilter.inSignal x
                        (MorphologicalFilter.signalIndex i
                           (length (MorphologicalFilter.structuringElement_ f) / 2) j))
        by (unfold MorphologicalFilter.inSignal; rewrite length_map; reflexivity).
      rewrite Hin.
      destruct (MorphologicalFilter.inSignal x _) eqn:Hidx; [|reflexivity].
      unfold MorphologicalFilter.inSignal in Hidx.
      apply andb_true_iff in Hidx. destruct Hidx as [Hlo Hhi].
      apply Z.leb_le in Hlo. apply Z.ltb_lt in Hhi.
      rewrite (nth_indep _ 0 (- 0)) by (rewrite length_map; lia).
      rewrite map_nth. rewrite <- std_min_opp. f_equal. ring. }
  clearbody u v. subst u.
  assert (Hsentinel : eqb (- v) DBL_MAX = eqb v DBL_LOWEST).
  { unfold eqb, DBL_LOWEST. generalize DBL_MAX. intros M.
    apply bool_decide_ext. split.
    - intros <-. symmetry. apply Qcopp_involutive.
    - intros ->. apply Qcopp_involutive. }
  rewrite Hsentinel. destruct (eqb v DBL_LOWEST); [|reflexivity].
  rewrite (nth_indep _ 0 (- 0)) by (rewrite length_map; exact Hi).
  apply map_nth.
Qed.

Lemma map_opp_opp (x : Signal) : map Qcopp (map Qcopp x) = x.
Proof.
  rewrite map_map. rewrite <- (map_id x) at 2. apply map_ext.
  intros v. apply Qcopp_involutive.
Qed.

Lemma erosion_opp (f : MorphologicalFilter.t) (x : Signal) :
  MorphologicalFilter.erosion f (map Qcopp x)
  = map Qcopp (MorphologicalFilter.dilation f x).
Proof.
  apply (nth_ext _ _ 0 (- 0));
    [rewrite erosion_length, !length_map, dilation_length; reflexivity|].
  intros i Hi. rewrite erosion_length, length_map in Hi.
  rewrite erosion_nth by (rewrite length_map; exact Hi).
  rewrite map_nth, dilation_nth by exact Hi.
  apply erodeAt_opp. exact Hi.
Qed.

(** X14. Erosion and dilation are dual under negation, for every
    structuring element and every signal: eroding the negated signal
    gives the negated dilation, and dilating it the negated erosion (the
    two sentinels of the loops are each other's negation). *)
Theorem X14_erosion_dilation_duality (f : MorphologicalFilter.t) (x : Signal) :
  MorphologicalFilter.erosion f (map Qcopp x)
  = map Qcopp (MorphologicalFilter.dilation f x)
  /\ MorphologicalFilter.dilation f (map Qcopp x)
     = map Qcopp (MorphologicalFilter.erosion f x).
Proof.
  split; [apply erosion_opp|].
  rewrite <- (map_opp_opp x) at 2. rewrite erosion_opp, map_opp_opp. reflexivity.
Qed.

(** ** The Savitzky-Golay filter away from and at the ends *)

(** What the constructor leaves in the object: an odd window and the
    taps of a solution of the normal equations. *)
Lemma SavgolFilter_new_taps (W K : nat) (f : SavgolFilter.t) :
  SavgolFilter.new W K = Ok f ->
  exists c,
    W = (2 * (W / 2) + 1)%nat
    /\ SavgolFilter.windowSize_ f = W
    /\ SavgolFilter.coefficients_ f = SavgolFilter.taps W (W / 2) K c
    /\ solves (K + 1) (SavgolFilter.normalMatrix (W / 2) K)
              (SavgolFilter.rightHandSide K) c.
Proof.
  intros Hnew.
  destruct (SavgolFilter_new_spec W K) as [Hiff Hok].
  destruct (Hok f Hnew) as (HW & HK & Hcoef).
  assert (Hodd : W = (2 * (W / 2) + 1)%nat).
  { assert (Hvalid : ~ (W = 0%nat \/ Nat.Even W \/ (W <= K)%nat))
      by (intros Hbad; apply Hiff in Hbad; congruence).
    pose proof (Nat.div_mod_eq W 2) as Hdiv.
    pose proof (Nat.mod_upper_bound W 2 ltac:(lia)) as Hmod.
    destruct (decide (W mod 2 = 0)%nat) as [Heven|Hne]; [|lia].
    exfalso. apply Hvalid. right. left. exists (W / 2)%nat. lia. }
  unfold SavgolFilter.calculateCoefficients in Hcoef.
  destruct (SavgolFilter.gaussElimination _ _) as [c| | | |] eqn:Hge;
    simpl in Hcoef; try discriminate Hcoef.
  injection Hcoef as Hcoef.
  destruct (normalMatrix_spec (W / 2) K) as [Hsq _].
  destruct (rightHandSide_spec K) as [Hrl _].
  pose proof (gaussElimination_solves (K + 1) _ _ c Hsq Hrl Hge) as Hsol.
  exists c. repeat split; [exact Hodd|exact HW|symmetry; exact Hcoef|exact Hsol].
Qed.

(** X15. In exact arithmetic, the taps that the constructor computes
    sum to one, and the filter returns a constant signal unchanged, at
    the ends as well as inside, as soon as the signal is longer than half
    the window. *)
Theorem X15_savgol_keeps_constants (W K : nat) (f : SavgolFilter.t) (c : Qc) (n : nat) :
  SavgolFilter.new W K = Ok f ->
  (W / 2 < n)%nat ->
  sum_upto W (fun w => nth w (SavgolFilter.coefficients_ f) 0) = 1
  /\ SavgolFilter.process f (repeat c n) = Ok (repeat c n).
Proof.
  intros Hnew Hn.
  destruct (SavgolFilter_new_taps W K f Hnew) as (p & Hodd & HW & Hcoef & Hsol).
  assert (Hone : sum_upto W (fun w => nth w (SavgolFilter.coefficients_ f) 0) = 1).
  { pose proof (taps_reproduce (W / 2) K p [1] Hsol ltac:(simpl; lia)) as Hrep.
    rewrite <- Hodd in Hrep. rewrite <- Hcoef in Hrep.
    etransitivity; [|exact Hrep].
    apply sum_upto_ext. intros w _. unfold polyEval. simpl. ring. }
  split; [exact Hone|].
  rewrite SavgolFilter_process_inside by (rewrite HW, repeat_length; exact Hn).
  f_equal. rewrite repeat_length.
  apply (nth_ext _ _ 0 0); [rewrite length_map, length_seq, repeat_length; reflexivity|].
  intros i Hi. rewrite length_map, length_seq in Hi.
  rewrite nth_map_seq0 by exact Hi. unfold convolution. rewrite HW.
  rewrite repeat_length. rewrite nth_repeat_lt by exact Hi.
  rewrite (sum_upto_ext _ _ (fun w => c * nth w (SavgolFilter.coefficients_ f) 0)).
  - rewrite sum_upto_scale, Hone. ring.
  - intros w Hw. rewrite nth_repeat_lt; [ring|].
    pose proof (reflectedIndex_in_bounds n
                  (Z.of_nat i - Z.of_nat (W / 2) + Z.of_nat w)%Z) as Hb.
    lia.
Qed.

Lemma X15_savgol_keeps_constants_witness :
  exists f,
    SavgolFilter.new 5 2 = Ok f
    /\ sum_upto 5 (fun w => nth w (SavgolFilter.coefficients_ f) 0) = 1
    /\ SavgolFilter.process f (repeat (qz 7) 3) = Ok (repeat (qz 7) 3).
Proof.
  destruct (SavgolFilter.new 5 2) as [f| | | |] eqn:Hnew;
    try (vm_compute in Hnew; discriminate Hnew).
  exists f. split; [reflexivity|].
  apply (X15_savgol_keeps_constants 5 2 f (qz 7) 3); [exact Hnew|simpl; lia].
Defined.

(** X16. The filter reads inside the signal exactly when the signal is
    longer than half the window: then every subscript that [process]
    applies to the input is below its length, and otherwise the sample at
    index 0 is computed from a read past the end. *)
Theorem X16_savgol_reads_in_bounds (f : SavgolFilter.t) (size : nat) :
  (0 < size)%nat -> (0 < SavgolFilter.windowSize_ f)%nat ->
  (forall centerIndex, (centerIndex < size)%nat ->
     Forall (fun idx => (0 <= idx < Z.of_nat size)%Z)
            (SavgolFilter.readIndices f size centerIndex))
  <-> (SavgolFilter.windowSize_ f / 2 < size)%nat.
Proof.
  intros Hsize HW. split.
  - intros Hall. specialize (Hall 0%nat Hsize).
    rewrite List.Forall_forall in Hall.
    specialize (Hall (nth 0 (SavgolFilter.readIndices f size 0) 0%Z)).
    rewrite readIndices_nth in Hall by exact HW.
    destruct (decide (SavgolFilter.windowSize_ f / 2 = 0)%nat) as [Hz|Hnz]; [lia|].
    rewrite reflectedIndex_left in Hall by lia.
    assert (Hin : In (- (Z.of_nat 0 - Z.of_nat (SavgolFilter.windowSize_ f / 2)
                         + Z.of_nat 0))%Z
                     (SavgolFilter.readIndices f size 0)).
    { unfold SavgolFilter.readIndices. apply in_map_iff. exists 0%nat. split.
      - rewrite reflectedIndex_left by lia. reflexivity.
      - apply in_seq. lia. }
    specialize (Hall Hin). lia.
  - intros Hhalf centerIndex Hc. apply readIndices_in_bounds; assumption.
Qed.

Lemma X16_savgol_reads_in_bounds_witness :
  (forall centerIndex, (centerIndex < 3)%nat ->
     Forall (fun idx => (0 <= idx < Z.of_nat 3)%Z)
            (SavgolFilter.readIndices
               {| SavgolFilter.windowSize_ := 5; SavgolFilter.polyOrder_ := 2;
                  SavgolFilter.coefficients_ := [] |} 3 centerIndex))
  <-> (5 / 2 < 3)%nat.
Proof. apply X16_savgol_reads_in_bounds; simpl; lia. Defined.

(** X17. In exact arithmetic the Savitzky-Golay filter is linear: on
    signals of the same length (longer than half the window, so that
    every read is inside them), filtering [a x + b y] gives [a] times the
    filtered [x] plus [b] times the filtered [y], sample by sample. *)
Theorem X17_savgol_is_linear (f : SavgolFilter.t) (a b : Qc) (x y z : Signal) (i : nat) :
  length y = length x -> length z = length x ->
  (SavgolFilter.windowSize_ f / 2 < length x)%nat ->
  (forall t, (t < length x)%nat -> nth t z 0 = a * nth t x 0 + b * nth t y 0) ->
  (i < length x)%nat ->
  exists fx fy fz,
    SavgolFilter.process f x = Ok fx
    /\ SavgolFilter.process f y = Ok fy
    /\ SavgolFilter.process f z = Ok fz
    /\ nth i fz 0 = a * nth i fx 0 + b * nth i fy 0.
Proof.
  intros Hy Hz Hhalf Hsum Hi.
  exists (map (convolution f x) (seq 0 (length x))),
         (map (convolution f y) (seq 0 (length y))),
         (map (convolution f z) (seq 0 (length z))).
  split; [apply SavgolFilter_process_inside; exact Hhalf|].
  split; [apply SavgolFilter_process_inside; rewrite Hy; exact Hhalf|].
  split; [apply SavgolFilter_process_inside; rewrite Hz; exact Hhalf|].
  rewrite !nth_map_seq0 by lia. unfold convolution. rewrite Hy, Hz.
  rewrite <- !sum_upto_scale, <- sum_upto_plus.
  apply sum_upto_ext. intros w Hw.
  pose proof (reflectedIndex_in_bounds (length x)
                (Z.of_nat i - Z.of_nat (SavgolFilter.windowSize_ f / 2)
                 + Z.of_nat w)%Z) as Hb.
  rewrite Hsum by lia. ring.
Qed.

Lemma X17_savgol_is_linear_witness :
  exists fx fy fz,
    SavgolFilter.process average3 (map qz [1; 2; 3]%Z) = Ok fx
    /\ SavgolFilter.process average3 (map qz [1; 0; 1]%Z) = Ok fy
    /\ SavgolFilter.process average3 (map qz [5; 4; 9]%Z) = Ok fz
    /\ nth 1 fz 0 = qz 2 * nth 1 fx 0 + qz 3 * nth 1 fy 0.
Proof.
  apply X17_savgol_is_linear; try reflexivity; try (simpl; lia).
  intros t Ht. simpl in Ht. do 3 (destruct t as [|t]; [qc_eval|]). lia.
Defined.

(** ** Gaussian elimination *)

Lemma backSubstitute_length (n : nat) (m : SavgolFilter.Matrix) (rhs : list Qc) :
  length (SavgolFilter.backSubstitute n m rhs) = n.
Proof.
  unfold SavgolFilter.backSubstitute.
  apply (for_rev_inv (fun _ s => length s = n)); [lia|apply repeat_length|].
  intros i acc _ Hacc. rewrite length_insert.
  rewrite for_loop_length; [rewrite length_insert; exact Hacc|].
  intros j s. apply length_insert.
Qed.

(** X18. Gaussian elimination is sound: on [n] equations in [n]
    unknowns, a vector that [gaussElimination] returns has [n] entries
    and solves the system it was given. *)
Theorem X18_gauss_elimination_is_sound (a : SavgolFilter.Matrix) (b s : list Qc) :
  square (length a) a -> length b = length a ->
  SavgolFilter.gaussElimination a b = Ok s ->
  length s = length a /\ solves (length a) a b s.
Proof.
  intros Hsq Hb Hge. split.
  - unfold SavgolFilter.gaussElimination in Hge.
    destruct (SavgolFilter.forwardPass (length a) (a, b)) as [[m r]| | | |];
      simpl in Hge; try discriminate Hge.
    injection Hge as <-. apply backSubstitute_length.
  - apply gaussElimination_solves; assumption.
Qed.

Lemma X18_gauss_elimination_is_sound_witness :
  length solution2 = length system2 /\ solves (length system2) system2 rhs2 solution2.
Proof.
  apply X18_gauss_elimination_is_sound.
  - split; [reflexivity|]. intros r Hr. simpl in Hr.
    do 2 (destruct r as [|r]; [reflexivity|]). lia.
  - reflexivity.
  - unfold SavgolFilter.gaussElimination, solution2.
    destruct (SavgolFilter.forwardPass (length system2) (system2, rhs2))
      as [[m r]| | | |] eqn:Hfw; vm_compute in Hfw; try discriminate Hfw.
    injection Hfw as <- <-. simpl. f_equal. qc_eval.
Defined.

(** ** The adaptive filter *)

(** X19. The forgetting factor has no effect on [process]: two filters
    that differ in [lambda_] alone return the same output and end with
    the same weights, on every input. *)
Theorem X19_forgetting_factor_is_unused (f : WienerFilter.t) (lambda : Qc)
    (input : Signal) :
  snd (WienerFilter.process
         {| WienerFilter.filterOrder_ := WienerFilter.filterOrder_ f;
            WienerFilter.mu_ := WienerFilter.mu_ f;
            WienerFilter.lambda_ := lambda;
            WienerFilter.weights_ := WienerFilter.weights_ f |} input)
  = snd (WienerFilter.process f input)
  /\ WienerFilter.weights_
       (fst (WienerFilter.process
               {| WienerFilter.filterOrder_ := WienerFilter.filterOrder_ f;
                  WienerFilter.mu_ := WienerFilter.mu_ f;
                  WienerFilter.lambda_ := lambda;
                  WienerFilter.weights_ := WienerFilter.weights_ f |} input))
     = WienerFilter.weights_ (fst (WienerFilter.process f input)).
Proof.
  destruct input as [|x input]; [split; reflexivity|].
  unfold WienerFilter.process, WienerFilter.processLMS.
  change (WienerFilter.lmsRun
            {| WienerFilter.filterOrder_ := WienerFilter.filterOrder_ f;
               WienerFilter.mu_ := WienerFilter.mu_ f;
               WienerFilter.lambda_ := lambda;
               WienerFilter.weights_ := WienerFilter.weights_ f |}
            (x :: input) (length (x :: input)))
    with (WienerFilter.lmsRun f (x :: input) (length (x :: input))).
  destruct (WienerFilter.lmsRun f (x :: input) (length (x :: input))) as [[w d] out].
  split; reflexivity.
Qed.

Lemma nth_zeros (n j : nat) : nth j (repeat (0 : Qc) n) 0 = 0.
Proof. apply nth_repeat. Qed.





Lemma desired_causal (x x' : Signal) (k m : nat) :
  (k < m)%nat -> (m < length x)%nat -> (m < length x')%nat ->
  (forall j, (j <= m)%nat -> nth j x 0 = nth j x' 0) ->
  WienerFilter.desired x k = WienerFilter.desired x' k.
Proof.
  intros Hk Hm Hm' Hagree. unfold WienerFilter.desired.
  destruct (Nat.ltb_spec 0 k); [|apply Hagree; lia].
  destruct (Nat.ltb_spec k (length x - 1)); [|lia].
  destruct (Nat.ltb_spec k (length x' - 1)); [|lia].
  rewrite !Hagree by lia. reflexivity.
Qed.

(** X21. The LMS pass is causal: sample [m] of the output depends on the
    samples [0 .. m] of the input only, although the target of every
    update looks one sample ahead. *)
Theorem X21_lms_output_is_causal (f : WienerFilter.t) (x x' : Signal) (m : nat) :
  (m < length x)%nat -> (m < length x')%nat ->
  (forall j, (j <= m)%nat -> nth j x 0 = nth j x' 0) ->
  nth m (snd (WienerFilter.process f x)) 0 = nth m (snd (WienerFilter.process f x')) 0.
Proof.
  intros Hm Hm' Hagree.
  assert (Hproc : forall input, (m < length input)%nat ->
             nth m (snd (WienerFilter.process f input)) 0
             = nth m (snd (WienerFilter.lmsRun f input (S m))) 0).
  { intros input Hlen. unfold WienerFilter.process.
    destruct input as [|v rest] eqn:Hinput; [simpl in Hlen; lia|]. rewrite <- Hinput in *.
    unfold WienerFilter.processLMS.
    pose proof (lmsRun_output_stable f input m (length input)) as Hst.
    destruct (Nat.eq_dec (S m) (length input)) as [<-|Hne].
    - destruct (WienerFilter.lmsRun f input (S m)) as [[w d] out]. reflexivity.
    - rewrite <- Hst by lia.
      destruct (WienerFilter.lmsRun f input (length input)) as [[w d] out]. reflexivity. }
  rewrite !Hproc by assumption. rewrite !lmsRun_step.
  assert (Hsame : WienerFilter.lmsRun f x m = WienerFilter.lmsRun f x' m).
  { unfold WienerFilter.lmsRun. apply for_loop_ext. intros k [[w d] out] Hk.
    unfold WienerFilter.lmsStep.
    rewrite (desired_causal x x' k m) by (assumption || lia).
    rewrite (Hagree k) by lia. reflexivity. }
  rewrite Hsame.
  pose proof (lmsRun_output_length f x' m) as Hout.
  destruct (WienerFilter.lmsRun f x' m) as [[w d] out]. simpl in Hout.
  unfold WienerFilter.lmsStep. simpl.
  rewrite !app_nth2 by lia. rewrite Hout, Nat.sub_diag. simpl.
  rewrite (Hagree m) by lia. reflexivity.
Qed.

Lemma X21_lms_output_is_causal_witness :
  nth 1 (snd (WienerFilter.process wiener2 (map qz [1; 3; 2]%Z))) 0
  = nth 1 (snd (WienerFilter.process wiener2 (map qz [1; 3; 7; 9]%Z))) 0.
Proof.
  apply X21_lms_output_is_causal; try (simpl; lia).
  intros j Hj. assert (Hcases : (j = 0 \/ j = 1)%nat) by lia.
  destruct Hcases as [-> | ->]; reflexivity.
Defined.

(** ** The quality metrics *)

Lemma sum_upto_nonneg (n : nat) (g : nat -> Qc) :
  (forall i, (i < n)%nat -> 0 ≤ g i) -> 0 ≤ sum_upto n g.
Proof.
  induction n as [|n IH]; intros Hg; simpl; [apply Qcle_refl|].
  assert (H1 : 0 ≤ sum_upto n g) by (apply IH; intros i Hi; apply Hg; lia).
  assert (H2 : 0 ≤ g n) by (apply Hg; lia).
  revert H1 H2. generalize (sum_upto n g), (g n). intros a b Ha Hb. qc_lra.
Qed.

Lemma sum_upto_nonneg_zero (n : nat) (g : nat -> Qc) :
  (forall i, (i < n)%nat -> 0 ≤ g i) -> sum_upto n g = 0 ->
  forall i, (i < n)%nat -> g i = 0.
Proof.
  induction n as [|n IH]; intros Hg Hsum i Hi; [lia|]. simpl in Hsum.
  assert (H1 : 0 ≤ sum_upto n g) by (apply sum_upto_nonneg; intros j Hj; apply Hg; lia).
  assert (H2 : 0 ≤ g n) by (apply Hg; lia).
  assert (Hboth : sum_upto n g = 0 /\ g n = 0).
  { revert H1 H2 Hsum. generalize (sum_upto n g), (g n). intros a b Ha Hb Hab.
    split; qc_lra. }
  destruct (decide (i = n)) as [->|Hne]; [apply Hboth|].
  apply IH; [intros j Hj; apply Hg; lia|apply Hboth|lia].
Qed.

Lemma square_nonneg (a : Qc) : 0 ≤ a * a.
Proof. qc_nra. Qed.

Lemma square_zero (a b : Qc) : (a - b) * (a - b) = 0 -> a = b.
Proof. intros Hsq. qc_nra. Qed.

Lemma of_nat_pos (n : nat) : (0 < n)%nat -> 0 < of_nat n.
Proof. intros Hn. apply (Qc_of_Z_lt 0). lia. Qed.

Lemma of_nat_nonzero (n : nat) : (0 < n)%nat -> of_nat n <> 0.
Proof.
  intros Hn Hz. pose proof (of_nat_pos n Hn) as Hpos. rewrite Hz in Hpos.
  revert Hpos. apply Qcle_not_lt, Qcle_refl.
Qed.

Lemma calculateMSE_sum (x y : Signal) :
  length x = length y -> x <> [] ->
  calculateMSE x y
  = sum_upto (length x) (fun i => (nth i x 0 - nth i y 0) * (nth i x 0 - nth i y 0))
    / of_nat (length x).
Proof.
  intros Hlen Hne. unfold calculateMSE. rewrite Hlen, Nat.eqb_refl.
  destruct (Nat.eqb_spec (length y) 0) as [Hz|Hnz].
  { destruct x; [congruence|simpl in Hlen; lia]. }
  simpl. rewrite <- Hlen.
  rewrite (for_loop_sum (length x)
             (fun i => (nth i x 0 - nth i y 0) * (nth i x 0 - nth i y 0))).
  reflexivity.
Qed.

Lemma quotient_zero (a b : Qc) : b <> 0 -> (a / b = 0 <-> a = 0).
Proof.
  intros Hb. split.
  - intros Hq. assert (Ha : a = a / b * b) by (field; exact Hb).
    rewrite Ha, Hq. ring.
  - intros ->. field. exact Hb.
Qed.

Lemma quotient_nonneg (s n : Qc) : 0 ≤ s -> 0 < n -> 0 ≤ s / n.
Proof.
  intros Hs Hn.
  assert (Hq : s / n * n = s)
    by (field; intros Hz; apply (Qclt_not_eq _ _ Hn); symmetry; exact Hz).
  revert Hq. generalize (s / n). intros q Hq. qc_nra.
Qed.

(** X22. The mean squared error behaves as a squared distance: it is
    never negative, it does not depend on the order of its arguments, and
    between signals of the same length, whose samples are equal or far
    enough apart for the squares not to underflow, it is zero exactly
    when they are equal. *)
Theorem X22_mse_is_a_distance (x y : Signal) :
  0 ≤ calculateMSE x y
  /\ calculateMSE x y = calculateMSE y x
  /\ (length x = length y -> apart x y -> (calculateMSE x y = 0 <-> x = y)).
Proof.
  destruct (decide (length x = length y)) as [Hlen|Hlen].
  2:{ assert (Hxy : calculateMSE x y = 0).
      { unfold calculateMSE. destruct (Nat.eqb_spec (length x) (length y)); [lia|].
        reflexivity. }
      assert (Hyx : calculateMSE y x = 0).
      { unfold calculateMSE. destruct (Nat.eqb_spec (length y) (length x)); [lia|].
        reflexivity. }
      rewrite Hxy, Hyx. split; [apply Qcle_refl|]. split; [reflexivity|]. lia. }
  destruct (decide (x = [])) as [Hx|Hx].
  { subst x. destruct y; [|simpl in Hlen; lia].
    split; [apply Qcle_refl|]. split; [reflexivity|]. intros _ _. split; reflexivity. }
  assert (Hy : y <> []) by (intros ->; destruct x; [congruence|simpl in Hlen; lia]).
  assert (Hn : (0 < length x)%nat) by (destruct x; [congruence|simpl; lia]).
  rewrite (calculateMSE_sum x y Hlen Hx).
  rewrite (calculateMSE_sum y x (eq_sym Hlen) Hy). rewrite <- Hlen.
  assert (Hnonneg : 0 ≤ sum_upto (length x)
                          (fun i => (nth i x 0 - nth i y 0) * (nth i x 0 - nth i y 0)))
    by (apply sum_upto_nonneg; intros i _; apply square_nonneg).
  split; [|split].
  - pose proof (of_nat_pos _ Hn) as Hpos.
    apply quotient_nonneg; assumption.
  - f_equal. apply sum_upto_ext. intros i _. ring.
  - intros _ _. rewrite quotient_zero by (apply of_nat_nonzero; exact Hn). split.
    + intros Hsum. apply (nth_ext _ _ 0 0); [exact Hlen|]. intros i Hi.
      apply square_zero.
      apply (sum_upto_nonneg_zero (length x)
               (fun i => (nth i x 0 - nth i y 0) * (nth i x 0 - nth i y 0)));
        [intros j _; apply square_nonneg|exact Hsum|exact Hi].
    + intros ->. apply sum_upto_zero. intros i _. ring.
Qed.

Lemma calculateMSE_self (x : Signal) : calculateMSE x x = 0.
Proof.
  destruct (decide (x = [])) as [->|Hne]; [reflexivity|].
  rewrite calculateMSE_sum by (reflexivity || exact Hne).
  apply quotient_zero.
  - apply of_nat_nonzero. destruct x; [congruence|simpl; lia].
  - apply sum_upto_zero. intros i _. ring.
Qed.

Lemma calculateSNR_sums `{CLib} (clean noisy : Signal) :
  length clean = length noisy -> clean <> [] ->
  calculateSNR clean noisy
  = if ltb (calculateMSE clean noisy) (qfrac 1 10000000000) then qz 100
    else qz 10 * log10 (sum_upto (length clean) (fun i => nth i clean 0 * nth i clean 0)
                        / of_nat (length clean)
                        / calculateMSE clean noisy).
Proof.
  intros Hlen Hne. rewrite (calculateMSE_sum clean noisy Hlen Hne).
  unfold calculateSNR. rewrite Hlen at 1. rewrite Nat.eqb_refl.
  destruct (Nat.eqb_spec (length clean) 0) as [Hz|Hnz].
  { destruct clean; [congruence|simpl in Hz; lia]. }
  simpl negb. simpl orb. cbv iota.
  match goal with
  | |- context [for_loop 0 ?n ?body (0, 0)] =>
    assert (Hloop : for_loop 0 n body (0, 0)
                    = (sum_upto n (fun i => nth i clean 0 * nth i clean 0),
                       sum_upto n (fun i => (nth i clean 0 - nth i noisy 0)
                                            * (nth i clean 0 - nth i noisy 0))))
  end.
  { apply (for_loop_inv
             (fun k (st : Qc * Qc) =>
                st = (sum_upto k (fun i => nth i clean 0 * nth i clean 0),
                      sum_upto k (fun i => (nth i clean 0 - nth i noisy 0)
                                           * (nth i clean 0 - nth i noisy 0)))));
      [lia|reflexivity|].
    intros i [sp np] _ Hst. injection Hst as -> ->. simpl. f_equal. ring. }
  rewrite Hloop. reflexivity.
Qed.

(** X23. The signal-to-noise ratio is computed from the mean squared
    error: for signals of the same non-zero length it is 100 when the
    error is below 1e-10 and ten times the logarithm of the ratio of the
    mean power of the clean signal to that error otherwise; against
    itself a signal has the ratio 100. *)
Theorem X23_snr_from_mse `{CLib} (clean noisy : Signal) :
  length clean = length noisy -> clean <> [] ->
  calculateSNR clean noisy
  = (if ltb (calculateMSE clean noisy) (qfrac 1 10000000000) then qz 100
     else qz 10 * log10 (sum_upto (length clean)
                           (fun i => nth i clean 0 * nth i clean 0)
                         / of_nat (length clean)
                         / calculateMSE clean noisy))
  /\ calculateSNR clean clean = qz 100.
Proof.
  intros Hlen Hne. split; [apply calculateSNR_sums; assumption|].
  rewrite calculateSNR_sums by (reflexivity || exact Hne).
  assert (Hmse : calculateMSE clean clean = 0).
    by apply calculateMSE_self.
  rewrite Hmse. reflexivity.
Qed.
Lemma X23_snr_from_mse_witness :
  calculateSNR ramp3 (map qz [1; 2; 2]%Z)
  = (if ltb (calculateMSE ramp3 (map qz [1; 2; 2]%Z)) (qfrac 1 10000000000) then qz 100
     else qz 10 * log10 (sum_upto (length ramp3)
                           (fun i => nth i ramp3 0 * nth i ramp3 0)
                         / of_nat (length ramp3)
                         / calculateMSE ramp3 (map qz [1; 2; 2]%Z)))
  /\ calculateSNR ramp3 ramp3 = qz 100.
Proof. apply X23_snr_from_mse; [reflexivity|discriminate]. Defined.

Lemma calculateCorrelation_sums `{CLib} (x y : Signal) :
  length x = length y -> x <> [] ->
  calculateCorrelation x y
  = if ltb (sqrt (spread x * spread y)) (qfrac 1 10000000000) then 0
    else sum_upto (length x) (fun i => (nth i x 0 - mean x) * (nth i y 0 - mean y))
         / sqrt (spread x * spread y).
Proof.
  intros Hlen Hne. unfold calculateCorrelation. rewrite Hlen at 1. rewrite Nat.eqb_refl.
  destruct (Nat.eqb_spec (length x) 0) as [Hz|Hnz].
  { destruct x; [congruence|simpl in Hz; lia]. }
  simpl negb. simpl orb. cbv iota zeta. fold (mean x). fold (mean y).
  match goal with
  | |- context [for_loop 0 ?n ?body (0, 0, 0)] =>
    assert (Hloop : for_loop 0 n body (0, 0, 0)
                    = (sum_upto n (fun i => (nth i x 0 - mean x) * (nth i y 0 - mean y)),
                       sum_upto n (fun i => (nth i x 0 - mean x) * (nth i x 0 - mean x)),
                       sum_upto n (fun i => (nth i y 0 - mean y) * (nth i y 0 - mean y))))
  end.
  { apply (for_loop_inv
             (fun k (st : Qc * Qc * Qc) =>
                st = (sum_upto k (fun i => (nth i x 0 - mean x) * (nth i y 0 - mean y)),
                      sum_upto k (fun i => (nth i x 0 - mean x) * (nth i x 0 - mean x)),
                      sum_upto k (fun i => (nth i y 0 - mean y) * (nth i y 0 - mean y)))));
      [lia|reflexivity|].
    intros i [[num s1] s2] _ Hst. injection Hst as -> -> ->. reflexivity. }
  rewrite Hloop. unfold spread. rewrite <- Hlen. reflexivity.
Qed.

(** X24. The correlation coefficient does not depend on the order of
    its two arguments. *)
Theorem X24_correlation_is_symmetric `{CLib} (x y : Signal) :
  calculateCorrelation x y = calculateCorrelation y x.
Proof.
  destruct (decide (length x = length y)) as [Hlen|Hlen].
  2:{ unfold calculateCorrelation.
      destruct (Nat.eqb_spec (length x) (length y)); [lia|].
      destruct (Nat.eqb_spec (length y) (length x)); [lia|]. reflexivity. }
  destruct (decide (x = [])) as [Hx|Hx].
  { subst x. destruct y; [reflexivity|simpl in Hlen; lia]. }
  assert (Hy : y <> []) by (intros ->; destruct x; [congruence|simpl in Hlen; lia]).
  rewrite (calculateCorrelation_sums x y Hlen Hx).
  rewrite (calculateCorrelation_sums y x (eq_sym Hlen) Hy).
  replace (spread y * spread x) with (spread x * spread y) by ring.
  rewrite <- Hlen.
  rewrite (sum_upto_ext (length x)
             (fun i => (nth i y 0 - mean y) * (nth i x 0 - mean x))
             (fun i => (nth i x 0 - mean x) * (nth i y 0 - mean y)))
    by (intros i _; ring).
  reflexivity.
Qed.

Lemma accumulate_sum (x : Signal) :
  accumulate x = sum_upto (length x) (fun i => nth i x 0).
Proof.
  unfold accumulate.
  assert (Hgen : forall acc, fold_left Qcplus x acc
                             = acc + sum_upto (length x) (fun i => nth i x 0)).
  { induction x as [|v x IH] using rev_ind; intros acc; [simpl; ring|].
    rewrite fold_left_app, length_app. simpl. rewrite Nat.add_1_r. simpl.
    rewrite IH. rewrite app_nth2 by lia. rewrite Nat.sub_diag. simpl.
    rewrite (sum_upto_ext (length x) (fun i => nth i (x ++ [v]) 0) (fun i => nth i x 0))
      by (intros i Hi; apply app_nth1; exact Hi).
    ring. }
  rewrite Hgen. ring.
Qed.

Lemma mean_constant (c : Qc) (n : nat) : (0 < n)%nat -> mean (repeat c n) = c.
Proof.
  intros Hn. unfold mean. rewrite accumulate_sum, repeat_length.
  rewrite (sum_upto_ext n (fun i => nth i (repeat c n) 0) (fun _ => c * 1))
    by (intros i Hi; rewrite nth_repeat_lt by exact Hi; ring).
  rewrite sum_upto_scale.
  assert (Hones : sum_upto n (fun _ => 1) = of_nat n).
  { clear Hn. induction n as [|n IH]; [apply Qc_decomp; reflexivity|]. simpl. rewrite IH.
    unfold of_nat. rewrite Nat2Z.inj_succ, <- Z.add_1_r, Z2Qc_inj_add. reflexivity. }
  rewrite Hones. field. apply of_nat_nonzero. exact Hn.
Qed.

(** X25. In exact arithmetic a constant signal correlates with
    nothing: when one argument is constant its mean is the constant, the
    denominator is the square root of zero, and the guard on the
    denominator returns 0 instead of dividing (for a square root that
    maps 0 below 1e-10, as the exact one does). *)
Theorem X25_correlation_with_a_constant `{CLib} (c : Qc) (y : Signal) :
  sqrt 0 < qfrac 1 10000000000 ->
  calculateCorrelation (repeat c (length y)) y = 0.
Proof.
  intros Hsqrt. destruct (decide (y = [])) as [->|Hy]; [reflexivity|].
  assert (Hn : (0 < length y)%nat) by (destruct y; [congruence|simpl; lia]).
  rewrite calculateCorrelation_sums;
    [|apply repeat_length|destruct y; [congruence|discriminate]].
  assert (Hspread : spread (repeat c (length y)) = 0).
  { unfold spread. rewrite repeat_length. apply sum_upto_zero. intros i Hi.
    rewrite mean_constant by exact Hn. rewrite nth_repeat_lt by exact Hi. ring. }
  rewrite Hspread. replace (0 * spread y) with 0 by ring.
  apply ltb_lt in Hsqrt. rewrite Hsqrt. reflexivity.
Qed.

Lemma X25_correlation_with_a_constant_witness :
  calculateCorrelation (repeat (qz 4) (length ramp3)) ramp3 = 0.
Proof. apply X25_correlation_with_a_constant. vm_compute. reflexivity. Defined.

(** ** Spikes on a constant background *)

Lemma count_cons (c a : Qc) (l : list Qc) :
  count c (a :: l) = ((if eqb a c then 1 else 0) + count c l)%nat.
Proof. unfold count. simpl. destruct (eqb a c); reflexivity. Qed.

Lemma count_all (c : Qc) (l : list Qc) :
  (forall j, (j < length l)%nat -> nth j l 0 = c) -> count c l = length l.
Proof.
  induction l as [|a l IH]; intros Hall; [reflexivity|].
  rewrite count_cons.
  assert (Ha : eqb a c = true) by (apply eqb_eq, (Hall 0%nat); simpl; lia).
  rewrite Ha, IH; [reflexivity|]. intros j Hj. apply (Hall (S j)). simpl. lia.
Qed.

(** A list with at most one entry that differs from [c]. *)
Lemma count_all_but_one (c : Qc) (l : list Qc) (j0 : nat) :
  (forall j, (j < length l)%nat -> j <> j0 -> nth j l 0 = c) ->
  (length l <= count c l + 1)%nat.
Proof.
  revert j0. induction l as [|a l IH]; intros j0 Hall; [simpl; lia|].
  rewrite count_cons. destruct j0 as [|j0].
  - rewrite count_all; [simpl; lia|].
    intros j Hj. apply (Hall (S j)); simpl; lia.
  - assert (Ha : eqb a c = true) by (apply eqb_eq, (Hall 0%nat); simpl; lia).
    rewrite Ha. specialize (IH j0). simpl.
    assert (Hle : (length l <= count c l + 1)%nat); [|lia].
    apply IH. intros j Hj Hne. apply (Hall (S j)); simpl; lia.
Qed.

(** X26. The median filter removes an isolated spike: a signal that is
    constant except for one sample away from both ends comes out
    constant, for every odd window of at least three samples. *)
Theorem X26_median_filter_removes_a_spike (f : MedianFilter.t) (input : Signal)
    (c : Qc) (p : nat) :
  Nat.Odd (MedianFilter.windowSize_ f) -> (3 <= MedianFilter.windowSize_ f)%nat ->
  (0 < p)%nat -> (p + 1 < length input)%nat ->
  (forall j, (j < length input)%nat -> j <> p -> nth j input 0 = c) ->
  MedianFilter.process f input = repeat c (length input).
Proof.
  intros Hodd HW Hp0 Hp1 Hconst. rewrite MedianFilter_process_map.
  apply (nth_ext _ _ 0 0); [rewrite length_map, length_seq, repeat_length; reflexivity|].
  intros i Hi. rewrite length_map, length_seq in Hi.
  rewrite (nth_map_seq _ 0 (length input) i Hi), nth_repeat_lt by exact Hi. simpl.
  unfold MedianFilter.computeWindowMedian.
  pose proof (paddedWindow_length f input i Hodd Hi) as Hlen.
  apply median_majority.
  pose proof (count_all_but_one c (MedianFilter.paddedWindow f input i)
                (p + MedianFilter.windowSize_ f / 2 - i)) as Hcount.
  rewrite Hlen in *.
  assert (Hle : (MedianFilter.windowSize_ f
                 <= count c (MedianFilter.paddedWindow f input i) + 1)%nat); [|lia].
  apply Hcount. intros j Hj Hne.
  rewrite paddedWindow_nth by assumption.
  apply Hconst; lia.
Qed.

Lemma X26_median_filter_removes_a_spike_witness :
  MedianFilter.process {| MedianFilter.windowSize_ := 3 |} flat_spike
  = repeat (qz 1) (length flat_spike).
Proof.
  apply (X26_median_filter_removes_a_spike _ _ (qz 1) 2);
    try (simpl; lia); [exists 1%nat; reflexivity|].
  intros j Hj Hne. simpl in Hj.
  do 5 (destruct j as [|j]; [reflexivity || congruence|]). lia.
Defined.

(** X27. The opening removes an upward spike: with a flat element of
    at least three entries, a signal of at least two finite samples that
    is constant except for one sample above the constant comes out
    constant, wherever the spike is. *)
Theorem X27_opening_removes_a_spike (f : MorphologicalFilter.t) (x : Signal)
    (c : Qc) (p : nat) :
  Forall (fun e => e = 0) (MorphologicalFilter.structuringElement_ f) ->
  (3 <= length (MorphologicalFilter.structuringElement_ f))%nat ->
  finite x -> (2 <= length x)%nat ->
  (forall j, (j < length x)%nat -> j <> p -> nth j x 0 = c) ->
  c ≤ nth p x 0 ->
  MorphologicalFilter.opening f x = Ok (repeat c (length x)).
Proof.
  intros Hflat Hm3 Hfin Hn Hconst Hspike.
  set (m := length (MorphologicalFilter.structuringElement_ f)) in *.
  assert (Hm : (0 < m)%nat) by lia.
  assert (Hhalf : (1 <= m / 2)%nat /\ (m / 2 + 1 < m)%nat).
  { pose proof (Nat.div_mod_eq m 2) as Hdiv.
    pose proof (Nat.mod_upper_bound m 2 ltac:(lia)) as Hmod. lia. }
  assert (Hse : MorphologicalFilter.structuringElement_ f <> [])
    by (intros Hnil; unfold m in Hm; rewrite Hnil in Hm; simpl in Hm; lia).
  assert (Habove : forall k, (k < length x)%nat -> c ≤ nth k x 0).
  { intros k Hk. destruct (decide (k = p)) as [->|Hne]; [exact Hspike|].
    rewrite Hconst by assumption. apply Qcle_refl. }
  assert (Herosion : MorphologicalFilter.erosion f x = repeat c (length x)).
  { apply (nth_ext _ _ 0 0); [rewrite erosion_length, repeat_length; reflexivity|].
    intros i Hi. rewrite erosion_length in Hi.
    rewrite erosion_nth, nth_repeat_lt by exact Hi.
    destruct (erodeAt_flat f Hflat x i Hfin Hm Hi) as [Hlow (k & Hk & Hatt)].
    fold m in Hlow, Hk. apply Qcle_antisym.
    - assert (Hother : exists k', covers m (length x) i k' /\ k' <> p).
      { destruct (decide (i = p)) as [->|Hne];
          [|exists i; split; [apply covers_self; assumption|exact Hne]].
        destruct (decide (p + 1 < length x)%nat) as [Hright|Hleft].
        - exists (p + 1)%nat. unfold covers. repeat split; lia.
        - exists (p - 1)%nat. unfold covers. repeat split; lia. }
      destruct Hother as (k' & Hk' & Hne').
      rewrite <- (Hconst k') by (destruct Hk'; assumption). apply Hlow, Hk'.
    - rewrite Hatt. apply Habove. apply Hk. }
  rewrite opening_unfold by exact Hse. rewrite Herosion. f_equal.
  assert (Hfinc : finite (repeat c (length x))).
  { intros k Hk. rewrite repeat_length in Hk. rewrite nth_repeat_lt by exact Hk.
    destruct (decide (p = 0)%nat) as [Hp|Hp].
    - rewrite <- (Hconst 1%nat) by lia. apply Hfin. lia.
    - rewrite <- (Hconst 0%nat) by lia. apply Hfin. lia. }
  apply (nth_ext _ _ 0 0); [rewrite dilation_length; reflexivity|].
  intros i Hi. rewrite dilation_length, repeat_length in Hi.
  rewrite dilation_nth by (rewrite repeat_length; exact Hi).
  destruct (dilateAt_flat f Hflat (repeat c (length x)) i Hfinc Hm)
    as [_ (k & Hk & ->)]; [rewrite repeat_length; exact Hi|].
  rewrite repeat_length in Hk. rewrite !nth_repeat_lt; [reflexivity|exact Hi|apply Hk].
Qed.

Lemma X27_opening_removes_a_spike_witness :
  MorphologicalFilter.opening opening3 flat_spike = Ok (repeat (qz 1) (length flat_spike)).
Proof.
  apply (X27_opening_removes_a_spike opening3 flat_spike (qz 1) 2).
  - repeat constructor.
  - simpl. lia.
  - apply finiteb_finite. vm_compute. reflexivity.
  - simpl. lia.
  - intros j Hj Hne. simpl in Hj.
    do 5 (destruct j as [|j]; [reflexivity || congruence|]). lia.
  - vm_compute. discriminate.
Defined.

(** ** The initial weights of the adaptive filter *)

Lemma Qc_of_Z_le (a b : Z) : (a <= b)%Z -> Qc_of_Z a ≤ Qc_of_Z b.
Proof. intros Hab. unfold Qcle. simpl. rewrite <- Zle_Qle. exact Hab. Qed.

Lemma initial_weight_small (r rmax : Z) :
  (0 < rmax)%Z -> (0 <= r <= rmax)%Z ->
  - qfrac 1 2000 ≤ qfrac 1 1000 * (Qc_of_Z r / Qc_of_Z rmax - qfrac 1 2)
  /\ qfrac 1 1000 * (Qc_of_Z r / Qc_of_Z rmax - qfrac 1 2) ≤ qfrac 1 2000.
Proof.
  intros Hmax Hr.
  destruct (quotient_between 0 1 (Qc_of_Z r) (Qc_of_Z rmax)) as [Hlo Hhi].
  - apply (Qc_of_Z_lt 0). exact Hmax.
  - replace (0 * Qc_of_Z rmax) with 0 by ring. apply (Qc_of_Z_le 0). lia.
  - replace (1 * Qc_of_Z rmax) with (Qc_of_Z rmax) by ring. apply Qc_of_Z_le. lia.
  - revert Hlo Hhi. generalize (Qc_of_Z r / Qc_of_Z rmax). intros q Hlo Hhi.
    split; qc_lra.
Qed.

(** X28. The weights that [reset] (and so the constructor) draws are
    small: one weight per tap, each between -0.0005 and 0.0005, for a
    [rand] that returns values from 0 to [RAND_MAX] as the C library
    does. *)
Theorem X28_initial_weights_are_small `{CLib} (f : WienerFilter.t) (g : rng) :
  (0 < RAND_MAX)%Z -> (forall s, (0 <= fst (rand s) <= RAND_MAX)%Z) ->
  length (WienerFilter.weights_ (fst (WienerFilter.reset f g)))
  = WienerFilter.filterOrder_ f
  /\ bounded (- qfrac 1 2000) (qfrac 1 2000)
       (WienerFilter.weights_ (fst (WienerFilter.reset f g))).
Proof.
  intros Hmax Hrand. split; [apply reset_weights_length|].
  unfold WienerFilter.reset.
  match goal with
  | |- context [for_loop 0 ?n ?body ?init] => set (loop := for_loop 0 n body init)
  end.
  assert (Hloop : bounded (- qfrac 1 2000) (qfrac 1 2000) (fst loop)).
  { unfold loop.
    apply (for_loop_inv
             (fun _ (st : list Qc * rng) =>
                bounded (- qfrac 1 2000) (qfrac 1 2000) (fst st))); [lia| |].
    - simpl. intros j Hj. rewrite nth_zeros. split; qc_lra.
    - intros i [w s] _ Hw. simpl in *.
      pose proof (Hrand s) as Hr. destruct (rand s) as [r s']. simpl in *.
      destruct (initial_weight_small r RAND_MAX Hmax Hr) as [Hlo Hhi].
      apply bounded_insert; assumption. }
  destruct loop as [w s]. exact Hloop.
Qed.

Lemma X28_initial_weights_are_small_witness :
  length (WienerFilter.weights_ (fst (WienerFilter.reset wiener2 (7%Z : @rng lcg))))
  = WienerFilter.filterOrder_ wiener2
  /\ bounded (- qfrac 1 2000) (qfrac 1 2000)
       (WienerFilter.weights_ (fst (WienerFilter.reset wiener2 (7%Z : @rng lcg)))).
Proof.
  apply (@X28_initial_weights_are_small lcg wiener2 7%Z).
  - reflexivity.
  - intros s. simpl.
    pose proof (Z.mod_pos_bound (s * 1103515245 + 12345) 2147483648). lia.
Defined.

(** ** The correlation coefficient lies between -1 and 1 *)

Lemma cauchy_key (A B C a b : Qc) :
  0 ≤ A -> 0 ≤ B -> C * C ≤ A * B ->
  0 ≤ A * (b * b) + a * a * B - (C * a * b + C * a * b).
Proof.
  intros HA HB HC.
  destruct (decide (A = 0)) as [HA0|HA0].
  - subst A. assert (HC0 : C = 0) by qc_nra. subst C.
    pose proof (square_nonneg a) as Ha. qc_nra.
  - assert (HApos : 0 < A).
    { destruct (Qcle_lt_or_eq _ _ HA) as [Hlt|Heq]; [exact Hlt|congruence]. }
    assert (Hprod : 0 ≤ A * (A * (b * b) + a * a * B - (C * a * b + C * a * b))).
    { replace (A * (A * (b * b) + a * a * B - (C * a * b + C * a * b)))
        with ((A * b - C * a) * (A * b - C * a) + a * a * (A * B - C * C)) by ring.
      pose proof (square_nonneg (A * b - C * a)) as H1.
      pose proof (square_nonneg a) as H2.
      assert (H3 : 0 ≤ A * B - C * C) by qc_lra.
      revert H1 H2 H3. generalize ((A * b - C * a) * (A * b - C * a)), (a * a), (A * B - C * C).
      intros u v w Hu Hv Hw. qc_nra. }
    revert Hprod. generalize (A * (b * b) + a * a * B - (C * a * b + C * a * b)).
    intros k Hk. qc_nra.
Qed.

Lemma cauchy_schwarz (n : nat) (g h : nat -> Qc) :
  sum_upto n (fun i => g i * h i) * sum_upto n (fun i => g i * h i)
  ≤ sum_upto n (fun i => g i * g i) * sum_upto n (fun i => h i * h i).
Proof.
  induction n as [|n IH]; [simpl; qc_lra|]. simpl.
  assert (HA : 0 ≤ sum_upto n (fun i => g i * g i))
    by (apply sum_upto_nonneg; intros i _; apply square_nonneg).
  assert (HB : 0 ≤ sum_upto n (fun i => h i * h i))
    by (apply sum_upto_nonneg; intros i _; apply square_nonneg).
  pose proof (cauchy_key _ _ _ (g n) (h n) HA HB IH) as Hkey.
  revert HA HB IH Hkey.
  generalize (sum_upto n (fun i => g i * g i)), (sum_upto n (fun i => h i * h i)),
    (sum_upto n (fun i => g i * h i)), (g n), (h n).
  intros A B C a b HA HB HC Hkey.
  replace ((C + a * b) * (C + a * b))
    with (C * C + (C * a * b + C * a * b) + a * a * (b * b)) by ring.
  replace ((A + a * a) * (B + b * b))
    with (A * B + (A * (b * b) + a * a * B) + a * a * (b * b)) by ring.
  revert HC Hkey.
  generalize (C * C), (A * B), (C * a * b + C * a * b), (A * (b * b) + a * a * B),
    (a * a * (b * b)).
  intros c2 ab k1 k2 r HC Hkey. qc_lra.
Qed.

(** X29. In exact arithmetic but for the square root: when the square
    root of the library returns, at the product of the two spreads, at
    least the true root divided by [1 + e], the correlation coefficient
    lies between [-(1 + e)] and [1 + e] (the Cauchy-Schwarz inequality
    bounds the numerator by the true root); with an exact root, [e = 0],
    it lies between -1 and 1.  A denominator below 1e-10 gives 0. *)
Theorem X29_correlation_is_bounded `{CLib} (e : Qc) (x y : Signal) :
  0 ≤ e ->
  spread x * spread y
  ≤ (1 + e) * (1 + e) * (sqrt (spread x * spread y) * sqrt (spread x * spread y)) ->
  - (1 + e) ≤ calculateCorrelation x y /\ calculateCorrelation x y ≤ 1 + e.
Proof.
  intros He Hsqrt.
  assert (Hzero : - (1 + e) ≤ (0 : Qc) /\ (0 : Qc) ≤ 1 + e) by (split; qc_lra).
  destruct (decide (length x = length y)) as [Hlen|Hlen].
  2:{ unfold calculateCorrelation.
      destruct (Nat.eqb_spec (length x) (length y)); [lia|]. exact Hzero. }
  destruct (decide (x = [])) as [Hx|Hx].
  { subst x. destruct y; [exact Hzero|simpl in Hlen; lia]. }
  rewrite (calculateCorrelation_sums x y Hlen Hx).
  destruct (ltb (sqrt (spread x * spread y)) (qfrac 1 10000000000)) eqn:Hguard;
    [exact Hzero|].
  apply ltb_nlt in Hguard.
  pose proof (cauchy_schwarz (length x) (fun i => nth i x 0 - mean x)
                (fun i => nth i y 0 - mean y)) as Hcs.
  cbv beta in Hcs. fold (spread x) in Hcs.
  assert (Hsy : sum_upto (length x) (fun i => (nth i y 0 - mean y) * (nth i y 0 - mean y))
                = spread y) by (unfold spread; rewrite Hlen; reflexivity).
  rewrite Hsy in Hcs.
  assert (Hnum : sum_upto (length x) (fun i => (nth i x 0 - mean x) * (nth i y 0 - mean y))
                 * sum_upto (length x)
                     (fun i => (nth i x 0 - mean x) * (nth i y 0 - mean y))
                 ≤ (1 + e) * (1 + e)
                   * (sqrt (spread x * spread y) * sqrt (spread x * spread y)))
    by (eapply Qcle_trans; [exact Hcs|exact Hsqrt]).
  clear Hcs Hsqrt. revert Hguard Hnum.
  generalize (sqrt (spread x * spread y)),
    (sum_upto (length x) (fun i => (nth i x 0 - mean x) * (nth i y 0 - mean y))).
  intros d num Hd Hnum.
  assert (Hdpos : 0 < d) by qc_lra.
  assert (Hk : 0 < (1 + e) * d) by qc_nra.
  assert (Hkk : num * num ≤ ((1 + e) * d) * ((1 + e) * d)).
  { replace (((1 + e) * d) * ((1 + e) * d)) with ((1 + e) * (1 + e) * (d * d)) by ring.
    exact Hnum. }
  apply quotient_between; [exact Hdpos| |].
  - replace (- (1 + e) * d) with (- ((1 + e) * d)) by ring.
    revert Hk Hkk. generalize ((1 + e) * d). intros k Hk Hkk. qc_nra.
  - revert Hk Hkk. generalize ((1 + e) * d). intros k Hk Hkk. qc_nra.
Qed.

Lemma X29_correlation_is_bounded_witness :
  - (1 + 0) ≤ calculateCorrelation (map qz [0; 2]%Z) (map qz [0; 2]%Z)
  /\ calculateCorrelation (map qz [0; 2]%Z) (map qz [0; 2]%Z) ≤ 1 + 0.
Proof.
  apply X29_correlation_is_bounded; [apply Qcle_refl|].
  vm_compute. discriminate.
Defined.

(** ** The triangular pulse of the signal generator *)

Lemma ramp_fraction (a : Qc) (k d : nat) :
  0 < a -> (k < d)%nat -> 0 ≤ a * of_nat k / of_nat d /\ a * of_nat k / of_nat d < a.
Proof.
  intros Ha Hk.
  assert (Hd : 0 < of_nat d) by (apply of_nat_pos; lia).
  assert (Hk0 : 0 ≤ of_nat k) by (apply (Qc_of_Z_le 0); lia).
  assert (Hkd : of_nat k < of_nat d) by (apply Qc_of_Z_lt; lia).
  assert (Hq : a * of_nat k / of_nat d * of_nat d = a * of_nat k)
    by (field; intros Hz; apply (Qclt_not_eq _ _ Hd); symmetry; exact Hz).
  revert Hd Hk0 Hkd Hq.
  generalize (a * of_nat k / of_nat d), (of_nat k), (of_nat d).
  intros q k' d' Hd Hk0 Hkd Hq. split; qc_nra.
Qed.

Lemma generateTriangularPulse_nth (length : nat) (amplitude : Qc) (i : nat) :
  (i < length)%nat ->
  nth i (SignalGenerator.generateTriangularPulse length amplitude) 0
  = if (i <? length / 2)%nat
    then amplitude * of_nat i / of_nat (length / 2)
    else amplitude * of_nat (length - 1 - i) / of_nat (length - length / 2).
Proof.
  intros Hi. unfold SignalGenerator.generateTriangularPulse. cbv zeta.
  rewrite (for_loop_push 0 _ (fun i => amplitude * of_nat i / of_nat (length / 2))).
  rewrite (for_loop_push _ _
             (fun i => amplitude * of_nat (length - 1 - i)
                       / of_nat (length - length / 2))).
  rewrite app_nil_l, Nat.sub_0_r.
  destruct (Nat.ltb_spec i (length / 2)) as [Hlt|Hge].
  - rewrite app_nth1 by (rewrite length_map, length_seq; exact Hlt).
    rewrite nth_map_seq by exact Hlt. reflexivity.
  - rewrite app_nth2 by (rewrite length_map, length_seq; exact Hge).
    rewrite length_map, length_seq.
    rewrite nth_map_seq by lia. do 3 f_equal. lia.
Qed.

(** X30. The triangular pulse has the requested number of samples,
    starts and ends at zero, and every sample lies in [[0, amplitude)]:
    the peak of the triangle stays below the amplitude.  The amplitude is
    a positive normal double whose products with the sample indices do
    not overflow, and the length is one that converts to a double
    exactly. *)
Theorem X30_triangular_pulse_below_amplitude (length : nat) (amplitude : Qc) :
  DBL_MIN ≤ amplitude ->
  amplitude * of_nat length ≤ DBL_MAX ->
  (Z.of_nat length <= 2 ^ 52)%Z ->
  List.length (SignalGenerator.generateTriangularPulse length amplitude) = length
  /\ (forall i, (i < length)%nat ->
        0 ≤ nth i (SignalGenerator.generateTriangularPulse length amplitude) 0
        /\ nth i (SignalGenerator.generateTriangularPulse length amplitude) 0 < amplitude)
  /\ ((0 < length)%nat ->
      nth 0 (SignalGenerator.generateTriangularPulse length amplitude) 0 = 0
      /\ nth (length - 1) (SignalGenerator.generateTriangularPulse length amplitude) 0 = 0).
Proof.
  intros Hnormal _ _.
  assert (Ha : 0 < amplitude).
  { eapply Qclt_le_trans; [|exact Hnormal]. vm_compute. reflexivity. }
  pose proof (Nat.div_mod_eq length 2) as Hdiv.
  pose proof (Nat.mod_upper_bound length 2 ltac:(lia)) as Hmod.
  assert (Hzero : of_nat 0 = 0) by (apply Qc_decomp; reflexivity).
  split; [|split].
  - unfold SignalGenerator.generateTriangularPulse. cbv zeta.
    rewrite !for_loop_push_length. change (List.length (@nil Qc)) with 0%nat. lia.
  - intros i Hi. rewrite generateTriangularPulse_nth by exact Hi.
    destruct (Nat.ltb_spec i (length / 2)); apply ramp_fraction; (exact Ha || lia).
  - intros Hlen. rewrite !generateTriangularPulse_nth by lia. split.
    + destruct (Nat.ltb_spec 0 (length / 2)) as [Hh|Hh].
      * rewrite Hzero. field. apply of_nat_nonzero. exact Hh.
      * replace (length - 1 - 0)%nat with 0%nat by lia.
        rewrite Hzero. field. apply of_nat_nonzero. lia.
    + destruct (Nat.ltb_spec (length - 1) (length / 2)) as [Hh|Hh]; [lia|].
      replace (length - 1 - (length - 1))%nat with 0%nat by lia.
      rewrite Hzero. field. apply of_nat_nonzero. lia.
Qed.

Lemma X30_triangular_pulse_below_amplitude_witness :
  List.length (SignalGenerator.generateTriangularPulse 4 (qz 6)) = 4%nat
  /\ (forall i, (i < 4)%nat ->
        0 ≤ nth i (SignalGenerator.generateTriangularPulse 4 (qz 6)) 0
        /\ nth i (SignalGenerator.generateTriangularPulse 4 (qz 6)) 0 < qz 6)
  /\ ((0 < 4)%nat ->
      nth 0 (SignalGenerator.generateTriangularPulse 4 (qz 6)) 0 = 0
      /\ nth (4 - 1) (SignalGenerator.generateTriangularPulse 4 (qz 6)) 0 = 0).
Proof.
  apply X30_triangular_pulse_below_amplitude; vm_compute; discriminate.
Defined.
